(** * pseudojava: the Higgs field registry and the deferred free stack

    A shallow embedding of [higgs_king.h] (the bounded, priority-sorted
    registry of field points and its interaction step) and of [free_all.h]
    (the priority-ordered stack of pending [free] calls and its cascade).

    C [double] values are Rocq's primitive binary64 floats, so every
    arithmetic operation and comparison below rounds, overflows and treats
    NaN as the C code does when it is compiled as the README says
    ([-std=c99]: IEEE 754 double evaluation, no contraction). The inline
    assembly around the pushes only moves registers and has no counterpart
    here. *)

From Stdlib Require Import String Ascii ZArith List Sorted Permutation Bool Lia
  Floats Uint63.
Import ListNotations.

Set Warnings "-inexact-float".

(* ================================================================== *)
(** ** C doubles *)

Module Double.

Open Scope float_scope.

(** [isnan] and [isinf] of <math.h>. *)
Definition isnan (x : float) : bool := negb (x =? x).
Definition isinf (x : float) : bool := abs x =? infinity.

(** [a > b] on doubles: false as soon as one side is NaN. *)
Definition gtb (a b : float) : bool := b <? a.

(** Conversion of a [size_t] to [double] (exact below 2^53). *)
Definition of_size (n : Z) : float := of_uint63 (Uint63.of_Z n).
Definition of_count (n : nat) : float := of_size (Z.of_nat n).

(** Classes of values, read on the IEEE specification [Prim2SF x] of a
    double. [number x]: [x] is not a NaN. [signed s r]: [r] is a zero, an
    infinity or a finite value with sign bit [s]. *)
Definition is_nan_sf (x : spec_float) : bool :=
  match x with S754_nan => true | _ => false end.

Definition number (x : float) : Prop := is_nan_sf (Prim2SF x) = false.

(** The IEEE value of the double 1.0. *)
Definition one_sf : spec_float := S754_finite false 4503599627370496 (-52).

(** [x] is a zero, a positive finite value or plus infinity. *)
Definition not_negative (x : spec_float) : Prop :=
  match x with
  | S754_zero _ => True
  | S754_infinity s | S754_finite s _ _ => s = false
  | S754_nan => False
  end.

(** [c] is a finite double above zero. *)
Definition positive_finite (c : float) : Prop :=
  exists m e, Prim2SF c = S754_finite false m e.

Definition signed (s : bool) (r : spec_float) : Prop :=
  match r with
  | S754_zero s' | S754_infinity s' | S754_finite s' _ _ => s' = s
  | S754_nan => False
  end.

End Double.

Notation "a >? b" := (Double.gtb a b) : float_scope.

(* ================================================================== *)
(** ** free_all.h: the tick stack of pending frees *)

Module FreeAll.

Import Double.
Open Scope float_scope.

Definition MAX_TICK_STACK : nat := 1024.
Definition FUZZY_CONFIDENCE_THRESHOLD : float := 0.7.
Definition MEMORY_PRESSURE_THRESHOLD : float := 0.9.

(** A pointer is its address; [NULL] is address 0. *)
Definition pointer := Z.
Definition NULL : pointer := 0%Z.

(** [struct FreeTick]; the [next] link is the tail of the Rocq list. *)
Record FreeTick := mkTick {
  ptr : pointer;
  size : Z;
  ref_count : Z;
  fuzzy_score : float
}.

(** The two globals [tick_stack] and [tick_count], together with what the
    code does to the outside world: the addresses handed to [free], oldest
    first, and the lines written to stdout/stderr. *)
Record state := mkState {
  tick_stack : list FreeTick;
  tick_count : nat;
  freed : list pointer;
  output : list string
}.

Definition empty : state := mkState [] 0 [] [].

Definition say (msg : string) (st : state) : state :=
  mkState (tick_stack st) (tick_count st) (freed st) (output st ++ [msg]).

(** [is_valid_ptr]: the placeholder validation of the source. *)
Definition is_valid_ptr (p : pointer) : bool := negb (p =? NULL)%Z.

(** [monitor_memory_pressure]: [tick_count > 1024 * 0.9 ? 0.9 : 0.5]. *)
Definition monitor_memory_pressure (st : state) : float :=
  if of_count (tick_count st) >? of_count MAX_TICK_STACK * MEMORY_PRESSURE_THRESHOLD
  then 0.9 else 0.5.

(** [fuzzy_score_ptr]. *)
Definition fuzzy_score_ptr (st : state) (p : pointer) (sz : Z) (rc : Z) : float :=
  let size_factor := if (sz >? 1024)%Z then 0.9 else of_size sz / 1024.0 in
  let ref_factor := if (rc >? 1)%Z then 0.7 else 0.3 in
  let memory_pressure := monitor_memory_pressure st in
  let score := if size_factor <? ref_factor then size_factor else ref_factor in
  let score := if score <? memory_pressure then score else memory_pressure in
  score.

(** The penalty [tick_push] applies to the score it got from
    [fuzzy_score_ptr]: [if (s < THRESHOLD) s *= 0.8]. *)
Definition penalize (s : float) : float :=
  if s <? FUZZY_CONFIDENCE_THRESHOLD then s * 0.8 else s.

(** The [while (cur->next && cur->next->fuzzy_score > t->fuzzy_score)] walk
    of [tick_push], started at node [cur] whose successors are [rest]:
    the list from [cur] on, with [t] linked in. *)
Fixpoint link_after (cur : FreeTick) (rest : list FreeTick) (t : FreeTick)
  : list FreeTick :=
  match rest with
  | [] => [cur; t]
  | nxt :: rest' =>
      if fuzzy_score nxt >? fuzzy_score t
      then cur :: link_after nxt rest' t
      else cur :: t :: rest
  end.

Definition insert_tick (stack : list FreeTick) (t : FreeTick) : list FreeTick :=
  match stack with
  | [] => [t]
  | hd :: rest =>
      if fuzzy_score t >? fuzzy_score hd then t :: stack
      else link_after hd rest t
  end.

(** [tick_push]. [malloc_ok] is whether the [malloc] of the node succeeds. *)
Definition tick_push (malloc_ok : bool) (p : pointer) (sz rc : Z) (st : state)
  : state :=
  if (p =? NULL)%Z || (MAX_TICK_STACK <=? tick_count st)%nat then
    say "FREE_ALL Error: Null ptr or tick stack full" st
  else if negb malloc_ok then
    say "FREE_ALL Error: Memory allocation failed for tick" st
  else
    let t := mkTick p sz rc (penalize (fuzzy_score_ptr st p sz rc)) in
    mkState (insert_tick (tick_stack st) t) (S (tick_count st))
            (freed st) (output st).

(** The loop of [tick_cascade] over the nodes from [cur] on. *)
Fixpoint cascade_from (cur : list FreeTick) (st : state) : state :=
  match cur with
  | [] => st
  | t :: next =>
      let st' :=
        if negb (ptr t =? NULL)%Z then
          if negb (is_valid_ptr (ptr t)) then
            say "FREE_ALL Warning: Double-free attempt" st
          else mkState (tick_stack st) (tick_count st)
                       (freed st ++ [ptr t]) (output st)
        else st in
      cascade_from next st'
  end.

(** [tick_cascade]. *)
Definition tick_cascade (st : state) : state :=
  let st' := cascade_from (tick_stack st) st in
  mkState [] 0 (freed st') (output st').

(** [free_all_tickstack]: the policy gate in front of the cascade. *)
Definition free_all_tickstack (st : state) : state :=
  if monitor_memory_pressure st >? MEMORY_PRESSURE_THRESHOLD then
    tick_cascade st
  else
    say "FREE_ALL: Low memory pressure, deferring cascade" st.

(** How often an address was handed to [free]. *)
Definition times_freed (p : pointer) (st : state) : nat :=
  count_occ Z.eq_dec (freed st) p.

(** [n] submissions, of the distinct handles [1 .. n], each of [sz] bytes
    with reference estimate [rc]. *)
Fixpoint submit_many (n : nat) (sz rc : Z) (st : state) : state :=
  match n with
  | O => st
  | S k => tick_push true (Z.of_nat n) sz rc (submit_many k sz rc st)
  end.

End FreeAll.

(* ================================================================== *)
(** ** tickstack_11d.h: the 11-dimensional tick stack

    Only the header's constants, structures and prototypes are in the
    repository's sources; the function bodies are not. The structures below
    are the header's. The operations [higgs_king.h] calls are collected in
    the class [TickStackOps], so that the registry is verified against any
    implementation of them; [SpecTickStack] is one such implementation,
    written from the specification. *)

Module TickStack11d.

Import Double.
Open Scope float_scope.

Definition TICKSTACK_DIM : nat := 11.
Definition TICKSTACK_SIZE : nat := 50.
Definition TICKSTACK_PHI : float := 1.618033988749895.
Definition TICKSTACK_THIRD : float := 0.333333333333.
Definition TICKSTACK_EPSILON : float := 1e-10.
Definition TS_ERR_STACK_OVERFLOW : Z := 103.
Definition TS_ERR_INVALID_OPERATION : Z := 105.

Record ElectronFreeLiteral := mkLiteral {
  coords : list float;
  is_observed : Z
}.

Record MultivarDeltaTopology := mkDelta {
  deltas : list float;
  magnitude : float;
  directions : list float;
  phase : float;
  harmonic_factor : float;
  variable_count : Z
}.

(** [literal_count] and [topology_count] are the lengths of the two
    sequences. *)
Record MultivarTickStack := mkTickStack {
  literals : list ElectronFreeLiteral;
  delta_topology : list MultivarDeltaTopology;
  error_code : Z
}.

Definition literal_count (ts : MultivarTickStack) : nat := length (literals ts).

(** The functions and macros of the tick stack that [higgs_king.h] uses. *)
Class TickStackOps := {
  init_multivar_tickstack : MultivarTickStack;
  vector_magnitude : list float -> float;
  PUSH_LITERAL : MultivarTickStack -> list float -> MultivarTickStack;
  compute_multivar_delta_topology : MultivarTickStack -> MultivarTickStack;
  X_MULTIVAR : MultivarTickStack -> float -> MultivarTickStack
}.

(** Modelled from the spec: the behaviour of the absent operations that the
    registry relies on (sections 4.2, 4.4 and 9). A fresh tick stack holds
    no literal; a push appends one
    literal while fewer than 50 are held and is a no-op otherwise;
    recomputing the topology and the x operator leave the literals alone;
    the x operator leaves the delta records alone, so that one anchor
    serves every point of a step. *)
Class TickStackLaws (ops : TickStackOps) : Prop := {
  init_no_literal : literals init_multivar_tickstack = [];
  push_count : forall ts v,
    literal_count (PUSH_LITERAL ts v) =
    (if (literal_count ts <? TICKSTACK_SIZE)%nat
     then S (literal_count ts) else literal_count ts);
  compute_keeps_literals : forall ts,
    literals (compute_multivar_delta_topology ts) = literals ts;
  x_keeps_literals : forall ts r, literals (X_MULTIVAR ts r) = literals ts;
  x_keeps_topology : forall ts r,
    delta_topology (X_MULTIVAR ts r) = delta_topology ts
}.

(** Modelled from the spec: [vector_magnitude] (body absent) is the
    Euclidean norm of section 4.1, so it is never below zero. *)
Definition magnitude_not_negative (ops : TickStackOps) : Prop :=
  forall v, (vector_magnitude v <? 0) = false.

End TickStack11d.

Module SpecTickStack.

Import Double TickStack11d.
Open Scope float_scope.

Definition bad (x : float) : bool := isnan x || isinf x.

(** Modelled from the spec: [vector_magnitude] (declared in tickstack_11d.h,
    body absent). Section 4.1: the Euclidean norm over all axes, with NaN as
    the sentinel when a component is NaN or infinite. *)
Definition vector_magnitude (v : list float) : float :=
  if existsb bad v then nan
  else PrimFloat.sqrt (fold_left (fun acc x => acc + x * x) v 0).

(** Modelled from the spec: the per-axis difference [a[i] - b[i]] of
    section 4.1. *)
Fixpoint delta (a b : list float) : list float :=
  match a, b with
  | x :: a', y :: b' => (x - y) :: delta a' b'
  | _, _ => []
  end.

(** Modelled from the spec: [PUSH_LITERAL] (macro absent). Section 4.2:
    append to the sequence of literals, capacity 50; on overflow report and
    leave the sequence as it is. *)
Definition push_literal (ts : MultivarTickStack) (v : list float)
  : MultivarTickStack :=
  if (literal_count ts <? TICKSTACK_SIZE)%nat then
    mkTickStack (literals ts ++ [mkLiteral (firstn TICKSTACK_DIM v) 1])
                (delta_topology ts) (error_code ts)
  else mkTickStack (literals ts) (delta_topology ts) TS_ERR_STACK_OVERFLOW.

Section Records.

(** The specification fixes neither the phase nor the harmonic factor
    beyond "derived from the deltas" and "derived from the magnitude and a
    fixed ratio"; they stay parameters of the model. *)
Variable phase_of : list float -> float.
Variable harmonic_of : float -> float.

(** Modelled from the spec: one delta record of section 4.2 for the pair
    [(prev, cur)]. *)
Definition delta_record (prev cur : list float) : MultivarDeltaTopology :=
  let d := delta cur prev in
  let m := vector_magnitude d in
  mkDelta d m
          (map (fun x => if m <? TICKSTACK_EPSILON then 0 else x / m) d)
          (phase_of d) (harmonic_of m) (Z.of_nat TICKSTACK_DIM).

(** Modelled from the spec: the records of all consecutive pairs, a pair
    with a NaN or infinite input being skipped. *)
Fixpoint records (l : list ElectronFreeLiteral) : list MultivarDeltaTopology :=
  match l with
  | prev :: (cur :: _) as rest =>
      if existsb bad (coords prev) || existsb bad (coords cur)
      then records rest
      else delta_record (coords prev) (coords cur) :: records rest
  | _ => []
  end.

(** Modelled from the spec: [compute_multivar_delta_topology] (body
    absent) replaces the record list on every call. *)
Definition recompute_topology (ts : MultivarTickStack) : MultivarTickStack :=
  mkTickStack (literals ts) (records (literals ts)) (error_code ts).

(** Modelled from the spec: [X_MULTIVAR] (macro absent). The specification
    gives the x operator no effect on literals or records; an operation code
    outside the known ones is recorded as an error. *)
Definition x_multivar (ts : MultivarTickStack) (op : float) : MultivarTickStack :=
  mkTickStack (literals ts) (delta_topology ts) TS_ERR_INVALID_OPERATION.

Definition ops : TickStackOps := {|
  init_multivar_tickstack := mkTickStack [] [] 0;
  TickStack11d.vector_magnitude := vector_magnitude;
  PUSH_LITERAL := push_literal;
  compute_multivar_delta_topology := recompute_topology;
  X_MULTIVAR := x_multivar
|}.

End Records.

(** The instance used in examples: golden-ratio scaling of the magnitude
    for the harmonic factor, the sum of the deltas scaled by a third for
    the phase. *)
Definition reference : TickStackOps :=
  ops (fun d => fold_left (fun acc x => acc + x) d 0 * TICKSTACK_THIRD)
      (fun m => m * TICKSTACK_PHI).

End SpecTickStack.

(* ================================================================== *)
(** ** higgs_king.h: the registry of field points *)

Module HiggsKing.

Import Double TickStack11d.
Open Scope float_scope.

Definition HIGGS_FIELD_DIM : nat := TICKSTACK_DIM.
Definition HIGGS_FIELD_SIZE : nat := 100.
Definition HIGGS_ENERGY_FACTOR : float := 0.618033988749895.
Definition HIGGS_COUPLING_BASE : float := 0.125.
Definition FUZZY_CONFIDENCE_THRESHOLD : float := 0.7.
Definition FIELD_STABILITY_THRESHOLD : float := 1e-6.

(** [HiggsFieldPoint]. [insert_id] is the C string held in the 32-byte
    buffer. *)
Record HiggsFieldPoint := mkPoint {
  field : list float;
  energy : float;
  mass : float;
  fuzzy_score : float;
  is_interacting : Z;
  insert_id : string
}.

(** [HiggsField]. [points] is the whole array of [HIGGS_FIELD_SIZE] slots;
    the slots from [point_count] on are storage the registry does not
    regard as points. *)
Record HiggsField := mkField {
  points : list HiggsFieldPoint;
  point_count : nat;
  tick_stack : MultivarTickStack;
  coupling_factor : float
}.

(** Array access. Reads and writes beyond the array are outside the model:
    a read yields [garbage], a write is dropped. *)
Definition garbage : HiggsFieldPoint := mkPoint [] 0 0 0 0 EmptyString.

Definition slot (pts : list HiggsFieldPoint) (i : nat) : HiggsFieldPoint :=
  nth i pts garbage.

Fixpoint store (i : nat) (p : HiggsFieldPoint) (pts : list HiggsFieldPoint)
  : list HiggsFieldPoint :=
  match pts, i with
  | [], _ => []
  | _ :: rest, O => p :: rest
  | q :: rest, S j => q :: store j p rest
  end.

(** The points the registry holds: slots [0 .. point_count - 1]. *)
Definition stored (f : HiggsField) : list HiggsFieldPoint :=
  firstn (point_count f) (points f).

Definition priorities (f : HiggsField) : list float :=
  map fuzzy_score (stored f).

(** Field assignments [field->points[i].x = v] and friends. *)
Definition set_points (pts : list HiggsFieldPoint) (f : HiggsField) :=
  mkField pts (point_count f) (tick_stack f) (coupling_factor f).
Definition set_count (n : nat) (f : HiggsField) :=
  mkField (points f) n (tick_stack f) (coupling_factor f).
Definition set_tick_stack (ts : MultivarTickStack) (f : HiggsField) :=
  mkField (points f) (point_count f) ts (coupling_factor f).
Definition set_coupling (c : float) (f : HiggsField) :=
  mkField (points f) (point_count f) (tick_stack f) c.

Definition assign (i : nat) (g : HiggsFieldPoint -> HiggsFieldPoint)
  (f : HiggsField) : HiggsField :=
  set_points (store i (g (slot (points f) i)) (points f)) f.

Definition with_field v p :=
  mkPoint v (energy p) (mass p) (fuzzy_score p) (is_interacting p) (insert_id p).
Definition with_energy v p :=
  mkPoint (field p) v (mass p) (fuzzy_score p) (is_interacting p) (insert_id p).
Definition with_mass v p :=
  mkPoint (field p) (energy p) v (fuzzy_score p) (is_interacting p) (insert_id p).
Definition with_score v p :=
  mkPoint (field p) (energy p) (mass p) v (is_interacting p) (insert_id p).
Definition with_interacting v p :=
  mkPoint (field p) (energy p) (mass p) (fuzzy_score p) v (insert_id p).
Definition with_id v p :=
  mkPoint (field p) (energy p) (mass p) (fuzzy_score p) (is_interacting p) v.

(** [strncpy(dst, src, n); dst[n] = '\0'], read back as a C string: the
    first [n] characters of [src]. *)
Fixpoint strncpy (n : nat) (src : string) : string :=
  match n, src with
  | S k, String c rest => String c (strncpy k rest)
  | _, _ => EmptyString
  end.

(** The two accumulation loops of [monitor_field_stability]. *)
Definition mean_energy (f : HiggsField) : float :=
  fold_left (fun acc p => acc + energy p) (stored f) 0
  / of_count (point_count f).

Definition energy_variance (f : HiggsField) : float :=
  let mean := mean_energy f in
  fold_left (fun acc p => let diff := energy p - mean in acc + diff * diff)
            (stored f) 0
  / of_count (point_count f).

(** [monitor_field_stability]. *)
Definition monitor_field_stability (f : HiggsField) : float :=
  if (point_count f =? 0)%nat then 1.0
  else if energy_variance f <? FIELD_STABILITY_THRESHOLD then 1.0 else 0.5.

(** The last line of [fuzzy_score_point]:
    [return score > THRESHOLD ? score : score * 0.8]. *)
Definition dampen (score : float) : float :=
  if score >? FUZZY_CONFIDENCE_THRESHOLD then score else score * 0.8.

(** [fuzzy_score_point]. *)
Definition fuzzy_score_point (p : HiggsFieldPoint) (f : HiggsField) : float :=
  let energy_factor :=
    energy p / (HIGGS_ENERGY_FACTOR * of_count HIGGS_FIELD_DIM) in
  let mass_factor := mass p / 2.0 in
  let stability_factor := monitor_field_stability f in
  let score := if energy_factor <? mass_factor then energy_factor
               else mass_factor in
  let score := if score <? stability_factor then score else stability_factor in
  dampen score.

(** One exchange of the insertion loop: [temp = p[i]; p[i] = p[i-1];
    p[i-1] = temp]. *)
Definition swap_down (i : nat) (pts : list HiggsFieldPoint) :=
  let temp := slot pts i in
  let pts := store i (slot pts (i - 1)) pts in
  store (i - 1) temp pts.

(** [for (i = index; i > 0 && p[i].fuzzy_score > p[i-1].fuzzy_score; i--)]. *)
Fixpoint sort_loop (i : nat) (pts : list HiggsFieldPoint) :=
  match i with
  | O => pts
  | S j =>
      if fuzzy_score (slot pts i) >? fuzzy_score (slot pts j)
      then sort_loop j (swap_down i pts)
      else pts
  end.

(** [TICK_STACK_XFORM], in its portable definition [result = val + 4]. *)
Definition TICK_STACK_XFORM (val : float) : float := val + 4.

Section WithTickStack.

Context {ops : TickStackOps}.

(** [init_higgs_field] on the memory [mem] of the structure. The function
    leaves the slots of [points] as they are. A failed allocation ends the
    process and is not a state of the model. *)
Definition init_higgs_field (mem : HiggsField) : HiggsField :=
  mkField (points mem) 0 init_multivar_tickstack HIGGS_COUPLING_BASE.

(** [add_higgs_point]. A null [coords] or [insert_id] is [None]; [field]
    itself is never null here. The result is the registry after the call
    and the lines sent to [report_error]. *)
Definition add_higgs_point (f : HiggsField) (coords : option (list float))
  (m : float) (id : option string) : HiggsField * list string :=
  match coords, id with
  | Some coords, Some id =>
    if (HIGGS_FIELD_SIZE <=? point_count f)%nat then
      (f, ["Invalid input in add_higgs_point"%string])
    else
      let index := point_count f in
      let f := set_count (S index) f in
      let f := assign index (with_field (firstn HIGGS_FIELD_DIM coords)) f in
      let mag := vector_magnitude coords in
      if isnan mag || isinf mag then
        (set_count (point_count f - 1) f,
         ["Invalid magnitude in add_higgs_point"%string])
      else
        let f := assign index (with_energy (mag * HIGGS_ENERGY_FACTOR)) f in
        let f := assign index (with_mass m) f in
        let f := assign index (with_interacting 1) f in
        let f := assign index
                   (with_score (fuzzy_score_point (slot (points f) index) f)) f in
        let f := assign index (with_id (strncpy 31 id)) f in
        let f := set_tick_stack (PUSH_LITERAL (tick_stack f) coords) f in
        (set_points (sort_loop index (points f)) f, [])
  | _, _ => (f, ["Invalid input in add_higgs_point"%string])
  end.

(** The body of the loop of [higgs_interaction] for index [i]. [None] is
    the read of [delta_topology[0]] in a topology without records. *)
Definition interact_point (i : nat) (st : HiggsField * list string)
  : option (HiggsField * list string) :=
  let (f, out) := st in
  if fuzzy_score (slot (points f) i) <? FUZZY_CONFIDENCE_THRESHOLD then Some st
  else
    match delta_topology (tick_stack f) with
    | [] => None
    | anchor :: _ =>
        let delta := magnitude anchor in
        let harmonic := harmonic_factor anchor in
        if isnan delta || isinf delta || isnan harmonic || isinf harmonic then
          Some (f, out ++ ["Numerical instability in higgs_interaction"%string])
        else
          let f := assign i (fun p =>
                     with_energy (energy p * (1.0 + coupling_factor f * delta)) p) f in
          let f := assign i (fun p =>
                     with_mass (mass p * (1.0 + coupling_factor f * harmonic)) p) f in
          let xform_result := TICK_STACK_XFORM 4 in
          Some (set_tick_stack (X_MULTIVAR (tick_stack f) xform_result) f, out)
    end.

(** [for (i = 0; i < point_count; i++)]: [n] iterations from index [i]. *)
Fixpoint interaction_loop (n i : nat) (st : HiggsField * list string)
  : option (HiggsField * list string) :=
  match n with
  | O => Some st
  | S k =>
      match interact_point i st with
      | Some st' => interaction_loop k (S i) st'
      | None => None
      end
  end.

(** [higgs_interaction]. *)
Definition higgs_interaction (f : HiggsField)
  : option (HiggsField * list string) :=
  if (point_count f <? 2)%nat then
    Some (f, ["Invalid field or insufficient points in higgs_interaction"%string])
  else
    let f := set_coupling (HIGGS_COUPLING_BASE * monitor_field_stability f) f in
    let f := set_tick_stack (compute_multivar_delta_topology (tick_stack f)) f in
    interaction_loop (point_count f) 0 (f, []).

(** One call of [add_higgs_point], as data. *)
Record insert_call := mkCall {
  call_coords : option (list float);
  call_mass : float;
  call_id : option string
}.

Definition insert (f : HiggsField) (c : insert_call) : HiggsField :=
  fst (add_higgs_point f (call_coords c) (call_mass c) (call_id c)).

(** A call that passes both guards of [add_higgs_point] when there is
    room. *)
Definition well_formed_call (c : insert_call) : bool :=
  match call_coords c, call_id c with
  | Some v, Some _ =>
      negb (isnan (vector_magnitude v) || isinf (vector_magnitude v))
  | _, _ => false
  end.

Definition insert_all (f : HiggsField) (calls : list insert_call) : HiggsField :=
  fold_left insert calls f.

(** The registries a program gets from [init_higgs_field] by calls of
    [add_higgs_point] that satisfy [allowed] and by calls of
    [higgs_interaction]. *)
Inductive reachable_by (allowed : insert_call -> Prop) : HiggsField -> Prop :=
| reach_init mem :
    length (points mem) = HIGGS_FIELD_SIZE ->
    reachable_by allowed (init_higgs_field mem)
| reach_add f c :
    reachable_by allowed f -> allowed c -> reachable_by allowed (insert f c)
| reach_step f f' out :
    reachable_by allowed f -> higgs_interaction f = Some (f', out) ->
    reachable_by allowed f'.

Definition reachable : HiggsField -> Prop := reachable_by (fun _ => True).

(** *** Notions used to state what the functions do *)

(** The registry as [fuzzy_score_point] sees it inside [add_higgs_point]:
    the new slot is counted and filled up to [is_interacting]. *)
Definition scoring_view (f : HiggsField) (coords : list float) (m : float)
  : HiggsField :=
  let index := point_count f in
  let f := set_count (S index) f in
  let f := assign index (with_field (firstn HIGGS_FIELD_DIM coords)) f in
  let f := assign index
             (with_energy (vector_magnitude coords * HIGGS_ENERGY_FACTOR)) f in
  let f := assign index (with_mass m) f in
  assign index (with_interacting 1) f.

(** The point that [add_higgs_point] has built in slot [point_count] when
    its sort loop starts. *)
Definition new_point (f : HiggsField) (coords : list float) (m : float)
  (id : string) : HiggsFieldPoint :=
  let g := scoring_view f coords m in
  mkPoint (firstn HIGGS_FIELD_DIM coords)
          (vector_magnitude coords * HIGGS_ENERGY_FACTOR) m
          (fuzzy_score_point (slot (points g) (point_count f)) g) 1
          (strncpy 31 id).

Definition finite_magnitude (coords : list float) : Prop :=
  isnan (vector_magnitude coords) || isinf (vector_magnitude coords) = false.

Definition has_room (f : HiggsField) : Prop :=
  length (points f) = HIGGS_FIELD_SIZE /\
  (point_count f < HIGGS_FIELD_SIZE)%nat.

End WithTickStack.

(** The guard of [higgs_interaction] on the anchor record. *)
Definition anchor_unusable (a : MultivarDeltaTopology) : bool :=
  isnan (magnitude a) || isinf (magnitude a)
  || isnan (harmonic_factor a) || isinf (harmonic_factor a).

(** What one interaction with coupling [c] and anchor [a] makes of a
    point. *)
Definition coupled (c : float) (a : MultivarDeltaTopology)
  (p : HiggsFieldPoint) : HiggsFieldPoint :=
  if fuzzy_score p <? FUZZY_CONFIDENCE_THRESHOLD then p
  else if anchor_unusable a then p
  else with_mass (mass p * (1.0 + c * harmonic_factor a))
         (with_energy (energy p * (1.0 + c * magnitude a)) p).

(** The lines one interaction with anchor [a] reports over the points [l]:
    one for each point at or above the threshold when the anchor fails the
    guard. *)
Definition instability_reports (a : MultivarDeltaTopology)
  (l : list HiggsFieldPoint) : list string :=
  flat_map (fun p =>
    if fuzzy_score p <? FUZZY_CONFIDENCE_THRESHOLD then []
    else if anchor_unusable a
         then ["Numerical instability in higgs_interaction"%string]
         else []) l.

(** What an interaction never touches: the priorities, the size of the
    array, the count and, once set, the coupling factor. *)
Definition same_frame (f f' : HiggsField) : Prop :=
  map fuzzy_score (points f') = map fuzzy_score (points f) /\
  length (points f') = length (points f) /\
  point_count f' = point_count f /\
  coupling_factor f' = coupling_factor f.

(** Where the insertion loop leaves the new point [x] that starts behind
    the points [l]: after the first [k] of them, every point it passed
    having a strictly smaller score, and the point it stopped at not. *)
Record placed (x : HiggsFieldPoint) (l : list HiggsFieldPoint) (k : nat)
  : Prop := {
  placed_le : (k <= length l)%nat;
  placed_passed :
    Forall (fun a => (fuzzy_score x >? fuzzy_score a) = true) (skipn k l);
  placed_stop :
    k = 0%nat \/
    exists b, nth_error l (k - 1) = Some b /\
              (fuzzy_score x >? fuzzy_score b) = false
}.

(** The values of a sequence read from index 0 upward never increase. *)
Definition non_increasing (l : list float) : Prop :=
  forall i j x y, (i < j)%nat ->
    nth_error l i = Some x -> nth_error l j = Some y -> (y <=? x) = true.

(** The same, as a sorted list. *)
Definition descending (l : list float) : Prop :=
  StronglySorted (fun x y => (y <=? x) = true) l.

(** The invariant of the registry. *)
Record registry_ok (f : HiggsField) : Prop := {
  ok_length : length (points f) = HIGGS_FIELD_SIZE;
  ok_count : (point_count f <= HIGGS_FIELD_SIZE)%nat;
  ok_sorted : descending (priorities f);
  ok_numbers : Forall number (priorities f)
}.

(** How a call [c] of [add_higgs_point] takes the registry [f] to [f']:
    it is turned down and the points stay, or it puts one new point in its
    place among them. *)
Inductive insert_outcome {ops : TickStackOps} (f : HiggsField)
  (c : insert_call) (f' : HiggsField) : Prop :=
| turned_down :
    stored f' = stored f ->
    point_count f' = point_count f ->
    length (points f') = length (points f) ->
    tick_stack f' = tick_stack f ->
    coupling_factor f' = coupling_factor f ->
    insert_outcome f c f'
| taken_in coords m id k :
    c = mkCall (Some coords) m (Some id) ->
    has_room f -> finite_magnitude coords ->
    placed (new_point f coords m id) (stored f) k ->
    stored f' = firstn k (stored f) ++ new_point f coords m id
                  :: skipn k (stored f) ->
    point_count f' = S (point_count f) ->
    length (points f') = length (points f) ->
    tick_stack f' = PUSH_LITERAL (tick_stack f) coords ->
    coupling_factor f' = coupling_factor f ->
    insert_outcome f c f'.

End HiggsKing.

(* ================================================================== *)
(** ** Sample data *)

Module Examples.

Import Double TickStack11d HiggsKing.
Open Scope float_scope.

#[local] Existing Instance SpecTickStack.reference.

(** The memory of a [HiggsField] before [init_higgs_field]: 100 slots, the
    other fields not yet meaningful. *)
Definition blank : HiggsField :=
  mkField (repeat garbage HIGGS_FIELD_SIZE) 7 (mkTickStack [] [] 0) 0.

Definition fresh : HiggsField := init_higgs_field blank.

(** The two points of the demo in [main]. *)
Definition coords1 : list float :=
  [10; -10; 10; -10; 10; -10; 10; -10; 10; -10; 10].
Definition coords2 : list float := map PrimFloat.opp coords1.

Definition point1 : insert_call := mkCall (Some coords1) 1.0 (Some "point1"%string).
Definition point2 : insert_call := mkCall (Some coords2) 2.0 (Some "point2"%string).

Definition demo : HiggsField := insert_all fresh [point1; point2].

(** The record of the pair of literals of the demo. *)
Definition demo_anchor : MultivarDeltaTopology :=
  SpecTickStack.delta_record
    (fun d => fold_left (fun acc x => acc + x) d 0 * TICKSTACK_THIRD)
    (fun m => m * TICKSTACK_PHI) coords1 coords2.

(** A registry with one point. *)
Definition single : HiggsField := insert fresh point1.

(** A point of mass 2.0 at distance [r] along axis [k]. *)
Definition axis (k : nat) (r : float) : list float :=
  repeat 0 k ++ r :: repeat 0 (10 - k).
Definition heavy (k : nat) (r : float) (id : string) : insert_call :=
  mkCall (Some (axis k r)) 2.0 (Some id).

(** Three points with equal energies, and the same registry with a fourth
    point a hundred times further out. *)
Definition calm : HiggsField :=
  insert_all fresh [heavy 0 11 "a"%string; heavy 1 11 "b"%string;
                    heavy 2 11 "c"%string].
Definition disturbed : HiggsField := insert calm (heavy 3 1100 "d"%string).

(** 101 calls, all with a finite magnitude and non-null arguments. *)
Definition crowd : list insert_call :=
  map (fun k => heavy (k mod 11) (of_count (S k)) "p"%string) (seq 0 101).

(** A 40-character tag. *)
Definition long_tag : string :=
  "0123456789012345678901234567890123456789"%string.

(** Two heavy points far from the origin and from each other, and the
    registry after two interactions: energies are large but finite. *)
Definition far1 : insert_call := heavy 0 1e100 "far1"%string.
Definition far2 : insert_call := heavy 0 (-1e100) "far2"%string.

Definition step (f : HiggsField) : HiggsField :=
  match higgs_interaction f with
  | Some (f', _) => f'
  | None => f
  end.

Definition far_pair : HiggsField := insert_all fresh [far1; far2].
Definition far_pair_twice : HiggsField := step (step far_pair).
Definition far_pair_thrice : HiggsField := step far_pair_twice.

(** A call with a negative mass, and one with an empty tag. *)
Definition negative_mass : insert_call :=
  mkCall (Some coords1) (-1.0) (Some "antimatter"%string).
Definition empty_tag : insert_call :=
  mkCall (Some coords1) 1.0 (Some ""%string).

(** A call whose combined score is the threshold itself: 1.4 / 2.0 is the
    double 0.7, below the energy factor and the stability. *)
Definition threshold_mass : insert_call :=
  mkCall (Some coords1) 1.4 (Some "edge"%string).

Definition insert_empty_tag : HiggsField := insert fresh empty_tag.
Definition insert_negative_mass : HiggsField := insert fresh negative_mass.

(** A free stack with 922 pending frees of 2048 bytes each. *)
Definition crowded_stack : FreeAll.state :=
  FreeAll.submit_many 922 2048 2 FreeAll.empty.

End Examples.

(* ================================================================== *)
(** ** More classes of doubles *)

Module DoubleClasses.

(** A NaN or an infinity. *)
Definition not_finite (x : spec_float) : bool :=
  match x with
  | S754_nan | S754_infinity _ => true
  | _ => false
  end.

(** A NaN or plus infinity. *)
Definition nan_or_plus_infinity (x : spec_float) : bool :=
  match x with
  | S754_nan | S754_infinity false => true
  | _ => false
  end.

(** A zero or a positive value, finite or not. *)
Definition unsigned (x : spec_float) : bool :=
  match x with
  | S754_zero false | S754_infinity false | S754_finite false _ _ => true
  | _ => false
  end.

(** The double [2^k] for [k] at most 0, and the doubles 0.7 and 0.8. *)
Definition pow2_sf (k : Z) : spec_float :=
  S754_finite false 4503599627370496 (k - 52).
Definition sf_07 : spec_float := S754_finite false 6305039478318694 (-53).
Definition sf_08 : spec_float := S754_finite false 7205759403792794 (-53).

End DoubleClasses.

(* ================================================================== *)
(** ** The stability of the specification *)

(** Written from the words of the specification (section 4.3), to be
    compared with [monitor_field_stability]: "computes the variance of
    energy across all stored points; returns 1.0 (stable) if variance is
    below a fixed tolerance, else 0.5 (unstable)". The variance is the mean
    of the squared deviations from the mean, here in double arithmetic
    with the energies added in the order of the slots. *)
Module SpecStability.

Import Double.
Open Scope float_scope.

Definition sum (l : list float) : float := fold_left PrimFloat.add l 0.

Definition mean (l : list float) : float := sum l / of_count (length l).

Definition variance (l : list float) : float :=
  sum (map (fun e => (e - mean l) * (e - mean l)) l) / of_count (length l).

Definition tolerance : float := 1e-6.

Definition stability (l : list float) : float :=
  if variance l <? tolerance then 1.0 else 0.5.

End SpecStability.

(* ================================================================== *)
(** ** free_all.h: the entry points in front of [tick_push] *)

Module FreeAllApi.

Import Double FreeAll.
Open Scope Z_scope.

(** The answers of the calls of [malloc] still to come, in order; when
    the list is used up every further [malloc] succeeds. *)
Definition heap := list bool.

(** The process as the entry points see it: the heap's answers and the
    state of the free stack. *)
Definition world : Type := heap * state.

Definition all_succeed (h : heap) : Prop := forallb (fun ok => ok) h = true.

(** One call of [tick_push]. [malloc] is called, and its answer used up,
    only behind the first guard. *)
Definition push (p : pointer) (sz rc : Z) (w : world) : world :=
  let (h, st) := w in
  if (p =? NULL) || (MAX_TICK_STACK <=? tick_count st)%nat then
    (h, tick_push true p sz rc st)
  else
    match h with
    | [] => ([], tick_push true p sz rc st)
    | ok :: h' => (h', tick_push ok p sz rc st)
    end.

(** A function of the state alone, as a step of the process. *)
Definition on_state (g : state -> state) (w : world) : world :=
  (fst w, g (snd w)).

(** Arithmetic in [size_t] (64 bits) and the conversion of a [size_t] to
    [int] (32 bits, two's complement) that passing [rows] as a
    [ref_count] makes. *)
Definition size_t (n : Z) : Z := n mod 2 ^ 64.
Definition int (n : Z) : Z := (n + 2 ^ 31) mod 2 ^ 32 - 2 ^ 31.

(** [for (i = 0; i < n; i++) body]. *)
Definition for_each (n : nat) (body : nat -> world -> world) (w : world)
  : world :=
  fold_left (fun w i => body i w) (seq 0 n) w.

(** The addresses a stack holds, first to be freed first. *)
Definition pending (st : state) : list pointer := map ptr (tick_stack st).

Definition nonnull (p : pointer) : bool := negb (p =? NULL).

(** The score [tick_push] stores with an entry. *)
Definition pushed_score (st : state) (p : pointer) (sz rc : Z) : float :=
  penalize (fuzzy_score_ptr st p sz rc).

(** The same score as a function of the pressure level, of the reference
    factor and of the size. *)
Definition score_at (pressure ref_factor : float) (sz : Z) : float :=
  let size_factor :=
    if sz >? 1024 then 0.9%float else (of_size sz / 1024.0)%float in
  let score :=
    if (size_factor <? ref_factor)%float then size_factor else ref_factor in
  let score := if (score <? pressure)%float then score else pressure in
  penalize score.

Definition ref_factor_of (rc : Z) : float :=
  if rc >? 1 then 0.7%float else 0.3%float.

(** The states of the free stack a program gets from the empty stack by
    calls of [tick_push], [tick_cascade] and [free_all_tickstack] and by
    writing lines of output. *)
Inductive reachable : state -> Prop :=
| reach_start fr out : reachable (mkState [] 0 fr out)
| reach_push ok p sz rc st :
    reachable st -> reachable (tick_push ok p sz rc st)
| reach_cascade st : reachable st -> reachable (tick_cascade st)
| reach_sweep st : reachable st -> reachable (free_all_tickstack st)
| reach_say msg st : reachable st -> reachable (say msg st).

(** The first address on top, the others behind it, the newest first. *)
Definition first_then_newest (l : list pointer) : list pointer :=
  match l with
  | [] => []
  | p :: ps => p :: rev ps
  end.

(** The invariant of the free stack. *)
Record stack_ok (st : state) : Prop := {
  stack_count : tick_count st = length (tick_stack st);
  stack_room : (tick_count st <= MAX_TICK_STACK)%nat;
  stack_ptrs : Forall (fun t => ptr t <> NULL) (tick_stack st);
  stack_sorted :
    HiggsKing.descending (map fuzzy_score (tick_stack st));
  stack_numbers : Forall number (map fuzzy_score (tick_stack st))
}.

(** [w'] comes from [w] by queueing the addresses [added], in this order,
    and writing the lines [printed]: every [malloc] so far and to come
    succeeds and nothing is freed. *)
Record queued (w w' : world) (added : list pointer) (printed : list string)
  : Prop := {
  queued_heap : all_succeed (fst w');
  queued_count :
    tick_count (snd w') = (tick_count (snd w) + length added)%nat;
  queued_pending :
    Permutation (pending (snd w')) (rev added ++ pending (snd w));
  queued_freed : freed (snd w') = freed (snd w);
  queued_output : output (snd w') = output (snd w) ++ printed
}.

Section Layout.

(** [sizeof(void * )], which is also [sizeof(void ** )], and
    [sizeof(FreeNode)]: 8 and 16 on an LP64 target. *)
Variable sizeof_pointer : Z.
Variable sizeof_FreeNode : Z.

(** Memory as the entry points read it: [load a i] is the pointer in cell
    [i] of the array of pointers at address [a]. None of them writes
    memory. *)
Variable load : pointer -> nat -> pointer.

(** What [printf] makes of a [%p] argument. *)
Variable render_pointer : pointer -> string.

(** [free_1d]. *)
Definition free_1d (arr : pointer) (sz : Z) (w : world) : world :=
  if arr =? NULL then w else push arr sz 1 w.

(** [free_2d]. *)
Definition free_2d (arr : pointer) (rows : nat) (row_size : Z) (w : world)
  : world :=
  if arr =? NULL then w
  else
    let w := for_each rows (fun i w =>
               if load arr i =? NULL then w
               else push (load arr i) row_size 1 w) w in
    push arr (size_t (Z.of_nat rows * sizeof_pointer)) (int (Z.of_nat rows)) w.

(** [free_3d]. *)
Definition free_3d (arr : pointer) (rows cols : nat) (col_size : Z)
  (w : world) : world :=
  if arr =? NULL then w
  else
    let w := for_each rows (fun i w =>
               if load arr i =? NULL then w
               else
                 let w := for_each cols (fun j w =>
                            if load (load arr i) j =? NULL then w
                            else push (load (load arr i) j) col_size 1 w) w in
                 push (load arr i) (size_t (Z.of_nat cols * sizeof_pointer))
                      (int (Z.of_nat cols)) w) w in
    push arr (size_t (Z.of_nat rows * sizeof_pointer)) (int (Z.of_nat rows)) w.

(** [free_list] on the chain that starts at [head], given as the address
    and the payload of each of its nodes up to the null link. The walk
    ends at a null address. A chain that runs in a circle, on which the
    loop of the source does not end, is not a value of this type. *)
Fixpoint free_list (chain : list (pointer * pointer)) (w : world) : world :=
  match chain with
  | [] => w
  | (cur, payload) :: next =>
      if cur =? NULL then w
      else
        let w := if payload =? NULL then w
                 else push payload sizeof_pointer 1 w in
        free_list next (push cur sizeof_FreeNode 1 w)
  end.

(** [shoot_over_free]; [insert_id] is a string, not a null pointer. *)
Definition shoot_over_free (p : pointer) (sz : Z) (insert_id : string)
  (w : world) : world :=
  if p =? NULL then w
  else
    on_state
      (say ("/* FREE_ALL: Injected free for " ++ insert_id ++ " at "
            ++ render_pointer p ++ " */"))
      (push p sz 1 w).

(** The calls a client of the header makes, as data. *)
Inductive request :=
| Free1d (arr : pointer) (sz : Z)
| Free2d (arr : pointer) (rows : nat) (row_size : Z)
| Free3d (arr : pointer) (rows cols : nat) (col_size : Z)
| FreeList (chain : list (pointer * pointer))
| ShootOverFree (p : pointer) (sz : Z) (insert_id : string)
| FreeAllTickstack.

Definition serve (w : world) (r : request) : world :=
  match r with
  | Free1d arr sz => free_1d arr sz w
  | Free2d arr rows row_size => free_2d arr rows row_size w
  | Free3d arr rows cols col_size => free_3d arr rows cols col_size w
  | FreeList chain => free_list chain w
  | ShootOverFree p sz insert_id => shoot_over_free p sz insert_id w
  | FreeAllTickstack => on_state free_all_tickstack w
  end.

Definition serve_all (rs : list request) (w : world) : world :=
  fold_left serve rs w.

(** The cells [0 .. rows - 1] of the array at [arr] that hold a pointer. *)
Definition rows_of (arr : pointer) (rows : nat) : list pointer :=
  filter nonnull (map (load arr) (seq 0 rows)).

(** The nodes [free_list] visits, and what it submits for one node. *)
Fixpoint visited (chain : list (pointer * pointer))
  : list (pointer * pointer) :=
  match chain with
  | [] => []
  | (cur, payload) :: next =>
      if cur =? NULL then [] else (cur, payload) :: visited next
  end.

Definition node_submissions (node : pointer * pointer) : list pointer :=
  if snd node =? NULL then [fst node] else [snd node; fst node].

(** The addresses a call hands to [tick_push], in the order of the
    calls. *)
Definition submissions (r : request) : list pointer :=
  match r with
  | Free1d arr _ => if arr =? NULL then [] else [arr]
  | Free2d arr rows _ =>
      if arr =? NULL then [] else rows_of arr rows ++ [arr]
  | Free3d arr rows cols _ =>
      if arr =? NULL then []
      else flat_map (fun i =>
             if load arr i =? NULL then []
             else rows_of (load arr i) cols ++ [load arr i]) (seq 0 rows)
           ++ [arr]
  | FreeList chain => flat_map node_submissions (visited chain)
  | ShootOverFree p _ _ => if p =? NULL then [] else [p]
  | FreeAllTickstack => []
  end.

(** The lines a call writes when [tick_push] refuses none of its
    submissions. *)
Definition printed (r : request) : list string :=
  match r with
  | ShootOverFree p _ insert_id =>
      if p =? NULL then []
      else ["/* FREE_ALL: Injected free for " ++ insert_id ++ " at "
            ++ render_pointer p ++ " */"]%string
  | FreeAllTickstack =>
      ["FREE_ALL: Low memory pressure, deferring cascade"%string]
  | _ => []
  end.

End Layout.

End FreeAllApi.

(* ================================================================== *)
(** ** higgs_king.h: [shoot_over_higgs] *)

Module HiggsKingApi.

Import Double FreeAll FreeAllApi HiggsKing.
Open Scope Z_scope.

Section Layout.

(** [sizeof(HiggsFieldPoint)]. *)
Variable sizeof_HiggsFieldPoint : Z.

(** What [printf] makes of a [%p] and of a [%.4f] argument. *)
Variable render_pointer : pointer -> string.
Variable render_double : float -> string.

(** [&field->points[i]] for the registry at address [base]; [points] is
    the first member. *)
Definition point_address (base : pointer) (i : nat) : pointer :=
  base + Z.of_nat i * sizeof_HiggsFieldPoint.

(** The test of the loop of [shoot_over_higgs]:
    [strcmp(p.insert_id, insert_id) == 0 && p.is_interacting]. *)
Definition matches (id : string) (p : HiggsFieldPoint) : bool :=
  String.eqb (insert_id p) id && negb (is_interacting p =? 0).

Definition result_line (id : string) (p : HiggsFieldPoint) : string :=
  "/* HIGGS: Injected result for " ++ id ++ ": Energy="
  ++ render_double (energy p) ++ ", Mass=" ++ render_double (mass p) ++ " */".

(** The body of the loop for index [i]. *)
Definition shoot_point (base : pointer) (f : HiggsField) (id : string)
  (i : nat) (w : world) : world :=
  let p := slot (points f) i in
  if matches id p then
    shoot_over_free render_pointer (point_address base i)
      sizeof_HiggsFieldPoint id (on_state (say (result_line id p)) w)
  else w.

(** [shoot_over_higgs] on the registry [f] at address [base]. A null
    [field] is [base = NULL]; a null [insert_id] is [None]. The registry
    is only read. *)
Definition shoot_over_higgs (base : pointer) (f : HiggsField)
  (id : option string) (w : world) : world :=
  match id with
  | Some id =>
      if base =? NULL then
        on_state (say "Invalid input in shoot_over_higgs") w
      else for_each (point_count f) (shoot_point base f id) w
  | None => on_state (say "Invalid input in shoot_over_higgs") w
  end.

(** The indices of the stored points that [shoot_over_higgs] selects. *)
Definition selected (f : HiggsField) (id : string) : list nat :=
  filter (fun i => matches id (slot (points f) i)) (seq 0 (point_count f)).

End Layout.

(** The score of [fuzzy_score_point] before its last line makes of it
    [score > THRESHOLD ? score : score * 0.8]. *)
Definition raw_score (p : HiggsFieldPoint) (f : HiggsField) : float :=
  let energy_factor :=
    (energy p / (HIGGS_ENERGY_FACTOR * of_count HIGGS_FIELD_DIM))%float in
  let mass_factor := (mass p / 2.0)%float in
  let stability_factor := monitor_field_stability f in
  let score := if (energy_factor <? mass_factor)%float then energy_factor
               else mass_factor in
  if (score <? stability_factor)%float then score else stability_factor.

(** What an interaction leaves of a point: everything but the energy and
    the mass. *)
Definition frame_of (p : HiggsFieldPoint) :=
  (field p, fuzzy_score p, is_interacting p, insert_id p).

(** The shape [add_higgs_point] gives a point and no function changes:
    at most 11 coordinates, the flag set, a tag of at most 31
    characters. *)
Definition well_shaped (p : HiggsFieldPoint) : Prop :=
  (length (field p) <= HIGGS_FIELD_DIM)%nat /\
  is_interacting p = 1 /\
  (String.length (insert_id p) <= 31)%nat.

End HiggsKingApi.

(* ================================================================== *)
(** ** More sample data *)

Module MoreExamples.

Import Double FreeAll FreeAllApi HiggsKing HiggsKingApi.
Open Scope Z_scope.

#[local] Existing Instance SpecTickStack.reference.

(** The block at address 7, of 64 bytes, submitted twice. *)
Definition twice_submitted : state :=
  tick_push true 7 64 1 (tick_push true 7 64 1 empty).


(** An array of three rows at address 1000, the middle one null, and a
    chain of two nodes, the second without payload. *)
Definition load (a : pointer) (i : nat) : pointer :=
  if a =? 1000 then nth i [1100; 0; 1300] 0 else 0.

Definition chain : list (pointer * pointer) := [(2000, 2100); (2200, 0)].

(** The examples do not depend on what [printf] makes of a pointer or of
    a double. *)
Definition render_pointer (p : pointer) : string := "<pointer>".
Definition render_double (x : float) : string := "<double>".

(** Five calls, with the sizes of an LP64 target: they submit the rows
    1100 and 1300 and the array 1000, the payload 2100 and the nodes 2000
    and 2200, and the block 5. *)
Definition requests : list request :=
  [Free2d 1000 3 64; FreeList chain; Free1d NULL 8;
   ShootOverFree 5 16 "x"; FreeAllTickstack].

Definition serve_requests (w : world) : world :=
  serve_all 8 16 load render_pointer requests w.

(** Three blocks of at least 308 bytes. *)
Definition large_blocks : list (pointer * Z) :=
  [(10, 400); (20, 4096); (30, 308)].

(** The registry of the demo with a third point, given a tag of 40
    characters, and the registry of the demo after an interaction. *)
Definition tagged : HiggsField :=
  insert Examples.demo
    (mkCall (Some Examples.coords1) 1.0 (Some Examples.long_tag)).

Definition demo_after_step : HiggsField := Examples.step Examples.demo.

(** Two points of mass 1.0: both priorities are dampened. *)
Definition quiet : HiggsField :=
  insert_all Examples.fresh
    [Examples.point1;
     mkCall (Some Examples.coords2) 1.0 (Some "light"%string)].

(** Three points at the distance 1e16 from the origin, along three axes:
    their energies are the same double. *)
Definition heavy_triple : HiggsField :=
  insert_all Examples.fresh
    [Examples.heavy 0 1e16 "a"%string; Examples.heavy 1 1e16 "b"%string;
     Examples.heavy 2 1e16 "c"%string].

(** The registry after the first 100 of the 101 calls of [Examples.crowd],
    and the last of these calls. *)
Definition full : HiggsField :=
  insert_all Examples.fresh (firstn 100 Examples.crowd).

Definition call_101 : insert_call := nth 100 Examples.crowd Examples.point1.

(** A point of the registry whose energies have overflowed. *)
Definition overflowed_point : HiggsFieldPoint :=
  slot (points Examples.far_pair_thrice) 0.

(** [shoot_over_higgs] for a registry at address 4096 whose points take
    152 bytes each. *)
Definition shoot (f : HiggsField) (id : string) (w : world) : world :=
  shoot_over_higgs 152 render_pointer render_double 4096 f (Some id) w.

End MoreExamples.

(* ================================================================== *)
(** ** Facts on doubles *)

Module DoubleFacts.

Import Double.
Open Scope float_scope.

Lemma Pcompare_cont_Eq m1 m2 : Pos.compare_cont Eq m1 m2 = Pos.compare m1 m2.
Proof. reflexivity. Qed.

Ltac cmp_cases :=
  repeat match goal with
  | |- context [Z.compare ?a ?b] => destruct (Z.compare_spec a b)
  | H : context [Z.compare ?a ?b] |- _ => destruct (Z.compare_spec a b)
  | |- context [Pos.compare_cont Eq ?a ?b] =>
      change (Pos.compare_cont Eq a b) with (Pos.compare a b);
      destruct (Pos.compare_spec a b)
  | H : context [Pos.compare_cont Eq ?a ?b] |- _ =>
      change (Pos.compare_cont Eq a b) with (Pos.compare a b) in H;
      destruct (Pos.compare_spec a b)
  end.

Lemma SFleb_trans x y z :
  SFleb x y = true -> SFleb y z = true -> SFleb x z = true.
Proof.
  unfold SFleb.
  destruct x as [[]|[]| |[] mx ex], y as [[]|[]| |[] my ey],
           z as [[]|[]| |[] mz ez]; simpl; try discriminate; try reflexivity;
    cmp_cases; simpl; try discriminate; try reflexivity; intros; exfalso; lia.
Qed.

Lemma SFltb_leb x y : SFltb x y = true -> SFleb x y = true.
Proof.
  unfold SFltb, SFleb. destruct (SFcompare x y) as [[]|]; congruence.
Qed.

Lemma SFcompare_swap x y :
  SFcompare y x = option_map CompOpp (SFcompare x y).
Proof.
  destruct x as [[]|[]| |[] mx ex], y as [[]|[]| |[] my ey]; simpl;
    try reflexivity; cmp_cases; simpl; try reflexivity; exfalso; lia.
Qed.

Lemma SFcompare_nan x y :
  SFcompare x y = None <-> is_nan_sf x = true \/ is_nan_sf y = true.
Proof.
  destruct x as [[]|[]| |[] mx ex], y as [[]|[]| |[] my ey]; simpl;
    intuition (try discriminate; auto).
Qed.

Lemma SFnot_ltb_leb x y :
  is_nan_sf x = false -> is_nan_sf y = false ->
  SFltb y x = false -> SFleb x y = true.
Proof.
  intros Hx Hy. unfold SFltb, SFleb. rewrite (SFcompare_swap x y).
  destruct (SFcompare x y) as [[]|] eqn:E; simpl; try congruence.
  apply SFcompare_nan in E. destruct E; congruence.
Qed.


(** *** Rounding keeps the sign and never invents a NaN *)

Lemma iter_pos_inv {A} (P : A -> Prop) (f : A -> A) :
  (forall x, P x -> P (f x)) -> forall n x, P x -> P (iter_pos f n x).
Proof.
  intros Hf. induction n as [n IH|n IH|]; simpl; intros x Hx; auto.
Qed.

Lemma shr_1_nonneg r : (0 <= shr_m r)%Z -> (0 <= shr_m (shr_1 r))%Z.
Proof.
  destruct r as [m r s]. destruct m as [|[p|p|]|p]; simpl; lia.
Qed.

Lemma shr_nonneg r e n : (0 <= shr_m r)%Z -> (0 <= shr_m (fst (shr r e n)))%Z.
Proof.
  intros H. destruct n; simpl; auto.
  apply (iter_pos_inv (fun x => 0 <= shr_m x)%Z); auto using shr_1_nonneg.
Qed.

Lemma shr_record_of_loc_m m l : shr_m (shr_record_of_loc m l) = m.
Proof. destruct l as [|[]]; reflexivity. Qed.

Lemma shr_fexp_nonneg p em m e l :
  (0 <= m)%Z -> (0 <= shr_m (fst (shr_fexp p em m e l)))%Z.
Proof.
  intros H. unfold shr_fexp. apply shr_nonneg.
  now rewrite shr_record_of_loc_m.
Qed.

Lemma round_nearest_even_nonneg m l :
  (0 <= m)%Z -> (0 <= round_nearest_even m l)%Z.
Proof.
  intros H. destruct l as [|[]]; simpl; try lia.
  destruct (Z.even m); lia.
Qed.

Lemma binary_round_aux_signed p em s m e l :
  (0 <= m)%Z -> signed s (binary_round_aux p em s m e l).
Proof.
  intros H. unfold binary_round_aux.
  pose proof (shr_fexp_nonneg p em m e l H) as H1.
  destruct (shr_fexp p em m e l) as [mrs' e']. simpl in H1.
  pose proof (shr_fexp_nonneg p em _ e' loc_Exact
                (round_nearest_even_nonneg _ (loc_of_shr_record mrs') H1)) as H2.
  destruct (shr_fexp p em _ e' loc_Exact) as [mrs'' e'']. simpl in H2.
  destruct (shr_m mrs'') as [|q|q]; simpl; try lia; auto.
  destruct (e'' <=? em - p)%Z; simpl; auto.
Qed.

(** *** Classes of doubles *)

Lemma leb_trans a b c :
  (a <=? b) = true -> (b <=? c) = true -> (a <=? c) = true.
Proof. rewrite !FloatAxioms.leb_spec. apply SFleb_trans. Qed.

Lemma ltb_leb a b : (a <? b) = true -> (a <=? b) = true.
Proof. rewrite FloatAxioms.ltb_spec, FloatAxioms.leb_spec. apply SFltb_leb. Qed.

Lemma not_gtb_leb a b :
  number a -> number b -> (a >? b) = false -> (a <=? b) = true.
Proof.
  unfold gtb, number. rewrite FloatAxioms.ltb_spec, FloatAxioms.leb_spec. apply SFnot_ltb_leb.
Qed.

Lemma ltb_number_l a b : (a <? b) = true -> number a.
Proof.
  unfold number. rewrite FloatAxioms.ltb_spec. unfold SFltb.
  destruct (Prim2SF a); simpl; auto; discriminate.
Qed.

Lemma leb_refl a : number a -> (a <=? a) = true.
Proof.
  unfold number. rewrite FloatAxioms.leb_spec. unfold SFleb.
  destruct (Prim2SF a) as [[]|[]| |[] m e]; simpl; try discriminate; auto;
    rewrite Z.compare_refl;
    change (Pos.compare_cont Eq m m) with (Pos.compare m m);
    rewrite Pos.compare_refl; reflexivity.
Qed.

Lemma isnan_number x : isnan x = false <-> number x.
Proof.
  unfold isnan, number. rewrite FloatAxioms.eqb_spec. unfold SFeqb.
  destruct (Prim2SF x) as [[]|[]| |[] m e]; simpl; try tauto;
    rewrite Z.compare_refl;
    change (Pos.compare_cont Eq m m) with (Pos.compare m m);
    rewrite Pos.compare_refl; simpl; tauto.
Qed.

(** A product with a finite non-zero constant is a number when the other
    factor is. *)
Lemma mul_number x c s m e :
  Prim2SF c = S754_finite s m e -> number x -> number (x * c).
Proof.
  unfold number. intros Hc Hx. rewrite FloatAxioms.mul_spec, Hc. unfold SF64mul.
  destruct (Prim2SF x) as [sx|sx| |sx mx ex]; simpl in *; try discriminate; auto.
  pose proof (binary_round_aux_signed prec emax (xorb sx s)
                (Z.pos (mx * m)) (ex + e) loc_Exact) as H.
  destruct (binary_round_aux prec emax (xorb sx s) (Z.pos (mx * m)) (ex + e) loc_Exact);
    simpl in *; auto. exfalso; apply H; lia.
Qed.


(** *** Comparisons against a finite constant *)

Lemma SFcompare_Eq_finite X s m e :
  SFcompare X (S754_finite s m e) = Some Eq -> X = S754_finite s m e.
Proof.
  destruct X as [[]|[]| |[] mx ex], s; simpl; try discriminate;
    destruct (Z.compare_spec ex e); try discriminate;
    change (Pos.compare_cont Eq mx m) with (Pos.compare mx m);
    destruct (Pos.compare_spec mx m); try discriminate; intros _; congruence.
Qed.

Lemma eqb_finite x c s m e :
  Prim2SF c = S754_finite s m e -> (x =? c) = true -> x = c.
Proof.
  intros Hc. rewrite FloatAxioms.eqb_spec, Hc. unfold SFeqb.
  destruct (SFcompare (Prim2SF x) (S754_finite s m e)) as [[]|] eqn:E;
    try discriminate.
  intros _. apply Prim2SF_inj. rewrite Hc. now apply SFcompare_Eq_finite.
Qed.

Lemma ltb_asym a b : (a <? b) = true -> (b <? a) = false.
Proof.
  rewrite !FloatAxioms.ltb_spec. unfold SFltb.
  rewrite (SFcompare_swap (Prim2SF a) (Prim2SF b)).
  destruct (SFcompare (Prim2SF a) (Prim2SF b)) as [[]|]; simpl; congruence.
Qed.

Lemma ltb_not_eqb a b : (a <? b) = true -> (a =? b) = false.
Proof.
  rewrite FloatAxioms.ltb_spec, FloatAxioms.eqb_spec. unfold SFltb, SFeqb.
  destruct (SFcompare (Prim2SF a) (Prim2SF b)) as [[]|]; congruence.
Qed.

(** A double that is neither below, nor above, nor equal to a number is a
    NaN. *)
Lemma unordered_nan x c :
  number c -> (x <? c) = false -> (c <? x) = false -> (x =? c) = false ->
  Prim2SF x = S754_nan.
Proof.
  unfold number.
  rewrite !FloatAxioms.ltb_spec, FloatAxioms.eqb_spec. unfold SFltb, SFeqb.
  rewrite (SFcompare_swap (Prim2SF x) (Prim2SF c)).
  destruct (SFcompare (Prim2SF x) (Prim2SF c)) as [[]|] eqn:E; simpl;
    try discriminate.
  intros Hc _ _ _. apply SFcompare_nan in E. destruct E as [E|E]; [|congruence].
  destruct (Prim2SF x); simpl in E; try discriminate. reflexivity.
Qed.

Lemma nan_mul x c : Prim2SF x = S754_nan -> x * c = x.
Proof.
  intros H. apply Prim2SF_inj. rewrite FloatAxioms.mul_spec, H. reflexivity.
Qed.

End DoubleFacts.

(* ================================================================== *)
(** ** Rounding in binary64 *)

Module RoundingFacts.

Import Double DoubleFacts.

Local Open Scope Z_scope.

Lemma digits2_pos_bounds m :
  2 ^ (Z.pos (digits2_pos m) - 1) <= Z.pos m < 2 ^ Z.pos (digits2_pos m).
Proof.
  induction m as [m IH|m IH|]; cbn [digits2_pos].
  - rewrite Pos2Z.inj_succ. replace (Z.succ (Z.pos (digits2_pos m)) - 1)
      with (Z.succ (Z.pos (digits2_pos m) - 1)) by lia.
    rewrite !Z.pow_succ_r by lia. lia.
  - rewrite Pos2Z.inj_succ. replace (Z.succ (Z.pos (digits2_pos m)) - 1)
      with (Z.succ (Z.pos (digits2_pos m) - 1)) by lia.
    rewrite !Z.pow_succ_r by lia. lia.
  - cbn. lia.
Qed.

Lemma Zdigits2_bounds m :
  0 < m -> 2 ^ (Zdigits2 m - 1) <= m < 2 ^ Zdigits2 m /\ 1 <= Zdigits2 m.
Proof.
  destruct m as [|p|p]; try lia. intros _. cbn [Zdigits2].
  split; [apply digits2_pos_bounds|lia].
Qed.

(** A positive number below [2^k] has at most [k] binary digits. *)
Lemma Zdigits2_le m k : 0 < m -> 0 <= k -> m < 2 ^ k -> Zdigits2 m <= k.
Proof.
  intros Hm Hk Hlt. destruct (Zdigits2_bounds m Hm) as [[Hlo _] Hd].
  destruct (Z.le_gt_cases (Zdigits2 m) k) as [|Hgt]; auto. exfalso.
  assert (2 ^ k <= 2 ^ (Zdigits2 m - 1)) by (apply Z.pow_le_mono_r; lia).
  lia.
Qed.

Lemma shr_1_half r : 0 <= shr_m r -> shr_m (shr_1 r) = shr_m r / 2.
Proof.
  destruct r as [m r s]. cbn [shr_m]. intros H.
  rewrite <- Z.div2_div. destruct m as [|[p|p|]|p]; try lia; reflexivity.
Qed.

Lemma iter_shr_1 n : forall r,
  0 <= shr_m r -> shr_m (iter_pos shr_1 n r) = shr_m r / 2 ^ Z.pos n.
Proof.
  induction n as [n IH|n IH|]; intros r Hr; cbn [iter_pos].
  - assert (H1 : 0 <= shr_m (shr_1 r)) by now apply shr_1_nonneg.
    assert (H2 : 0 <= shr_m (iter_pos shr_1 n (shr_1 r))).
    { apply (iter_pos_inv (fun x => 0 <= shr_m x)); auto using shr_1_nonneg. }
    rewrite IH, IH, shr_1_half by auto.
    rewrite !Z.div_div by (try apply Z.pow_pos_nonneg; lia).
    f_equal. rewrite Pos2Z.inj_xI, <- Z.pow_add_r, <- Z.pow_succ_r by lia.
    f_equal. lia.
  - assert (H2 : 0 <= shr_m (iter_pos shr_1 n r)).
    { apply (iter_pos_inv (fun x => 0 <= shr_m x)); auto using shr_1_nonneg. }
    rewrite IH, IH by auto.
    rewrite !Z.div_div by (try apply Z.pow_pos_nonneg; lia).
    f_equal. rewrite Pos2Z.inj_xO, <- Z.pow_add_r by lia. f_equal. lia.
  - rewrite shr_1_half by auto. reflexivity.
Qed.

(** What [shr_fexp] does to a mantissa and its exponent in binary64. *)
Lemma shr_fexp_spec m e l :
  0 <= m ->
  let n := fexp prec emax (Zdigits2 m + e) - e in
  shr_m (fst (shr_fexp prec emax m e l)) = (if 0 <? n then m / 2 ^ n else m) /\
  snd (shr_fexp prec emax m e l) = (if 0 <? n then e + n else e).
Proof.
  intros Hm n. unfold shr_fexp. fold n. unfold shr.
  destruct n as [|p|p]; cbn [fst snd Z.ltb Z.compare];
    rewrite ?shr_record_of_loc_m; auto.
  split; auto. rewrite iter_shr_1; rewrite shr_record_of_loc_m; auto.
Qed.

Lemma round_nearest_even_bounds m l :
  m <= round_nearest_even m l <= m + 1.
Proof.
  destruct l as [|[]]; cbn; try lia. destruct (Z.even m); lia.
Qed.


(** Rounding a positive value below 1 never gives more than 1. *)
Lemma binary_round_aux_le_one M E :
  0 < M -> E <= -53 -> M < 2 ^ (- E) ->
  SFleb (binary_round_aux prec emax false M E loc_Exact) one_sf = true.
Proof.
  intros HM HE Hlt.
  destruct (Zdigits2_bounds M HM) as [[Hlo Hhi] Hd1].
  assert (HdE : Zdigits2 M + E <= 0).
  { pose proof (Zdigits2_le M (- E) HM ltac:(lia) Hlt). lia. }
  unfold binary_round_aux.
  destruct (shr_fexp_spec M E loc_Exact ltac:(lia)) as [S1m S1e].
  destruct (shr_fexp prec emax M E loc_Exact) as [r1 e1]. cbn [fst snd] in *.
  set (m1 := shr_m r1) in *.
  set (m2 := round_nearest_even m1 (loc_of_shr_record r1)).
  pose proof (round_nearest_even_bounds m1 (loc_of_shr_record r1)) as Hm2.
  fold m2 in Hm2.
  assert (P53 : 2 ^ 53 = 9007199254740992) by reflexivity.
  assert (P52 : 2 ^ 52 = 4503599627370496) by reflexivity.
  (* after the first shift: a mantissa below 2^53, an exponent of at most -53 *)
  assert (H1 : 0 <= m1 < 2 ^ 53 /\ e1 <= -53).
  { unfold fexp, emin, prec, emax in S1m, S1e.
    change IntDef.Z.max with Z.max in *.
    destruct (Z.ltb_spec 0 (Z.max (Zdigits2 M + E - 53) (3 - 1024 - 53) - E))
      as [Hn|Hn]; subst e1; rewrite S1m.
    - set (n := Z.max (Zdigits2 M + E - 53) (3 - 1024 - 53) - E) in *.
      assert (0 < 2 ^ n) by (apply Z.pow_pos_nonneg; lia).
      split; [split|lia].
      + apply Z.div_pos; lia.
      + apply Z.div_lt_upper_bound; auto. rewrite <- Z.pow_add_r by lia.
        assert (2 ^ Zdigits2 M <= 2 ^ (n + 53)) by (apply Z.pow_le_mono_r; lia).
        lia.
    - assert (2 ^ Zdigits2 M <= 2 ^ 53) by (apply Z.pow_le_mono_r; lia).
      lia. }
  destruct H1 as [Hm1 He1].
  assert (Hm2' : 0 <= m2 <= 2 ^ 53) by lia.
  destruct (shr_fexp_spec m2 e1 loc_Exact ltac:(lia)) as [S2m S2e].
  destruct (shr_fexp prec emax m2 e1 loc_Exact) as [r2 e2]. cbn [fst snd] in *.
  set (n2 := fexp prec emax (Zdigits2 m2 + e1) - e1) in *.
  assert (Hd2 : Zdigits2 m2 <= 54).
  { destruct (Z.eq_dec m2 0) as [->|]; [cbn; lia|].
    apply Zdigits2_le; lia. }
  assert (He2 : e2 <= -52 /\ (e2 = -52 -> shr_m r2 <= 2 ^ 52) /\ 0 <= shr_m r2).
  { unfold n2, fexp, emin, prec, emax in *.
    change IntDef.Z.max with Z.max in *.
    destruct (Z.ltb_spec 0 (Z.max (Zdigits2 m2 + e1 - 53) (3 - 1024 - 53) - e1))
      as [Hn|Hn]; subst e2; rewrite S2m.
    - set (n := Z.max (Zdigits2 m2 + e1 - 53) (3 - 1024 - 53) - e1) in *.
      assert (0 < 2 ^ n) by (apply Z.pow_pos_nonneg; lia).
      split; [lia|]. split; [intros _|apply Z.div_pos; lia].
      apply Z.div_le_upper_bound; auto.
      assert (2 ^ 1 <= 2 ^ n) by (apply Z.pow_le_mono_r; lia).
      change (2 ^ 1) with 2 in *. nia.
    - split; [lia|]. split; lia. }
  destruct He2 as (He2 & Hone & Hnn).
  destruct (shr_m r2) as [|m3|m3]; [reflexivity| |lia].
  unfold prec, emax. destruct (Z.leb_spec e2 (1024 - 53)) as [_|]; [|lia].
  unfold SFleb, one_sf. cbn [SFcompare].
  destruct (Z.compare_spec e2 (-52)) as [Heq|_|]; [|reflexivity|lia].
  rewrite Pcompare_cont_Eq.
  specialize (Hone Heq).
  destruct (Pos.compare_spec m3 4503599627370496); auto; lia.
Qed.

End RoundingFacts.

(* ================================================================== *)
(** ** Signs and bounds of products and quotients *)

Module SignFacts.

Import Double DoubleFacts RoundingFacts.
Open Scope float_scope.

Lemma signed_false_not_negative r : signed false r -> not_negative r.
Proof. destruct r; simpl; auto. Qed.

Lemma leb_zero x : (0 <=? x) = true <-> not_negative (Prim2SF x).
Proof.
  rewrite FloatAxioms.leb_spec. change (Prim2SF 0) with (S754_zero false).
  unfold SFleb. destruct (Prim2SF x) as [s|[]| |[] m e]; simpl;
    intuition (try discriminate; auto).
Qed.

Lemma ltb_zero x :
  (x <? 0) = false <-> Prim2SF x = S754_nan \/ not_negative (Prim2SF x).
Proof.
  rewrite FloatAxioms.ltb_spec. change (Prim2SF 0) with (S754_zero false).
  unfold SFltb. destruct (Prim2SF x) as [s|[]| |[] m e]; simpl;
    intuition (try discriminate; auto).
Qed.

Lemma SFmul_not_negative X m e :
  not_negative X -> not_negative (SF64mul X (S754_finite false m e)).
Proof.
  destruct X as [s|s| |s mx ex]; simpl; intros H; auto; subst; auto.
  apply signed_false_not_negative, binary_round_aux_signed. lia.
Qed.

Lemma SFdiv_core_nonneg m1 e1 m2 e2 :
  (0 <= fst (fst (SFdiv_core_binary prec emax (Z.pos m1) e1 (Z.pos m2) e2)))%Z.
Proof.
  unfold SFdiv_core_binary.
  match goal with |- context [Z.div_eucl ?a ?b] =>
    assert (Ha : (0 <= a)%Z);
    [|pose proof (Z.div_pos a b Ha ltac:(lia)) as Hq; unfold Z.div in Hq;
      destruct (Z.div_eucl a b); exact Hq]
  end.
  match goal with |- context [match ?s with _ => _ end] => destruct s end;
    try lia. apply Z.shiftl_nonneg. lia.
Qed.

Lemma SFdiv_not_negative X m e :
  not_negative X -> not_negative (SF64div X (S754_finite false m e)).
Proof.
  destruct X as [s|s| |s mx ex]; simpl; intros H; auto; subst; auto.
  pose proof (SFdiv_core_nonneg mx ex m e) as Hq.
  destruct (SFdiv_core_binary prec emax (Z.pos mx) ex (Z.pos m) e) as [[q e'] l].
  apply signed_false_not_negative, binary_round_aux_signed. exact Hq.
Qed.

Lemma mul_not_negative x c :
  positive_finite c -> (0 <=? x) = true -> (0 <=? x * c) = true.
Proof.
  intros (m & e & Hc). rewrite !leb_zero, FloatAxioms.mul_spec, Hc.
  apply SFmul_not_negative.
Qed.

Lemma div_not_negative x c :
  positive_finite c -> (0 <=? x) = true -> (0 <=? x / c) = true.
Proof.
  intros (m & e & Hc). rewrite !leb_zero, FloatAxioms.div_spec, Hc.
  apply SFdiv_not_negative.
Qed.

(** A quotient of a double that is not below zero, by a positive constant,
    is a NaN or not below zero. *)
Lemma div_not_below_zero x c :
  positive_finite c -> (x <? 0) = false ->
  Prim2SF (x / c) = S754_nan \/ (0 <=? x / c) = true.
Proof.
  intros (m & e & Hc). rewrite ltb_zero, leb_zero, FloatAxioms.div_spec, Hc.
  intros [-> | H]; [left; reflexivity|right; now apply SFdiv_not_negative].
Qed.

(** A number that is not above 0.7, times 0.8, is at most 1. *)
Lemma mul_08_le_one x :
  number x -> (x >? 0.7) = false -> (x * 0.8 <=? 1) = true.
Proof.
  unfold number, gtb. intros Hn Hgt.
  pose proof (Prim2SF_valid x) as Hv.
  rewrite FloatAxioms.ltb_spec in Hgt.
  rewrite FloatAxioms.leb_spec, FloatAxioms.mul_spec.
  change (Prim2SF 0.7) with (S754_finite false 6305039478318694 (-53)) in Hgt.
  change (Prim2SF 0.8) with (S754_finite false 7205759403792794 (-53)).
  change (Prim2SF 1) with one_sf.
  destruct (Prim2SF x) as [s|[]| |[] m e]; try discriminate;
    try (destruct s; reflexivity); try reflexivity.
  - (* a negative number *)
    cbn [SF64mul SFmul xorb].
    pose proof (binary_round_aux_signed prec emax true
                  (Z.pos (m * 7205759403792794)) (e + -53) loc_Exact
                  ltac:(lia)) as H.
    destruct (binary_round_aux _ _ _ _ _ _) as [s|s| |s m' e'];
      cbn in H; try contradiction; subst; reflexivity.
  - (* a positive number, at most 0.7 *)
    cbn [SF64mul SFmul xorb]. apply binary_round_aux_le_one; try lia.
    + unfold SFltb in Hgt. cbn [SFcompare] in Hgt.
      destruct (Z.compare_spec (-53) e); try discriminate; lia.
    + unfold SFltb in Hgt. cbn [SFcompare] in Hgt.
      assert (He : (e <= -53)%Z)
        by (destruct (Z.compare_spec (-53) e); try discriminate; lia).
      cbn [valid_binary] in Hv. unfold bounded, canonical_mantissa in Hv.
      apply andb_prop in Hv. destruct Hv as [Hc _]. apply Z.eqb_eq in Hc.
      unfold fexp, emin, prec, emax in Hc.
      change IntDef.Z.max with Z.max in Hc.
      pose proof (digits2_pos_bounds m) as [_ Hm].
      assert (Hd : (2 ^ Z.pos (digits2_pos m) <= 2 ^ 53)%Z)
        by (apply Z.pow_le_mono_r; lia).
      assert (He' : (2 ^ 53 <= 2 ^ (- e))%Z) by (apply Z.pow_le_mono_r; lia).
      replace (- (e + -53))%Z with (- e + 53)%Z by lia.
      rewrite Z.pow_add_r by lia. rewrite Pos2Z.inj_mul.
      assert (H8 : (7205759403792794 < 2 ^ 53)%Z) by reflexivity.
      apply Z.mul_lt_mono_nonneg; lia.
Qed.

End SignFacts.

(* ================================================================== *)
(** ** The array of points and the insertion loop *)

Module ArrayFacts.

Import HiggsKing.


Lemma store_length i p pts : length (store i p pts) = length pts.
Proof.
  revert i; induction pts as [|q pts IH]; intros [|i]; simpl; auto.
Qed.

Lemma slot_store_same i p pts :
  (i < length pts)%nat -> slot (store i p pts) i = p.
Proof.
  unfold slot. revert i; induction pts as [|q pts IH]; intros [|i]; simpl;
    intros H; try lia; auto. apply IH; lia.
Qed.

Lemma store_store i p q pts : store i p (store i q pts) = store i p pts.
Proof.
  revert i; induction pts as [|r pts IH]; intros [|i]; simpl; auto.
  now rewrite IH.
Qed.

Lemma slot_middle l1 x l2 : slot (l1 ++ x :: l2) (length l1) = x.
Proof. unfold slot. apply nth_middle. Qed.

Lemma store_middle l1 x y l2 :
  store (length l1) y (l1 ++ x :: l2) = l1 ++ y :: l2.
Proof. induction l1 as [|a l1 IH]; simpl; auto. now rewrite IH. Qed.

Lemma split_at i (pts : list HiggsFieldPoint) :
  (i < length pts)%nat ->
  pts = firstn i pts ++ slot pts i :: skipn (S i) pts /\
  length (firstn i pts) = i.
Proof.
  intros H. split.
  - unfold slot. revert i H; induction pts as [|q pts IH]; intros [|i] H;
      simpl in *; try lia; auto. f_equal. apply IH; lia.
  - rewrite length_firstn. lia.
Qed.

Lemma store_split i p pts :
  (i < length pts)%nat ->
  store i p pts = firstn i pts ++ p :: skipn (S i) pts.
Proof.
  intros H. destruct (split_at i pts H) as [E L].
  rewrite E at 1. rewrite <- L at 1. apply store_middle.
Qed.

End ArrayFacts.

Module SortFacts.

Import Double HiggsKing ArrayFacts.
Open Scope float_scope.

Lemma slot_behind l a x l2 :
  slot ((l ++ [a]) ++ x :: l2) (S (length l)) = x.
Proof.
  replace (S (length l)) with (length (l ++ [a])).
  - apply slot_middle.
  - rewrite length_app, Nat.add_comm. reflexivity.
Qed.

Lemma slot_before l a x l2 :
  slot ((l ++ [a]) ++ x :: l2) (length l) = a.
Proof. rewrite <- app_assoc. apply slot_middle. Qed.

Lemma swap_down_behind l a x l2 :
  swap_down (S (length l)) ((l ++ [a]) ++ x :: l2) = l ++ x :: a :: l2.
Proof.
  unfold swap_down. cbn [Nat.sub]. rewrite Nat.sub_0_r.
  rewrite slot_behind, slot_before.
  replace (S (length l)) with (length (l ++ [a]))
    by (rewrite length_app, Nat.add_comm; reflexivity).
  rewrite store_middle, <- app_assoc. simpl. apply store_middle.
Qed.

Lemma sort_loop_spec l1 : forall x l2,
  exists k, placed x l1 k /\
    sort_loop (length l1) (l1 ++ x :: l2) =
    firstn k l1 ++ x :: skipn k l1 ++ l2.
Proof.
  induction l1 as [|a l IH] using rev_ind; intros x l2.
  - exists 0%nat. split; [constructor; simpl; auto|reflexivity].
  - replace (length (l ++ [a])) with (S (length l))
      by (rewrite length_app, Nat.add_comm; reflexivity).
    cbn [sort_loop]. rewrite slot_behind, slot_before.
    destruct (fuzzy_score x >? fuzzy_score a) eqn:Hgt.
    + rewrite swap_down_behind.
      destruct (IH x (a :: l2)) as (k & [Hle Hpass Hstop] & E).
      exists k. split.
      * constructor.
        -- rewrite length_app. lia.
        -- rewrite skipn_app. apply Forall_app. split; auto.
           replace (k - length l)%nat with 0%nat by lia. simpl. auto.
        -- destruct Hstop as [->|(b & Hb & Hs)]; auto. right. exists b.
           split; auto. rewrite nth_error_app1; auto.
           apply nth_error_Some. congruence.
      * rewrite E, firstn_app, skipn_app.
        replace (k - length l)%nat with 0%nat by lia. simpl.
        rewrite app_nil_r, <- !app_assoc. reflexivity.
    + exists (length (l ++ [a])). split.
      * constructor.
        -- lia.
        -- rewrite skipn_all. constructor.
        -- right. exists a. split; auto. rewrite length_app, Nat.add_comm.
           simpl. rewrite Nat.sub_0_r, nth_error_app2, Nat.sub_diag; auto.
      * rewrite firstn_all, skipn_all. reflexivity.
Qed.

End SortFacts.

(* ================================================================== *)
(** ** add_higgs_point *)

Module InsertFacts.

Import Double TickStack11d HiggsKing DoubleFacts ArrayFacts SortFacts.
Open Scope float_scope.

Section S.
Context {ops : TickStackOps}.

Lemma add_accepted_eq f coords m id :
  has_room f -> finite_magnitude coords ->
  add_higgs_point f (Some coords) m (Some id) =
  (mkField (sort_loop (point_count f)
              (store (point_count f) (new_point f coords m id) (points f)))
           (S (point_count f))
           (PUSH_LITERAL (tick_stack f) coords)
           (coupling_factor f), []).
Proof.
  intros [Hlen Hcnt] Hmag. unfold add_higgs_point.
  destruct (Nat.leb_spec HIGGS_FIELD_SIZE (point_count f)) as [H|_]; [lia|].
  cbn [point_count set_count assign points set_points]. 
  unfold finite_magnitude in Hmag. rewrite Hmag.
  assert (Hn : (point_count f < length (points f))%nat) by lia.
  unfold new_point, scoring_view, assign, set_points, set_tick_stack, set_count.
  cbn [point_count points tick_stack coupling_factor].
  repeat rewrite ?slot_store_same, ?store_store by (rewrite ?store_length; auto).
  reflexivity.
Qed.

Lemma add_accepted_stored f coords m id :
  has_room f -> finite_magnitude coords ->
  exists k, placed (new_point f coords m id) (stored f) k /\
    points (fst (add_higgs_point f (Some coords) m (Some id))) =
    firstn k (stored f) ++ new_point f coords m id
      :: skipn k (stored f) ++ skipn (S (point_count f)) (points f).
Proof.
  intros Hroom Hmag. rewrite add_accepted_eq by assumption.
  destruct Hroom as [Hlen Hcnt]. cbn [fst points].
  assert (Hn : (point_count f < length (points f))%nat) by lia.
  rewrite store_split by assumption.
  destruct (sort_loop_spec (stored f) (new_point f coords m id)
              (skipn (S (point_count f)) (points f))) as (k & Hk & E).
  exists k. split; auto. rewrite <- E. unfold stored.
  rewrite length_firstn, Nat.min_l by lia. reflexivity.
Qed.

End S.
End InsertFacts.

(* ================================================================== *)
(** ** higgs_interaction *)

Module StepFacts.

Import Double TickStack11d HiggsKing DoubleFacts ArrayFacts.
Open Scope float_scope.

Lemma map_store_score i p pts :
  fuzzy_score p = fuzzy_score (slot pts i) ->
  map fuzzy_score (store i p pts) = map fuzzy_score pts.
Proof.
  unfold slot. revert i; induction pts as [|q pts IH]; intros [|i] H; simpl in *;
    auto; f_equal; auto.
Qed.

Lemma same_frame_refl f : same_frame f f.
Proof. repeat split. Qed.

Lemma same_frame_trans f g h : same_frame f g -> same_frame g h -> same_frame f h.
Proof.
  intros (A & B & C & D) (A' & B' & C' & D'). repeat split; congruence.
Qed.

Lemma same_frame_stored f f' : same_frame f f' -> priorities f' = priorities f.
Proof.
  intros (A & _ & C & _). unfold priorities, stored.
  rewrite <- !firstn_map, A, C. reflexivity.
Qed.

Section WithTickStack.

Context {ops : TickStackOps}.

Lemma interact_point_frame i f out f' out' :
  interact_point i (f, out) = Some (f', out') -> same_frame f f'.
Proof.
  unfold interact_point.
  destruct (fuzzy_score (slot (points f) i) <? FUZZY_CONFIDENCE_THRESHOLD).
  { intros [= <- <-]. apply same_frame_refl. }
  destruct (delta_topology (tick_stack f)) as [|a rest]; [discriminate|].
  destruct (_ || _).
  { intros [= <- <-]. apply same_frame_refl. }
  intros [= <- <-]. unfold same_frame, assign, set_points, set_tick_stack.
  cbn [points point_count coupling_factor tick_stack].
  rewrite !store_length. repeat split.
  rewrite !map_store_score; reflexivity.
Qed.

Lemma interaction_loop_frame n : forall i f out f' out',
  interaction_loop n i (f, out) = Some (f', out') -> same_frame f f'.
Proof.
  induction n as [|n IH]; cbn [interaction_loop]; intros i f out f' out'.
  - intros [= <- <-]. apply same_frame_refl.
  - destruct (interact_point i (f, out)) as [[g o]|] eqn:E; [|discriminate].
    intros H. eapply same_frame_trans.
    + eapply interact_point_frame; eauto.
    + eapply IH; eauto.
Qed.

(** An interaction changes neither a priority nor the number of points. *)
Lemma higgs_interaction_frame f f' out :
  higgs_interaction f = Some (f', out) ->
  priorities f' = priorities f /\
  length (points f') = length (points f) /\
  point_count f' = point_count f.
Proof.
  unfold higgs_interaction. destruct (point_count f <? 2)%nat.
  - intros [= <- <-]. auto.
  - intros H. apply interaction_loop_frame in H.
    pose proof (same_frame_stored _ _ H) as P.
    destruct H as (_ & B & C & _). auto.
Qed.

Lemma interact_point_literals `{!TickStackLaws ops} i f out f' out' :
  interact_point i (f, out) = Some (f', out') ->
  literals (tick_stack f') = literals (tick_stack f).
Proof.
  unfold interact_point.
  destruct (fuzzy_score (slot (points f) i) <? FUZZY_CONFIDENCE_THRESHOLD).
  { now intros [= <- <-]. }
  destruct (delta_topology (tick_stack f)) as [|a rest]; [discriminate|].
  destruct (_ || _).
  { now intros [= <- <-]. }
  intros [= <- <-]. cbn. apply x_keeps_literals.
Qed.

Lemma interaction_loop_literals `{!TickStackLaws ops} n : forall i f out f' out',
  interaction_loop n i (f, out) = Some (f', out') ->
  literals (tick_stack f') = literals (tick_stack f).
Proof.
  induction n as [|n IH]; cbn [interaction_loop]; intros i f out f' out'.
  - now intros [= <- <-].
  - destruct (interact_point i (f, out)) as [[g o]|] eqn:E; [|discriminate].
    intros H. apply IH in H. apply interact_point_literals in E. congruence.
Qed.

Lemma higgs_interaction_literals `{!TickStackLaws ops} f f' out :
  higgs_interaction f = Some (f', out) ->
  literals (tick_stack f') = literals (tick_stack f).
Proof.
  unfold higgs_interaction. destruct (point_count f <? 2)%nat.
  - now intros [= <- <-].
  - intros H. apply interaction_loop_literals in H. cbn in H.
    rewrite H. apply compute_keeps_literals.
Qed.

(** With an anchor record that the x operator leaves in place, the loop
    applies [coupled] to each point in turn. *)
Lemma interaction_loop_spec (a : MultivarDeltaTopology) :
  (forall ts r, delta_topology (X_MULTIVAR ts r) = delta_topology ts) ->
  forall todo done rest f out,
    points f = done ++ todo ++ rest ->
    hd_error (delta_topology (tick_stack f)) = Some a ->
    exists f',
      interaction_loop (length todo) (length done) (f, out)
        = Some (f', out ++ instability_reports a todo) /\
      points f' = done ++ map (coupled (coupling_factor f) a) todo ++ rest /\
      point_count f' = point_count f /\
      coupling_factor f' = coupling_factor f.
Proof.
  intros Hx. induction todo as [|p todo IH]; intros done rest f out Hp Ha.
  - exists f. cbn. rewrite app_nil_r. auto.
  - cbn [length interaction_loop map]. unfold interact_point.
    assert (Hs : slot (points f) (length done) = p).
    { rewrite Hp. apply slot_middle. }
    rewrite Hs.
    set (q := coupled (coupling_factor f) a p).
    assert (Hq : q = coupled (coupling_factor f) a p) by reflexivity.
    assert (Hnext : forall g o,
      points g = done ++ q :: todo ++ rest ->
      hd_error (delta_topology (tick_stack g)) = Some a ->
      point_count g = point_count f -> coupling_factor g = coupling_factor f ->
      o ++ instability_reports a todo = out ++ instability_reports a (p :: todo) ->
      exists f',
        interaction_loop (length todo) (S (length done)) (g, o)
          = Some (f', out ++ instability_reports a (p :: todo)) /\
        points f' = done ++ q :: map (coupled (coupling_factor f) a) todo ++ rest /\
        point_count f' = point_count f /\ coupling_factor f' = coupling_factor f).
    { intros g o Hg Hga Hc Hcf Ho.
      destruct (IH (done ++ [q]) rest g o) as (f' & E & P & C & CF).
      - rewrite Hg, <- app_assoc. reflexivity.
      - exact Hga.
      - exists f'. rewrite length_app, Nat.add_comm in E. cbn in E.
        rewrite E, P, C, CF, Hcf, Ho, <- app_assoc. auto. }
    clearbody q. unfold coupled in Hq.
    unfold instability_reports in Hnext |- *.
    cbn [flat_map] in Hnext |- *.
    fold (instability_reports a todo) in Hnext |- *.
    destruct (fuzzy_score p <? FUZZY_CONFIDENCE_THRESHOLD).
    { subst q. apply Hnext; auto. }
    destruct (delta_topology (tick_stack f)) as [|a' tl] eqn:Hd; [discriminate|].
    cbn in Ha. injection Ha as ->. fold (anchor_unusable a).
    destruct (anchor_unusable a).
    { subst q. apply Hnext; auto.
      - now rewrite Hd.
      - now rewrite <- app_assoc. }
    apply Hnext; auto.
    + unfold assign, set_points, set_tick_stack.
      cbn [points point_count coupling_factor tick_stack].
      rewrite Hp. cbn [app].
      rewrite slot_middle, store_middle, slot_middle, store_middle, Hq.
      reflexivity.
    + cbn. rewrite Hx. cbn. now rewrite Hd.
Qed.

Lemma higgs_interaction_spec (a : MultivarDeltaTopology) f :
  (forall ts r, delta_topology (X_MULTIVAR ts r) = delta_topology ts) ->
  (2 <= point_count f <= length (points f))%nat ->
  hd_error (delta_topology (compute_multivar_delta_topology (tick_stack f)))
    = Some a ->
  exists f',
    higgs_interaction f = Some (f', instability_reports a (stored f)) /\
    coupling_factor f' = HIGGS_COUPLING_BASE * monitor_field_stability f /\
    point_count f' = point_count f /\
    points f' = map (coupled (coupling_factor f') a) (stored f)
                ++ skipn (point_count f) (points f).
Proof.
  intros Hx Hc Ha. unfold higgs_interaction.
  destruct (Nat.ltb_spec (point_count f) 2) as [H|_]; [lia|].
  cbn [point_count points tick_stack coupling_factor set_tick_stack set_coupling].
  set (g := mkField (points f) (point_count f)
              (compute_multivar_delta_topology (tick_stack f))
              (HIGGS_COUPLING_BASE * monitor_field_stability f)).
  destruct (interaction_loop_spec a Hx (stored f) [] (skipn (point_count f) (points f))
              g []) as (f' & E & P & C & CF).
  - unfold g, stored. cbn. symmetry. apply firstn_skipn.
  - exact Ha.
  - exists f'. unfold stored in E at 1.
    rewrite length_firstn, Nat.min_l in E by lia. cbn [length app] in E.
    change (set_tick_stack (compute_multivar_delta_topology (tick_stack f))
              (set_coupling (HIGGS_COUPLING_BASE * monitor_field_stability f) f))
      with g.
    rewrite E, CF, C, P. cbn. auto.
Qed.

End WithTickStack.

End StepFacts.

(* ================================================================== *)
(** ** The invariant of the registry *)

Module RegistryFacts.

Import Double TickStack11d HiggsKing DoubleFacts ArrayFacts SortFacts
       InsertFacts StepFacts.
Open Scope float_scope.

(** *** Sorted lists *)

Lemma sorted_app {A} (R : A -> A -> Prop) l1 l2 :
  StronglySorted R (l1 ++ l2) <->
  StronglySorted R l1 /\ StronglySorted R l2 /\
  (forall a b, In a l1 -> In b l2 -> R a b).
Proof.
  induction l1 as [|x l1 IH]; simpl.
  - split; [intros H|intros (_ & H & _)]; auto. repeat split; auto.
    + constructor.
    + intros a b [].
  - split.
    + intros H. apply StronglySorted_inv in H. destruct H as [H F].
      apply IH in H. destruct H as (S1 & S2 & C).
      rewrite Forall_app in F. destruct F as [F1 F2].
      repeat split; auto.
      * constructor; auto.
      * intros a b [<-|Ha] Hb; auto.
        rewrite Forall_forall in F2. auto.
    + intros (S1 & S2 & C). apply StronglySorted_inv in S1.
      destruct S1 as [S1 F1]. constructor.
      * apply IH. repeat split; auto.
      * apply Forall_app. split; auto. apply Forall_forall. auto.
Qed.

Lemma sorted_map {A B} (g : A -> B) (R : B -> B -> Prop) l :
  StronglySorted R (map g l) <-> StronglySorted (fun a b => R (g a) (g b)) l.
Proof.
  induction l as [|x l IH]; simpl.
  - split; constructor.
  - split; intros H; apply StronglySorted_inv in H; destruct H as [H F];
      constructor; try (apply IH; assumption).
    + rewrite Forall_map in F. exact F.
    + rewrite Forall_map. exact F.
Qed.

Lemma firstn_snoc {A} (l : list A) j b :
  nth_error l j = Some b -> firstn (S j) l = firstn j l ++ [b].
Proof.
  revert j; induction l as [|x l IH]; intros [|j] H; simpl in *;
    try discriminate.
  - now injection H as ->.
  - f_equal. now apply IH.
Qed.

Lemma descending_non_increasing l : descending l -> non_increasing l.
Proof.
  unfold descending, non_increasing. induction 1 as [|a l S IH F].
  - intros i j x y _ H. destruct i; discriminate.
  - intros i j x y Hij Hi Hj. destruct j as [|j]; [lia|]. simpl in Hj.
    destruct i as [|i]; simpl in Hi.
    + injection Hi as <-. rewrite Forall_forall in F. apply F.
      eapply nth_error_In; eauto.
    + apply (IH i j); auto. lia.
Qed.

(** *** Scores are numbers *)

Lemma stability_values f :
  monitor_field_stability f = 1.0 \/ monitor_field_stability f = 0.5.
Proof.
  unfold monitor_field_stability. destruct (point_count f =? 0)%nat; auto.
  destruct (_ <? _); auto.
Qed.

Lemma stability_number f : number (monitor_field_stability f).
Proof. destruct (stability_values f) as [-> | ->]; reflexivity. Qed.

Lemma dampen_number s : number s -> number (dampen s).
Proof.
  intros H. unfold dampen. destruct (_ >? _); auto.
  eapply mul_number; eauto. reflexivity.
Qed.

Lemma fuzzy_score_point_number p f : number (fuzzy_score_point p f).
Proof.
  unfold fuzzy_score_point. apply dampen_number.
  destruct (_ <? monitor_field_stability f) eqn:E.
  - eapply ltb_number_l; eauto.
  - apply stability_number.
Qed.

(** *** One insertion keeps the order *)

Lemma placed_descending (x : HiggsFieldPoint) l k :
  descending (map fuzzy_score l) -> Forall number (map fuzzy_score l) ->
  number (fuzzy_score x) -> placed x l k ->
  descending (map fuzzy_score (firstn k l ++ x :: skipn k l)).
Proof.
  unfold descending. intros S N Nx [Hle Hpass Hstop].
  rewrite sorted_map in *. rewrite <- (firstn_skipn k l) in S.
  apply sorted_app in S. destruct S as (S1 & S2 & C).
  apply sorted_app. repeat split; auto.
  - constructor; auto. revert Hpass. apply Forall_impl.
    intros a Ha. now apply ltb_leb.
  - intros a b Ha [<-|Hb]; auto.
    destruct k as [|k]; [destruct Ha|].
    destruct Hstop as [Hk|(b0 & Hb0 & Hs)]; [discriminate|].
    cbn [Nat.sub] in Hb0. rewrite Nat.sub_0_r in Hb0.
    rewrite (firstn_snoc _ _ _ Hb0) in Ha, S1.
    assert (Nb0 : number (fuzzy_score b0)).
    { rewrite Forall_map, Forall_forall in N. apply N.
      eapply nth_error_In; eauto. }
    pose proof (not_gtb_leb _ _ Nx Nb0 Hs) as Hx.
    apply in_app_or in Ha. destruct Ha as [Ha|[<-|[]]]; auto.
    apply sorted_app in S1. destruct S1 as (_ & _ & C1).
    eapply leb_trans; eauto. apply C1; simpl; auto.
Qed.

Section WithTickStack.

Context {ops : TickStackOps}.

Lemma firstn_store i p pts : firstn i (store i p pts) = firstn i pts.
Proof.
  revert i; induction pts as [|q pts IH]; intros [|i]; simpl; auto.
  now rewrite IH.
Qed.

(** Every call of [add_higgs_point] on a whole array is turned down or
    places its point. *)
Lemma insert_cases f c :
  length (points f) = HIGGS_FIELD_SIZE -> insert_outcome f c (insert f c).
Proof.
  intros Hlen. unfold insert. destruct c as [[coords|] m [id|]];
    cbn [call_coords call_mass call_id];
    try (apply turned_down; reflexivity).
  destruct (Nat.leb_spec HIGGS_FIELD_SIZE (point_count f)) as [Hfull|Hroom].
  { unfold add_higgs_point. apply Nat.leb_le in Hfull. rewrite Hfull.
    apply turned_down; reflexivity. }
  destruct (isnan (vector_magnitude coords) || isinf (vector_magnitude coords))
    eqn:Hmag.
  - unfold add_higgs_point. apply Nat.leb_gt in Hroom. rewrite Hroom.
    cbn [point_count set_count assign points set_points]. rewrite Hmag.
    cbn [fst]. apply turned_down; unfold stored, assign, set_points, set_count;
      cbn [points point_count tick_stack coupling_factor];
      replace (S (point_count f) - 1)%nat with (point_count f) by lia;
      rewrite ?store_length; auto using firstn_store.
  - assert (R : has_room f) by (split; auto).
    destruct (add_accepted_stored f coords m id R Hmag) as (k & Hk & E).
    pose proof (placed_le _ _ _ Hk) as Hle.
    assert (Hst : length (stored f) = point_count f).
    { unfold stored. rewrite length_firstn. lia. }
    rewrite add_accepted_eq in * by assumption. cbn [fst points] in *.
    eapply taken_in with (k := k); eauto; cbn [points point_count tick_stack
      coupling_factor]; auto.
    + unfold stored at 1. cbn [points point_count]. rewrite E.
      rewrite app_comm_cons, app_assoc, firstn_app.
      match goal with |- firstn _ ?l ++ _ = _ =>
        assert (HL : length l = S (point_count f)) end.
      { rewrite length_app. cbn [length]. rewrite length_firstn, length_skipn. lia. }
      rewrite HL, Nat.sub_diag, firstn_O, app_nil_r, <- HL, firstn_all.
      reflexivity.
    + rewrite E, !length_app. cbn [length].
      rewrite length_app, length_firstn, !length_skipn. lia.
Qed.

Lemma priorities_new_point f coords m id :
  number (fuzzy_score (new_point f coords m id)).
Proof. apply fuzzy_score_point_number. Qed.

Lemma insert_ok f c : registry_ok f -> registry_ok (insert f c).
Proof.
  intros [Hlen Hcnt Hs Hn].
  destruct (insert_cases f c Hlen) as [E C L _ _|coords m id k _ R _ P E C L _ _];
    unfold priorities in *.
  - constructor; unfold priorities; rewrite ?E, ?C, ?L; auto.
  - destruct R as [_ R]. constructor; unfold priorities; rewrite ?E, ?C, ?L; auto.
    + apply placed_descending; auto using priorities_new_point.
    + rewrite map_app, Forall_app. cbn [map]. rewrite Forall_cons_iff.
      rewrite <- (firstn_skipn k (stored f)), map_app, Forall_app in Hn.
      destruct Hn. auto using priorities_new_point.
Qed.

Lemma step_ok f f' out :
  higgs_interaction f = Some (f', out) -> registry_ok f -> registry_ok f'.
Proof.
  intros H [Hlen Hcnt Hs Hn].
  apply higgs_interaction_frame in H. destruct H as (P & L & C).
  constructor; rewrite ?P, ?L, ?C; auto.
Qed.

Lemma init_ok mem :
  length (points mem) = HIGGS_FIELD_SIZE -> registry_ok (init_higgs_field mem).
Proof.
  intros H. constructor; cbn; auto.
  - unfold HIGGS_FIELD_SIZE. lia.
  - constructor.
Qed.

Lemma reachable_ok allowed f : reachable_by allowed f -> registry_ok f.
Proof.
  induction 1; eauto using init_ok, insert_ok, step_ok.
Qed.

Lemma insert_all_ok calls : forall f,
  registry_ok f -> registry_ok (insert_all f calls).
Proof.
  induction calls as [|c calls IH]; simpl; auto using insert_ok.
Qed.

(** As long as only the registry pushes literals, it holds as many
    literals as points, up to the capacity of the tick stack. *)
Lemma reachable_literals `{!TickStackLaws ops} allowed f :
  reachable_by allowed f ->
  literal_count (tick_stack f) = Nat.min (point_count f) TICKSTACK_SIZE.
Proof.
  induction 1 as [mem Hm|f c Hf IH _|f f' out Hf IH Hs].
  - cbn. unfold literal_count. now rewrite init_no_literal.
  - pose proof (reachable_ok _ _ Hf) as [Hlen _ _ _].
    destruct (insert_cases f c Hlen) as [_ C _ T _|coords m id k _ R _ _ _ C _ T _].
    + now rewrite T, C.
    + rewrite T, C, push_count, IH. destruct R as [_ R].
      unfold TICKSTACK_SIZE, HIGGS_FIELD_SIZE in *.
      destruct (Nat.ltb_spec (Nat.min (point_count f) 50) 50); lia.
  - pose proof (higgs_interaction_literals _ _ _ Hs) as L.
    apply higgs_interaction_frame in Hs. destruct Hs as (_ & _ & C).
    unfold literal_count in *. now rewrite L, C.
Qed.

End WithTickStack.

End RegistryFacts.

(* ================================================================== *)
(** ** Bounds on the priorities *)

Module PriorityFacts.

Import Double TickStack11d HiggsKing DoubleFacts RoundingFacts SignFacts
       ArrayFacts InsertFacts StepFacts RegistryFacts.
Open Scope float_scope.

Lemma positive_finite_08 : positive_finite 0.8.
Proof. do 2 eexists. reflexivity. Qed.

Lemma positive_finite_2 : positive_finite 2.0.
Proof. do 2 eexists. reflexivity. Qed.

Lemma positive_finite_energy_factor : positive_finite HIGGS_ENERGY_FACTOR.
Proof. do 2 eexists. reflexivity. Qed.

Lemma positive_finite_energy_scale :
  positive_finite (HIGGS_ENERGY_FACTOR * of_count HIGGS_FIELD_DIM).
Proof. do 2 eexists. vm_compute. reflexivity. Qed.

Lemma stability_le_one f : (monitor_field_stability f <=? 1) = true.
Proof. destruct (stability_values f) as [-> | ->]; reflexivity. Qed.

Lemma stability_not_negative f : (0 <=? monitor_field_stability f) = true.
Proof. destruct (stability_values f) as [-> | ->]; reflexivity. Qed.

Lemma dampen_le_one s : number s -> (s <=? 1) = true -> (dampen s <=? 1) = true.
Proof.
  intros Hn Hs. unfold dampen, FUZZY_CONFIDENCE_THRESHOLD.
  destruct (s >? 0.7) eqn:E; auto using mul_08_le_one.
Qed.

Lemma dampen_not_negative s : (0 <=? s) = true -> (0 <=? dampen s) = true.
Proof.
  intros Hs. unfold dampen. destruct (_ >? _); auto.
  apply mul_not_negative; auto using positive_finite_08.
Qed.

(** A score is at most 1, whatever the point and the registry. *)
Lemma fuzzy_score_point_le_one p f : (fuzzy_score_point p f <=? 1) = true.
Proof.
  unfold fuzzy_score_point.
  destruct (_ <? monitor_field_stability f) eqn:E.
  - apply dampen_le_one.
    + eapply ltb_number_l; eauto.
    + eapply leb_trans; [apply ltb_leb, E|apply stability_le_one].
  - apply dampen_le_one; auto using stability_number, stability_le_one.
Qed.

Lemma nan_ltb x y : Prim2SF x = S754_nan -> (x <? y) = false.
Proof. intros H. rewrite FloatAxioms.ltb_spec, H. reflexivity. Qed.

(** A score is at least 0 when the energy is and the mass is not below 0. *)
Lemma fuzzy_score_point_not_negative p f :
  (0 <=? energy p) = true -> (mass p <? 0) = false ->
  (0 <=? fuzzy_score_point p f) = true.
Proof.
  intros He Hm. unfold fuzzy_score_point. apply dampen_not_negative.
  pose proof (div_not_negative _ _ positive_finite_energy_scale He) as Hef.
  pose proof (div_not_below_zero _ _ positive_finite_2 Hm) as Hmf.
  pose proof (stability_not_negative f) as Hst.
  destruct (_ <? mass p / 2.0).
  - destruct (_ <? monitor_field_stability f); auto.
  - destruct Hmf as [Hnan|Hmf].
    + now rewrite (nan_ltb _ _ Hnan).
    + destruct (_ <? monitor_field_stability f); auto.
Qed.

Section WithTickStack.

Context {ops : TickStackOps}.

Lemma scoring_slot f coords m :
  has_room f ->
  let p := slot (points (scoring_view f coords m)) (point_count f) in
  energy p = vector_magnitude coords * HIGGS_ENERGY_FACTOR /\ mass p = m.
Proof.
  intros [Hlen Hcnt]. cbn zeta.
  assert (Hn : (point_count f < length (points f))%nat) by lia.
  unfold scoring_view, assign, set_points, set_count.
  cbn [point_count points tick_stack coupling_factor].
  repeat rewrite ?slot_store_same, ?store_store by (rewrite ?store_length; auto).
  split; reflexivity.
Qed.

Lemma new_point_le_one f coords m id :
  (fuzzy_score (new_point f coords m id) <=? 1) = true.
Proof. apply fuzzy_score_point_le_one. Qed.

Lemma new_point_not_negative f coords m id :
  magnitude_not_negative ops -> has_room f -> finite_magnitude coords ->
  (m <? 0) = false ->
  (0 <=? fuzzy_score (new_point f coords m id)) = true.
Proof.
  intros Hmag Hroom Hfin Hm. cbn [new_point fuzzy_score].
  destruct (scoring_slot f coords m Hroom) as [He Hms].
  apply fuzzy_score_point_not_negative; rewrite ?He, ?Hms; auto.
  apply mul_not_negative; auto using positive_finite_energy_factor.
  apply leb_zero. destruct (proj1 (ltb_zero _) (Hmag coords)) as [Hnan|]; auto.
  unfold finite_magnitude in Hfin. apply orb_false_elim in Hfin.
  destruct Hfin as [Hfin _]. apply isnan_number in Hfin. unfold number in Hfin.
  rewrite Hnan in Hfin. discriminate.
Qed.

(** A property of the score of every point taken in holds of every
    priority of every reachable registry. *)
Lemma reachable_priorities (allowed : insert_call -> Prop) (Q : float -> Prop) :
  (forall f coords m id,
     allowed (mkCall (Some coords) m (Some id)) ->
     has_room f -> finite_magnitude coords ->
     Q (fuzzy_score (new_point f coords m id))) ->
  forall f, reachable_by allowed f -> Forall Q (priorities f).
Proof.
  intros HQ f Hf. induction Hf as [mem Hm|f c Hf IH Hc|f f' out Hf IH Hs].
  - constructor.
  - pose proof (reachable_ok _ _ Hf) as [Hlen _ _ _].
    unfold priorities in *.
    destruct (insert_cases f c Hlen) as [E _ _ _ _|coords m id k -> R M _ E _ _ _ _];
      rewrite E; auto.
    rewrite <- (firstn_skipn k (stored f)), map_app, Forall_app in IH.
    destruct IH. rewrite map_app, Forall_app. cbn [map].
    rewrite Forall_cons_iff. auto.
  - apply higgs_interaction_frame in Hs. destruct Hs as (P & _). now rewrite P.
Qed.

End WithTickStack.

(** The magnitude written from the specification is never below zero. *)
Lemma SFsqrt_not_below_zero X :
  SF64sqrt X = S754_nan \/ not_negative (SF64sqrt X).
Proof.
  destruct X as [s|[]| |[] m e]; cbn; auto. right.
  unfold SFsqrt_core_binary.
  match goal with |- context [Z.sqrtrem ?a] =>
    assert (Ha : (0 <= a)%Z);
    [|pose proof (Z.sqrtrem_spec a Ha) as Hq; destruct (Z.sqrtrem a) as [q r]]
  end.
  { match goal with |- context [match ?s with _ => _ end] => destruct s end;
      try lia. apply Z.shiftl_nonneg. lia. }
  apply signed_false_not_negative, binary_round_aux_signed. lia.
Qed.

Lemma reference_magnitude : magnitude_not_negative SpecTickStack.reference.
Proof.
  intros v. cbn. unfold SpecTickStack.vector_magnitude.
  destruct (existsb SpecTickStack.bad v); [reflexivity|].
  apply ltb_zero. rewrite FloatAxioms.sqrt_spec. apply SFsqrt_not_below_zero.
Qed.

End PriorityFacts.

(* ================================================================== *)
(** ** Stability of a registry with an energy that is not finite *)

Module StabilityFacts.

Import Double DoubleClasses TickStack11d HiggsKing DoubleFacts.
Open Scope float_scope.

Lemma SFadd_not_finite a b :
  not_finite a = true \/ not_finite b = true ->
  not_finite (SF64add a b) = true.
Proof.
  destruct a as [[]|[]| |[] ? ?], b as [[]|[]| |[] ? ?]; cbn;
    intros [H|H]; try discriminate; reflexivity.
Qed.

Lemma SFsub_not_finite a b :
  not_finite b = true -> not_finite (SF64sub a b) = true.
Proof.
  destruct a as [[]|[]| |[] ? ?], b as [[]|[]| |[] ? ?]; cbn;
    intros H; try discriminate; reflexivity.
Qed.

Lemma SFdiv_not_finite a b :
  not_finite a = true -> not_finite (SF64div a b) = true.
Proof.
  destruct a as [[]|[]| |[] ? ?], b as [[]|[]| |[] ? ?]; cbn;
    intros H; try discriminate; reflexivity.
Qed.

Lemma SFmul_square a :
  not_finite a = true -> nan_or_plus_infinity (SF64mul a a) = true.
Proof. destruct a as [[]|[]| |[] ? ?]; cbn; intros H; try discriminate; reflexivity. Qed.

Lemma SFadd_square a b :
  nan_or_plus_infinity b = true -> nan_or_plus_infinity (SF64add a b) = true.
Proof.
  destruct a as [[]|[]| |[] ? ?], b as [[]|[]| |[] ? ?]; cbn;
    intros H; try discriminate; reflexivity.
Qed.

Lemma SFdiv_square a b :
  nan_or_plus_infinity a = true -> unsigned b = true ->
  nan_or_plus_infinity (SF64div a b) = true.
Proof.
  destruct a as [[]|[]| |[] ? ?], b as [[]|[]| |[] ? ?]; cbn;
    intros H U; try discriminate; reflexivity.
Qed.

(** The conversion of a [size_t] never gives a negative double. *)
Lemma of_uint63_unsigned i : unsigned (Prim2SF (of_uint63 i)) = true.
Proof.
  rewrite of_uint63_spec. unfold binary_normalize.
  pose proof (Uint63.to_Z_bounded i) as [H _].
  destruct (Uint63.to_Z i) as [|m|m]; [reflexivity| |lia].
  unfold binary_round.
  destruct (shl_align m 0 _) as [mz ez].
  pose proof (binary_round_aux_signed prec emax false (Z.pos mz) ez loc_Exact
                ltac:(lia)) as S.
  destruct (binary_round_aux _ _ _ _ _ _) as [s|s| |s m' e'];
    cbn in S; try contradiction; subst; reflexivity.
Qed.

Lemma isnan_isinf_not_finite x :
  isnan x || isinf x = true -> not_finite (Prim2SF x) = true.
Proof.
  intros H. apply orb_true_iff in H. destruct H as [H|H].
  - unfold isnan in H. apply negb_true_iff in H.
    rewrite FloatAxioms.eqb_spec in H.
    destruct (Prim2SF x) as [[]|[]| |[] m e]; try reflexivity;
      try discriminate.
    + exfalso. unfold SFeqb in H. cbn [SFcompare] in H.
      rewrite Z.compare_refl, Pcompare_cont_Eq, Pos.compare_refl in H.
      discriminate.
    + exfalso. unfold SFeqb in H. cbn [SFcompare] in H.
      rewrite Z.compare_refl, Pcompare_cont_Eq, Pos.compare_refl in H.
      discriminate.
  - unfold isinf in H. rewrite FloatAxioms.eqb_spec, abs_spec in H.
    destruct (Prim2SF x) as [[]|[]| |[] m e]; try reflexivity;
      discriminate.
Qed.

Lemma nan_or_plus_infinity_not_below x c s m e :
  Prim2SF c = S754_finite s m e ->
  nan_or_plus_infinity (Prim2SF x) = true -> (x <? c) = false.
Proof.
  intros Hc H. rewrite FloatAxioms.ltb_spec, Hc.
  destruct (Prim2SF x) as [[]|[]| |[] ? ?]; try discriminate; reflexivity.
Qed.

(** The two loops of [monitor_field_stability]. *)
Lemma sum_not_finite (l : list HiggsFieldPoint) : forall a,
  not_finite (Prim2SF a) = true \/
  (exists p, In p l /\ not_finite (Prim2SF (energy p)) = true) ->
  not_finite (Prim2SF (fold_left (fun acc p => acc + energy p) l a)) = true.
Proof.
  induction l as [|q l IH]; intros a H; cbn [fold_left].
  - destruct H as [H|(p & [] & _)]. exact H.
  - apply IH. destruct H as [H|(p & [<-|Hin] & Hp)].
    + left. rewrite FloatAxioms.add_spec. apply SFadd_not_finite. now left.
    + left. rewrite FloatAxioms.add_spec. apply SFadd_not_finite. now right.
    + right. eauto.
Qed.

Lemma squares_not_finite mean (l : list HiggsFieldPoint) : forall a,
  not_finite (Prim2SF mean) = true ->
  nan_or_plus_infinity (Prim2SF a) = true \/ l <> [] ->
  nan_or_plus_infinity
    (Prim2SF (fold_left (fun acc p => let diff := energy p - mean in
                                      acc + diff * diff) l a)) = true.
Proof.
  intros a Hm. revert a. induction l as [|q l IH]; intros a H; cbn [fold_left].
  - destruct H as [H|H]; [exact H|congruence].
  - apply IH. left. cbv zeta.
    rewrite FloatAxioms.add_spec, FloatAxioms.mul_spec, FloatAxioms.sub_spec.
    apply SFadd_square, SFmul_square, SFsub_not_finite, Hm.
Qed.

Lemma not_finite_energy_unstable f p :
  In p (stored f) -> isnan (energy p) || isinf (energy p) = true ->
  monitor_field_stability f = 0.5.
Proof.
  intros Hin Hp. apply isnan_isinf_not_finite in Hp.
  unfold monitor_field_stability.
  destruct (point_count f =? 0)%nat eqn:E.
  { apply Nat.eqb_eq in E. unfold stored in Hin. rewrite E in Hin.
    destruct Hin. }
  assert (Hmean : not_finite (Prim2SF (mean_energy f)) = true).
  { unfold mean_energy. rewrite FloatAxioms.div_spec.
    apply SFdiv_not_finite, sum_not_finite. right. eauto. }
  assert (Hvar : nan_or_plus_infinity (Prim2SF (energy_variance f)) = true).
  { unfold energy_variance. cbv zeta. rewrite FloatAxioms.div_spec.
    apply SFdiv_square; [|apply of_uint63_unsigned].
    apply squares_not_finite; [exact Hmean|].
    right. intros N. rewrite N in Hin. destruct Hin. }
  rewrite (nan_or_plus_infinity_not_below _ FIELD_STABILITY_THRESHOLD
             false 4722366482869645 (-72)); [reflexivity| |exact Hvar].
  reflexivity.
Qed.

(** [monitor_field_stability] against the stability of the
    specification. *)
Lemma fold_left_map_add {A} (g : A -> float) l : forall a,
  fold_left PrimFloat.add (map g l) a = fold_left (fun acc p => acc + g p) l a.
Proof. induction l as [|x l IH]; intros a; cbn [map fold_left]; auto. Qed.

Lemma stored_length f :
  (point_count f <= length (points f))%nat ->
  length (stored f) = point_count f.
Proof. intros H. unfold stored. rewrite length_firstn. lia. Qed.

Lemma mean_energy_spec f :
  (point_count f <= length (points f))%nat ->
  mean_energy f = SpecStability.mean (map energy (stored f)).
Proof.
  intros H. unfold mean_energy, SpecStability.mean, SpecStability.sum.
  now rewrite fold_left_map_add, length_map, stored_length.
Qed.

Lemma energy_variance_spec f :
  (point_count f <= length (points f))%nat ->
  energy_variance f = SpecStability.variance (map energy (stored f)).
Proof.
  intros H. unfold energy_variance, SpecStability.variance, SpecStability.sum.
  cbv zeta. rewrite <- mean_energy_spec by exact H.
  now rewrite map_map, fold_left_map_add, length_map, stored_length.
Qed.

Lemma monitor_field_stability_spec f :
  (0 < point_count f <= length (points f))%nat ->
  monitor_field_stability f = SpecStability.stability (map energy (stored f)).
Proof.
  intros H. unfold monitor_field_stability, SpecStability.stability.
  destruct (Nat.eqb_spec (point_count f) 0) as [E|_]; [lia|].
  now rewrite energy_variance_spec by lia.
Qed.

(** The counts of a registry are finite doubles above zero. *)
Lemma of_count_finite n :
  (1 <= n <= HIGGS_FIELD_SIZE)%nat ->
  exists m e, Prim2SF (of_count n) = S754_finite false m e.
Proof.
  intros H.
  assert (B : forallb (fun n => match Prim2SF (of_count n) with
                                | S754_finite false _ _ => true
                                | _ => false
                                end) (seq 1 100) = true)
    by (vm_compute; reflexivity).
  rewrite forallb_forall in B. specialize (B n).
  destruct (Prim2SF (of_count n)) as [| | |[] m e];
    try (discriminate B; apply in_seq; unfold HIGGS_FIELD_SIZE in H; lia).
  eauto.
Qed.

Lemma finite_not_finite e :
  isnan e || isinf e = false -> not_finite (Prim2SF e) = false.
Proof.
  intros H. apply orb_false_iff in H. destruct H as [Hn Hi].
  apply isnan_number in Hn. unfold number in Hn.
  unfold isinf in Hi. rewrite FloatAxioms.eqb_spec, abs_spec in Hi.
  destruct (Prim2SF e) as [[]|[]| |[] m ex]; try reflexivity; discriminate.
Qed.

Lemma sub_self e :
  not_finite (Prim2SF e) = false -> Prim2SF (e - e) = S754_zero false.
Proof.
  intros H. rewrite FloatAxioms.sub_spec.
  destruct (Prim2SF e) as [[]|[]| |s m ex]; try discriminate; try reflexivity.
  unfold SF64sub. cbn [SFsub]. cbv zeta. now rewrite Z.sub_diag.
Qed.

Lemma sum_of_zeros l : forall a,
  Prim2SF a = S754_zero false ->
  Forall (fun x => Prim2SF x = S754_zero false) l ->
  Prim2SF (fold_left PrimFloat.add l a) = S754_zero false.
Proof.
  induction l as [|x l IH]; intros a Ha Hl; cbn [fold_left]; auto.
  inversion Hl as [|? ? Hx Hl']; subst. apply IH; auto.
  now rewrite FloatAxioms.add_spec, Ha, Hx.
Qed.

(** Equal energies whose mean is computed without rounding. *)
Lemma equal_energies_stable l e :
  (1 <= length l <= HIGGS_FIELD_SIZE)%nat ->
  Forall (fun x => x = e) l -> isnan e || isinf e = false ->
  SpecStability.mean l = e ->
  SpecStability.stability l = 1.0.
Proof.
  intros Hn Hl He Hm. apply finite_not_finite in He.
  unfold SpecStability.stability.
  assert (V : Prim2SF (SpecStability.variance l) = S754_zero false).
  { unfold SpecStability.variance, SpecStability.sum.
    rewrite FloatAxioms.div_spec, Hm.
    destruct (of_count_finite _ Hn) as (m & ex & ->).
    rewrite sum_of_zeros; [reflexivity|reflexivity|].
    apply Forall_map. eapply Forall_impl; [|exact Hl]. cbn beta.
    intros x ->. rewrite FloatAxioms.mul_spec, sub_self by exact He.
    reflexivity. }
  rewrite FloatAxioms.ltb_spec, V. reflexivity.
Qed.

End StabilityFacts.

(* ================================================================== *)
(** ** Claims on the free stack *)

Module FreeAllClaims.

Import Double FreeAll DoubleFacts.
Open Scope float_scope.

(** The pressure signal has two levels. *)
Lemma pressure_levels st :
  monitor_memory_pressure st = 0.9 \/ monitor_memory_pressure st = 0.5.
Proof. unfold monitor_memory_pressure. destruct (_ >? _); auto. Qed.

(** Neither level is above the threshold 0.9 that [free_all_tickstack]
    asks the pressure to exceed. *)
Lemma pressure_never_above st :
  (monitor_memory_pressure st >? MEMORY_PRESSURE_THRESHOLD) = false.
Proof. destruct (pressure_levels st) as [-> | ->]; reflexivity. Qed.

Lemma cascade_from_freed cur : forall st,
  freed (cascade_from cur st) =
  freed st ++ filter (fun p => negb (p =? NULL)%Z) (map ptr cur).
Proof.
  induction cur as [|t cur IH]; intros st; simpl.
  - now rewrite app_nil_r.
  - rewrite IH. unfold is_valid_ptr.
    destruct (ptr t =? NULL)%Z; simpl; auto. now rewrite <- app_assoc.
Qed.

(** The cascade itself, were it reached, hands every non-null pending
    address to [free] once per entry and empties the stack. *)
Lemma tick_cascade_releases st :
  tick_stack (tick_cascade st) = [] /\ tick_count (tick_cascade st) = 0%nat /\
  freed (tick_cascade st) =
  freed st ++ filter (fun p => negb (p =? NULL)%Z) (map ptr (tick_stack st)).
Proof. unfold tick_cascade. cbn. auto using cascade_from_freed. Qed.

(** C1 (evaluation of the code; the claim does not hold of it).
    [free_all_tickstack] opens its cascade only when the pressure is
    strictly above 0.9, and the pressure is 0.9 at most. So in every state
    the call defers: nothing is handed to [free] and the stack keeps its
    entries and its count. In particular, with 922 pending frees the
    pressure is at the threshold, and after two calls handle 1 has been
    released zero times and all 922 entries are still pending, while the
    cascade behind the gate would have released it once. *)
Theorem cascade_gate_never_opens :
  (forall st,
     free_all_tickstack st =
     say "FREE_ALL: Low memory pressure, deferring cascade" st) /\
  (MEMORY_PRESSURE_THRESHOLD <=? monitor_memory_pressure Examples.crowded_stack)
    = true /\
  (let twice := free_all_tickstack (free_all_tickstack Examples.crowded_stack) in
   times_freed 1%Z twice = 0%nat /\ tick_count twice = 922%nat) /\
  times_freed 1%Z (tick_cascade Examples.crowded_stack) = 1%nat.
Proof.
  split.
  - intros st. unfold free_all_tickstack. now rewrite pressure_never_above.
  - vm_compute. auto.
Qed.

(** C8 (evaluation of the code; the claim does not hold of it). The
    dampening at the end of [fuzzy_score_point] and the penalty in
    [tick_push] give the same result exactly on the scores other than the
    threshold 0.7: at 0.7 the registry multiplies by 0.8 and the free
    stack does not. Both paths reach that score: a point of mass 1.4 gets
    priority 0.7 * 0.8 in a fresh registry, and a free of 2048 bytes with
    two references pushed under high pressure keeps the score 0.7. *)
Theorem dampening_differs_at_threshold :
  (forall s, HiggsKing.dampen s = penalize s <-> (s =? 0.7) = false) /\
  HiggsKing.priorities
    (HiggsKing.insert (ops := SpecTickStack.reference) Examples.fresh
       Examples.threshold_mass) = [0.7 * 0.8] /\
  map fuzzy_score
    (firstn 1 (tick_stack (tick_push true 923%Z 2048%Z 2%Z Examples.crowded_stack)))
  = [0.7].
Proof.
  split; [|split; vm_compute; reflexivity].
  intros s. unfold HiggsKing.dampen, penalize,
    HiggsKing.FUZZY_CONFIDENCE_THRESHOLD, FUZZY_CONFIDENCE_THRESHOLD.
  split.
  - intros H. destruct (s =? 0.7) eqn:E; auto. exfalso.
    apply (eqb_finite s 0.7 false 6305039478318694 (-53)) in E; [|reflexivity].
    subst s. apply (f_equal (fun x => x <? 0.6)) in H. vm_compute in H.
    discriminate.
  - intros E. destruct (s >? 0.7) eqn:G.
    + unfold gtb in G. now rewrite (ltb_asym _ _ G).
    + destruct (s <? 0.7) eqn:L; auto. unfold gtb in G.
      apply nan_mul. apply (unordered_nan s 0.7); auto. reflexivity.
Qed.

End FreeAllClaims.

(* ================================================================== *)
(** ** Claims on the registry *)

Module RegistryClaims.

Import Double TickStack11d HiggsKing DoubleFacts ArrayFacts SortFacts
       InsertFacts StepFacts RegistryFacts PriorityFacts StabilityFacts.
Open Scope float_scope.

(** The tick stack written from the specification obeys the laws. *)
Lemma reference_laws : TickStackLaws SpecTickStack.reference.
Proof.
  constructor; try reflexivity.
  intros ts v.
  change (PUSH_LITERAL ts v) with (SpecTickStack.push_literal ts v).
  unfold SpecTickStack.push_literal.
  destruct (literal_count ts <? TICKSTACK_SIZE)%nat; auto.
  unfold literal_count. cbn [literals]. rewrite length_app, Nat.add_comm.
  reflexivity.
Qed.

Lemma strncpy_short n s : (String.length s <= n)%nat -> strncpy n s = s.
Proof.
  revert n; induction s as [|c s IH]; intros [|n] H; simpl in *; auto; try lia.
  f_equal. apply IH. lia.
Qed.

Lemma strncpy_substring n s : strncpy n s = substring 0 n s.
Proof.
  revert n; induction s as [|c s IH]; intros [|n]; simpl; auto.
  now rewrite IH.
Qed.

Lemma strncpy_length n s :
  String.length (strncpy n s) = Nat.min n (String.length s).
Proof.
  revert n; induction s as [|c s IH]; intros [|n]; simpl; auto.
Qed.

Section WithTickStack.

Context {ops : TickStackOps}.

(** C2. Whatever calls of [add_higgs_point] a program makes on a fresh
    registry, the priorities of the stored points, read from index 0
    upward, never increase. And one more call either leaves the stored
    points as they are or puts its point [p] at an index [k] between them,
    the others keeping their order: every point behind [p] has a strictly
    smaller priority, so a stored point whose priority equals that of [p]
    stays in front of it. *)
Theorem insertion_keeps_descending_order mem calls :
  length (points mem) = HIGGS_FIELD_SIZE ->
  let f := insert_all (init_higgs_field mem) calls in
  non_increasing (priorities f) /\
  forall c,
    stored (insert f c) = stored f \/
    exists p k,
      stored (insert f c) = firstn k (stored f) ++ p :: skipn k (stored f) /\
      Forall (fun q => (fuzzy_score q <? fuzzy_score p) = true)
             (skipn k (stored f)) /\
      forall i q, nth_error (stored f) i = Some q ->
                  (fuzzy_score q =? fuzzy_score p) = true -> (i < k)%nat.
Proof.
  intros Hmem f.
  assert (Hok : registry_ok f) by (apply insert_all_ok, init_ok, Hmem).
  split.
  - apply descending_non_increasing, Hok.
  - intros c. destruct (insert_cases f c (ok_length _ Hok))
      as [E _ _ _ _|coords m id k _ _ _ [Hle Hpass _] E _ _ _ _]; auto.
    right. exists (new_point f coords m id), k. repeat split; auto.
    intros i q Hi Heq. destruct (Nat.lt_ge_cases i k) as [|Hge]; auto.
    exfalso. rewrite Forall_forall in Hpass.
    assert (Hin : In q (skipn k (stored f))).
    { rewrite <- (firstn_skipn k (stored f)) in Hi.
      rewrite nth_error_app2 in Hi by (rewrite length_firstn; lia).
      eapply nth_error_In; eauto. }
    apply Hpass, ltb_not_eqb in Hin. congruence.
Qed.

Lemma add_full f coords m id :
  point_count f = HIGGS_FIELD_SIZE ->
  add_higgs_point f coords m id =
  (f, ["Invalid input in add_higgs_point"%string]).
Proof.
  intros Hc. unfold add_higgs_point. rewrite Hc, Nat.leb_refl.
  destruct coords, id; reflexivity.
Qed.

(** C5 (as amended). The count of a registry never exceeds 100. A call
    on a registry that holds 100 points is turned down and returns the
    registry as it was, so no stored point is evicted; what it reports is
    the line ["Invalid input in add_higgs_point"], the very line a call
    with a null position or a null tag reports on any registry: the code
    has one diagnostic for these causes and none of its own for the
    capacity. And after any [n] calls with non-null arguments and a finite
    magnitude a fresh registry holds [min n 100] points: 100 after 101
    such calls. *)
Theorem capacity_is_enforced :
  (forall f, reachable f -> (point_count f <= HIGGS_FIELD_SIZE)%nat) /\
  (forall f coords m id,
     point_count f = HIGGS_FIELD_SIZE ->
     add_higgs_point f coords m id =
     (f, ["Invalid input in add_higgs_point"%string])) /\
  (forall f coords m id,
     coords = None \/ id = None ->
     add_higgs_point f coords m id =
     (f, ["Invalid input in add_higgs_point"%string])) /\
  (forall mem calls,
     length (points mem) = HIGGS_FIELD_SIZE ->
     forallb well_formed_call calls = true ->
     point_count (insert_all (init_higgs_field mem) calls) =
     Nat.min (length calls) HIGGS_FIELD_SIZE).
Proof.
  split; [|split; [|split]].
  - intros f Hf. apply (reachable_ok _ _ Hf).
  - apply add_full.
  - intros f coords m id [-> | ->]; [reflexivity|].
    unfold add_higgs_point. now destruct coords.
  - intros mem calls Hmem.
    assert (G : forall calls f, registry_ok f ->
      forallb well_formed_call calls = true ->
      point_count (insert_all f calls) =
      Nat.min (point_count f + length calls) HIGGS_FIELD_SIZE).
    { clear. induction calls as [|c calls IH]; intros f Hok Hwf.
      - cbn. pose proof (ok_count _ Hok). lia.
      - cbn [forallb] in Hwf. apply andb_prop in Hwf. destruct Hwf as [Hc Hwf].
        cbn [insert_all fold_left]. fold (insert_all (insert f c) calls).
        rewrite IH by auto using insert_ok. cbn [length].
        pose proof (ok_count _ Hok) as Hcnt.
        destruct (Nat.eq_dec (point_count f) HIGGS_FIELD_SIZE) as [Hfull|Hroom].
        + unfold insert. rewrite add_full by assumption. cbn [fst].
          rewrite Hfull. lia.
        + unfold insert, well_formed_call in *.
          destruct c as [[v|] m [i|]]; cbn [call_coords call_mass call_id] in *;
            try discriminate.
          apply negb_true_iff in Hc.
          rewrite add_accepted_eq; [|split; [apply Hok|lia]|exact Hc].
          cbn [fst point_count]. lia. }
    intros Hwf. rewrite G; auto using init_ok.
Qed.

(** C7 (as amended). [monitor_field_stability] has exactly two results,
    1.0 and 0.5. A registry without points counts as stable. On a registry
    with points the result is 1.0 exactly when the variance of the stored
    energies, as double arithmetic computes it (the energies added in the
    order of the slots and divided by the count for the mean, the squared
    deviations from that mean added and divided by the count), is below
    the tolerance 1e-6. That value is not the exact variance: points of
    one and the same finite energy are stable whenever their mean is
    computed without rounding, and need not be when it is rounded. An
    energy that is NaN or infinite always makes the registry unstable.
    Three points of equal energy are stable, and the same registry with a
    fourth point of a hundred times that energy is not. *)
Theorem stability_is_two_level :
  (forall f, monitor_field_stability f = 1.0 \/ monitor_field_stability f = 0.5) /\
  (forall f, point_count f = 0%nat -> monitor_field_stability f = 1.0) /\
  (forall f, (0 < point_count f <= length (points f))%nat ->
     monitor_field_stability f =
     SpecStability.stability (map energy (stored f)) /\
     (monitor_field_stability f = 1.0 <->
      (SpecStability.variance (map energy (stored f))
       <? SpecStability.tolerance) = true)) /\
  (forall f e,
     (0 < point_count f <= HIGGS_FIELD_SIZE)%nat ->
     (point_count f <= length (points f))%nat ->
     Forall (fun p => energy p = e) (stored f) ->
     isnan e || isinf e = false ->
     SpecStability.mean (map energy (stored f)) = e ->
     monitor_field_stability f = 1.0) /\
  (forall f p,
     In p (stored f) -> isnan (energy p) || isinf (energy p) = true ->
     monitor_field_stability f = 0.5) /\
  monitor_field_stability Examples.calm = 1.0 /\
  monitor_field_stability Examples.disturbed = 0.5.
Proof.
  split; [apply stability_values|].
  split; [|split; [|split; [|split]]].
  - intros f H. unfold monitor_field_stability. now rewrite H.
  - intros f Hf. pose proof (monitor_field_stability_spec f Hf) as E.
    split; [exact E|]. rewrite E. unfold SpecStability.stability.
    destruct (_ <? _); split; auto; try discriminate.
  - intros f e Hc Hl Hall He Hm.
    rewrite monitor_field_stability_spec by lia.
    apply (equal_energies_stable _ e); auto.
    + rewrite length_map, stored_length by exact Hl. exact Hc.
    + now apply Forall_map.
  - apply not_finite_energy_unstable.
  - split; vm_compute; reflexivity.
Qed.

(** C4 (as amended). In every registry built by [init_higgs_field],
    [add_higgs_point] and [higgs_interaction], the priority of every
    stored point is at most 1, and an interaction changes no priority.
    The priority is also at least 0 when no call gave a mass below zero
    (and the magnitude of the tick stack is a norm, never below zero). *)
Theorem priorities_are_bounded :
  (forall f, reachable f ->
     Forall (fun s => (s <=? 1) = true) (priorities f)) /\
  (forall f f' out,
     higgs_interaction f = Some (f', out) -> priorities f' = priorities f) /\
  (magnitude_not_negative ops ->
   forall f, reachable_by (fun c => (call_mass c <? 0) = false) f ->
     Forall (fun s => (0 <=? s) = true /\ (s <=? 1) = true) (priorities f)).
Proof.
  split; [|split].
  - apply reachable_priorities. intros. apply new_point_le_one.
  - intros f f' out H. now apply higgs_interaction_frame in H.
  - intros Hmag. apply reachable_priorities. intros f coords m id Hm R M.
    split; [now apply new_point_not_negative|apply new_point_le_one].
Qed.

(** C6 (as amended). A call whose tag pointer is null, or whose position
    has a NaN or infinite magnitude, is turned down with one diagnostic,
    and the registry keeps its count, its stored points, its tick stack
    and its coupling factor. *)
Theorem rejected_insert_keeps_registry f coords m id :
  id = None \/
  (exists v, coords = Some v /\
     isnan (vector_magnitude v) || isinf (vector_magnitude v) = true) ->
  let r := add_higgs_point f coords m id in
  (snd r = ["Invalid input in add_higgs_point"%string] \/
   snd r = ["Invalid magnitude in add_higgs_point"%string]) /\
  point_count (fst r) = point_count f /\
  stored (fst r) = stored f /\
  tick_stack (fst r) = tick_stack f /\
  coupling_factor (fst r) = coupling_factor f.
Proof.
  intros [->|(v & -> & Hbad)]; cbn zeta.
  - unfold add_higgs_point. destruct coords; cbn; auto.
  - destruct id as [id|]; [|cbn; auto].
    unfold add_higgs_point.
    destruct (HIGGS_FIELD_SIZE <=? point_count f)%nat; [cbn; auto|].
    cbn [point_count set_count assign points set_points]. rewrite Hbad.
    cbn [fst snd]. unfold stored, assign, set_points, set_count.
    cbn [points point_count tick_stack coupling_factor].
    replace (S (point_count f) - 1)%nat with (point_count f) by lia.
    rewrite firstn_store. auto.
Qed.

(** C9. In a registry built by [init_higgs_field], [add_higgs_point] and
    [higgs_interaction] alone, whenever fewer than two literals have been
    pushed an interaction reports its diagnostic and returns the registry
    as it was. *)
Theorem step_needs_two_literals `{!TickStackLaws ops} f :
  reachable f ->
  (literal_count (tick_stack f) < 2)%nat ->
  higgs_interaction f =
  Some (f, ["Invalid field or insufficient points in higgs_interaction"%string]).
Proof.
  intros Hf Hl. rewrite (reachable_literals _ _ Hf) in Hl.
  unfold higgs_interaction, TICKSTACK_SIZE in *.
  destruct (Nat.ltb_spec (point_count f) 2); [reflexivity|lia].
Qed.

(** C10. A call that is taken in stores, with its point, the first 31
    characters of the tag it was given: the tag itself when it has at most
    31 characters, and otherwise its 31-character prefix, without any
    diagnostic. *)
Theorem stored_tag_is_31_char_prefix f coords m id :
  has_room f -> finite_magnitude coords ->
  let r := add_higgs_point f (Some coords) m (Some id) in
  snd r = [] /\
  exists p k,
    stored (fst r) = firstn k (stored f) ++ p :: skipn k (stored f) /\
    field p = firstn HIGGS_FIELD_DIM coords /\ mass p = m /\
    insert_id p = substring 0 31 id /\
    String.length (insert_id p) = Nat.min 31 (String.length id) /\
    ((String.length id <= 31)%nat -> insert_id p = id).
Proof.
  intros Hroom Hmag r. subst r. split.
  - now rewrite add_accepted_eq.
  - pose proof (insert_cases f (mkCall (Some coords) m (Some id)) (proj1 Hroom))
      as [_ C _ _ _|coords' m' id' k [= <- <- <-] _ _ _ E _ _ _ _].
    + exfalso. unfold insert in C. cbn [call_coords call_mass call_id] in C.
      rewrite add_accepted_eq in C by assumption. cbn in C. lia.
    + exists (new_point f coords m id), k. unfold insert in E.
      cbn [call_coords call_mass call_id] in E. split; [exact E|].
      cbn [new_point field mass insert_id].
      rewrite <- strncpy_substring, strncpy_length.
      repeat split. apply strncpy_short.
Qed.

(** C3 (as amended). In a registry built by [init_higgs_field],
    [add_higgs_point] and [higgs_interaction] alone, with at least two
    literals pushed and a record 0 in the recomputed topology, one
    interaction sets the coupling factor to [0.125 * stability] and then
    treats every stored point by the anchor record alone: a point whose
    priority is below 0.7 keeps its energy and mass; so does every point
    when the anchor's magnitude or harmonic factor is NaN or infinite;
    otherwise the energy of a point with priority at least 0.7 is
    multiplied by [1 + coupling * anchor.magnitude] and its mass by
    [1 + coupling * anchor.harmonic_factor], whatever the products are.
    Positions, priorities, flags and tags stay, and the only reports are
    those of the guard on the anchor, one per point at or above 0.7. *)
Theorem interaction_scales_by_anchor `{!TickStackLaws ops} f a :
  reachable f ->
  (2 <= literal_count (tick_stack f))%nat ->
  hd_error (delta_topology (compute_multivar_delta_topology (tick_stack f)))
    = Some a ->
  exists f',
    higgs_interaction f = Some (f', instability_reports a (stored f)) /\
    let c := HIGGS_COUPLING_BASE * monitor_field_stability f in
    coupling_factor f' = c /\
    point_count f' = point_count f /\
    forall i p, nth_error (stored f) i = Some p ->
      exists p', nth_error (stored f') i = Some p' /\
        field p' = field p /\ fuzzy_score p' = fuzzy_score p /\
        is_interacting p' = is_interacting p /\ insert_id p' = insert_id p /\
        if (fuzzy_score p <? FUZZY_CONFIDENCE_THRESHOLD) || anchor_unusable a
        then energy p' = energy p /\ mass p' = mass p
        else energy p' = energy p * (1.0 + c * magnitude a) /\
             mass p' = mass p * (1.0 + c * harmonic_factor a).
Proof.
  intros Hf Hl Ha.
  pose proof (reachable_ok _ _ Hf) as [Hlen Hcnt _ _].
  rewrite (reachable_literals _ _ Hf) in Hl.
  destruct (higgs_interaction_spec a f x_keeps_topology) as (f' & E & CF & C & P);
    auto; [lia|].
  exists f'. split; [exact E|]. cbn zeta. repeat split; auto.
  intros i p Hp.
  assert (S' : stored f' = map (coupled (coupling_factor f') a) (stored f)).
  { unfold stored at 1. rewrite C, P, firstn_app, length_map.
    unfold stored at 2. rewrite length_firstn, Nat.min_l by lia.
    rewrite Nat.sub_diag, firstn_O, app_nil_r.
    apply firstn_all2. rewrite length_map. unfold stored.
    rewrite length_firstn. lia. }
  exists (coupled (coupling_factor f') a p). rewrite S', nth_error_map, Hp.
  split; [reflexivity|]. rewrite CF. unfold coupled.
  destruct (fuzzy_score p <? FUZZY_CONFIDENCE_THRESHOLD); cbn [orb].
  { repeat split. }
  destruct (anchor_unusable a); repeat split.
Qed.

End WithTickStack.

(** *** The statements on sample data *)

#[local] Existing Instance SpecTickStack.reference.

Lemma fresh_reachable allowed : reachable_by allowed Examples.fresh.
Proof. apply reach_init. reflexivity. Qed.

Lemma step_reachable allowed f :
  reachable_by allowed f -> higgs_interaction f <> None ->
  reachable_by allowed (Examples.step f).
Proof.
  intros Hf Hs. unfold Examples.step.
  destruct (higgs_interaction f) as [[f' out]|] eqn:E; [|congruence].
  eapply reach_step; eauto.
Qed.

(** C7, on the registry of the demo. *)
Lemma stability_is_two_level_witness :
  (0 < point_count Examples.demo <= length (points Examples.demo))%nat /\
  monitor_field_stability Examples.demo =
  SpecStability.stability (map energy (stored Examples.demo)).
Proof.
  assert (H : (0 < point_count Examples.demo
               <= length (points Examples.demo))%nat) by (vm_compute; lia).
  split; [exact H|].
  exact (proj1 (proj1 (proj2 (proj2 stability_is_two_level)) Examples.demo H)).
Defined.

(** C7 (as stated) fails: three points of one and the same energy, whose
    variance is 0, are reported unstable. The sum of the three energies is
    rounded, the mean comes out one below the energy, and the variance that
    is computed is 1. *)
Lemma equal_energies_are_reported_unstable :
  reachable MoreExamples.heavy_triple /\
  map energy (stored MoreExamples.heavy_triple) =
    [6180339887498950; 6180339887498950; 6180339887498950] /\
  mean_energy MoreExamples.heavy_triple = 6180339887498949 /\
  energy_variance MoreExamples.heavy_triple = 1 /\
  monitor_field_stability MoreExamples.heavy_triple = 0.5.
Proof.
  split; [|repeat split; vm_compute; reflexivity].
  unfold MoreExamples.heavy_triple, insert_all. cbn [fold_left].
  repeat (apply reach_add; [|exact I]). apply fresh_reachable.
Qed.

(** C2, on the two points of the demo. *)
Lemma insertion_keeps_descending_order_witness :
  length (points Examples.blank) = HIGGS_FIELD_SIZE /\
  non_increasing (priorities Examples.demo).
Proof.
  split; [reflexivity|].
  apply (insertion_keeps_descending_order Examples.blank
           [Examples.point1; Examples.point2]).
  reflexivity.
Defined.

(** C5 (as stated) fails: the 101st call, whose arguments are in order,
    is turned down with the line of an invalid input, the line that a call
    with a null position gets on the same registry. No report names the
    capacity. *)
Lemma capacity_report_is_invalid_input :
  point_count MoreExamples.full = HIGGS_FIELD_SIZE /\
  well_formed_call MoreExamples.call_101 = true /\
  add_higgs_point MoreExamples.full (call_coords MoreExamples.call_101)
    (call_mass MoreExamples.call_101) (call_id MoreExamples.call_101)
  = (MoreExamples.full, ["Invalid input in add_higgs_point"%string]) /\
  add_higgs_point MoreExamples.full None
    (call_mass MoreExamples.call_101) (call_id MoreExamples.call_101)
  = (MoreExamples.full, ["Invalid input in add_higgs_point"%string]).
Proof.
  split; [vm_compute; reflexivity|].
  split; [vm_compute; reflexivity|].
  split; [apply add_full; vm_compute; reflexivity|reflexivity].
Qed.

(** C5 (as amended), on 101 calls. *)
Lemma capacity_is_enforced_witness :
  forallb well_formed_call Examples.crowd = true /\
  point_count (insert_all Examples.fresh Examples.crowd) = 100%nat.
Proof.
  assert (H : forallb well_formed_call Examples.crowd = true)
    by (vm_compute; reflexivity).
  split; [exact H|].
  exact (proj2 (proj2 (proj2 capacity_is_enforced)) Examples.blank
           Examples.crowd eq_refl H).
Defined.

(** C4 (as stated) fails: a call with mass -1.0 on a fresh registry stores
    a point of priority -0.4. *)
Lemma negative_mass_gives_negative_priority :
  reachable Examples.insert_negative_mass /\
  priorities Examples.insert_negative_mass = [-0.4] /\
  (0 <=? -0.4) = false.
Proof.
  split; [|split; vm_compute; reflexivity].
  apply reach_add; [apply fresh_reachable|exact I].
Qed.

(** C4 (as amended), on the registry of the demo. *)
Lemma priorities_are_bounded_witness :
  Forall (fun s => (0 <=? s) = true /\ (s <=? 1) = true)
         (priorities Examples.demo).
Proof.
  apply (proj2 (proj2 priorities_are_bounded) reference_magnitude).
  unfold Examples.demo, insert_all. cbn [fold_left].
  repeat (apply reach_add; [|reflexivity]). apply fresh_reachable.
Defined.

(** C6 (as stated) fails: a call with an empty tag is taken in. Nothing is
    reported, the count goes from 0 to 1, and the stored tag is empty. *)
Lemma empty_tag_is_accepted :
  call_id Examples.empty_tag = Some EmptyString /\
  point_count Examples.fresh = 0%nat /\
  add_higgs_point Examples.fresh (call_coords Examples.empty_tag)
    (call_mass Examples.empty_tag) (call_id Examples.empty_tag)
  = (Examples.insert_empty_tag, []) /\
  point_count Examples.insert_empty_tag = 1%nat /\
  map insert_id (stored Examples.insert_empty_tag) = [EmptyString].
Proof. vm_compute. auto. Qed.

(** C6 (as amended), on a null tag. *)
Lemma rejected_insert_keeps_registry_witness :
  stored (fst (add_higgs_point Examples.demo (Some Examples.coords1) 1.0 None))
  = stored Examples.demo.
Proof.
  exact (proj1 (proj2 (proj2
    (rejected_insert_keeps_registry Examples.demo (Some Examples.coords1) 1.0
       None (or_introl eq_refl))))).
Defined.

(** C9, on a registry with one point. *)
Lemma step_needs_two_literals_witness :
  higgs_interaction Examples.single =
  Some (Examples.single,
        ["Invalid field or insufficient points in higgs_interaction"%string]).
Proof.
  apply (step_needs_two_literals (TickStackLaws0 := reference_laws)).
  - apply reach_add; [apply fresh_reachable|exact I].
  - vm_compute. lia.
Defined.

(** C10, on a tag of 40 characters. *)
Lemma stored_tag_is_31_char_prefix_witness :
  has_room Examples.demo /\ finite_magnitude Examples.coords1 /\
  exists p k,
    stored (fst (add_higgs_point Examples.demo (Some Examples.coords1) 1.0
                   (Some Examples.long_tag))) =
    firstn k (stored Examples.demo) ++ p :: skipn k (stored Examples.demo) /\
    insert_id p = "0123456789012345678901234567890"%string.
Proof.
  assert (R : has_room Examples.demo) by (split; vm_compute; lia).
  assert (M : finite_magnitude Examples.coords1) by (vm_compute; reflexivity).
  split; [exact R|]. split; [exact M|].
  destruct (stored_tag_is_31_char_prefix Examples.demo Examples.coords1 1.0
              Examples.long_tag R M) as (_ & p & k & E & _ & _ & T & _).
  exists p, k. split; [exact E|exact T].
Defined.

Lemma far_pair_twice_reachable : reachable Examples.far_pair_twice.
Proof.
  unfold Examples.far_pair_twice.
  repeat (apply step_reachable; [|vm_compute; discriminate]).
  unfold Examples.far_pair, insert_all. cbn [fold_left].
  repeat (apply reach_add; [|exact I]). apply fresh_reachable.
Qed.

(** C3 (as stated) fails: in a registry with two points and two literals,
    both points of priority 1.0 and of finite energy, the updates overflow;
    the interaction reports nothing and stores the infinite energies. *)
Lemma overflowing_update_is_stored :
  reachable Examples.far_pair_twice /\
  literal_count (tick_stack Examples.far_pair_twice) = 2%nat /\
  map fuzzy_score (stored Examples.far_pair_twice) = [1.0; 1.0] /\
  forallb (fun p => negb (isnan (energy p) || isinf (energy p)))
          (stored Examples.far_pair_twice) = true /\
  higgs_interaction Examples.far_pair_twice
    = Some (Examples.far_pair_thrice, []) /\
  map energy (stored Examples.far_pair_thrice) = [infinity; infinity].
Proof.
  split; [apply far_pair_twice_reachable|].
  split; [vm_compute; reflexivity|].
  split; [vm_compute; reflexivity|].
  split; [vm_compute; reflexivity|].
  split; vm_compute; reflexivity.
Qed.

(** C3 (as amended), on the registry of the demo. *)
Lemma interaction_scales_by_anchor_witness :
  exists f',
    higgs_interaction Examples.demo
      = Some (f', instability_reports Examples.demo_anchor
                    (stored Examples.demo)) /\
    coupling_factor f' =
    HIGGS_COUPLING_BASE * monitor_field_stability Examples.demo.
Proof.
  assert (Hr : reachable Examples.demo).
  { unfold Examples.demo, insert_all. cbn [fold_left].
    repeat (apply reach_add; [|exact I]). apply fresh_reachable. }
  assert (Hl : (2 <= literal_count (tick_stack Examples.demo))%nat)
    by (vm_compute; lia).
  assert (Ha : hd_error (delta_topology (compute_multivar_delta_topology
                 (tick_stack Examples.demo))) = Some Examples.demo_anchor)
    by (vm_compute; reflexivity).
  destruct (interaction_scales_by_anchor (TickStackLaws0 := reference_laws)
              Examples.demo Examples.demo_anchor Hr Hl Ha)
    as (f' & E & CF & _).
  exists f'. split; [exact E|exact CF].
Defined.

End RegistryClaims.

(* ================================================================== *)
(** ** The free stack: order, bookkeeping and scores *)

Module FreeStackFacts.

Import Double FreeAll FreeAllApi DoubleFacts.
Open Scope float_scope.

Lemma fuzzy_score_ptr_number st p sz rc : number (fuzzy_score_ptr st p sz rc).
Proof.
  unfold fuzzy_score_ptr. cbv zeta.
  set (sf := if (sz >? 1024)%Z then 0.9 else of_size sz / 1024.0).
  set (rf := if (rc >? 1)%Z then 0.7 else 0.3).
  assert (Hrf : number rf) by (subst rf; destruct (rc >? 1)%Z; reflexivity).
  assert (Hm : number (if sf <? rf then sf else rf)).
  { destruct (sf <? rf) eqn:E; auto. eapply ltb_number_l; eauto. }
  destruct (_ <? monitor_memory_pressure st) eqn:E; auto.
  destruct (FreeAllClaims.pressure_levels st) as [-> | ->]; reflexivity.
Qed.

Lemma penalize_number s : number s -> number (penalize s).
Proof.
  intros H. unfold penalize. destruct (_ <? _); auto.
  eapply mul_number; eauto. reflexivity.
Qed.

Lemma pushed_score_number st p sz rc : number (pushed_score st p sz rc).
Proof. apply penalize_number, fuzzy_score_ptr_number. Qed.

(** Where the walk of [tick_push] links the new node. *)
Lemma link_after_split t : forall rest cur,
  exists front back,
    rest = front ++ back /\
    link_after cur rest t = cur :: front ++ t :: back /\
    Forall (fun e => (fuzzy_score e >? fuzzy_score t) = true) front /\
    match back with
    | [] => True
    | b :: _ => (fuzzy_score b >? fuzzy_score t) = false
    end.
Proof.
  induction rest as [|nxt rest IH]; intros cur; cbn [link_after].
  - exists [], []. repeat split; auto.
  - destruct (fuzzy_score nxt >? fuzzy_score t) eqn:E.
    + destruct (IH nxt) as (front & back & -> & -> & F & B).
      exists (nxt :: front), back. repeat split; auto.
    + exists [], (nxt :: rest). repeat split; auto.
Qed.

Lemma insert_tick_split stack t :
  exists front back,
    stack = front ++ back /\
    insert_tick stack t = front ++ t :: back /\
    Forall (fun e => (fuzzy_score t >? fuzzy_score e) = false) front /\
    match back with
    | [] => True
    | b :: _ => (fuzzy_score b >? fuzzy_score t) = false
    end.
Proof.
  destruct stack as [|hd rest]; cbn [insert_tick].
  - exists [], []. repeat split; auto.
  - destruct (fuzzy_score t >? fuzzy_score hd) eqn:E.
    + exists [], (hd :: rest). repeat split; auto.
      unfold gtb in *. now apply ltb_asym.
    + destruct (link_after_split t rest hd) as (front & back & -> & -> & F & B).
      exists (hd :: front), back. repeat split; auto.
      constructor; auto.
      eapply Forall_impl; [|exact F]. cbn beta. intros e He.
      unfold gtb in *. now apply ltb_asym.
Qed.

Lemma insert_tick_sorted stack t :
  HiggsKing.descending (map fuzzy_score stack) ->
  Forall number (map fuzzy_score stack) ->
  number (fuzzy_score t) ->
  HiggsKing.descending (map fuzzy_score (insert_tick stack t)).
Proof.
  intros S N Nt.
  destruct (insert_tick_split stack t) as (front & back & -> & -> & F & B).
  unfold HiggsKing.descending in *.
  rewrite map_app in *. cbn [map].
  apply RegistryFacts.sorted_app in S. destruct S as (S1 & S2 & C).
  apply Forall_app in N. destruct N as [N1 N2].
  assert (Hback : Forall (fun y => (y <=? fuzzy_score t) = true)
                         (map fuzzy_score back)).
  { destruct back as [|b back]; [constructor|].
    cbn [map] in *. inversion S2 as [|? ? S2' Hb]; subst.
    inversion N2 as [|? ? Nb N2']; subst.
    assert (Hbt : (fuzzy_score b <=? fuzzy_score t) = true)
      by (apply not_gtb_leb; auto).
    constructor; auto.
    eapply Forall_impl; [|exact Hb]. cbn beta. intros y Hy.
    eapply leb_trans; eauto. }
  apply RegistryFacts.sorted_app. split; [exact S1|]. split.
  - constructor; auto.
  - intros a b Ha [<-|Hb].
    + rewrite Forall_forall in F, N1. apply in_map_iff in Ha.
      destruct Ha as (e & <- & He). apply not_gtb_leb; auto.
      apply N1, in_map, He.
    + now apply C.
Qed.

Lemma insert_tick_length stack t :
  length (insert_tick stack t) = S (length stack).
Proof.
  destruct (insert_tick_split stack t) as (front & back & -> & -> & _).
  rewrite !length_app. cbn. lia.
Qed.

Lemma insert_tick_perm stack t : Permutation (insert_tick stack t) (t :: stack).
Proof.
  destruct (insert_tick_split stack t) as (front & back & -> & -> & _).
  symmetry. apply Permutation_middle.
Qed.

(** The three ways a call of [tick_push] ends. *)
Lemma tick_push_refused ok p sz rc st :
  (p =? NULL)%Z || (MAX_TICK_STACK <=? tick_count st)%nat || negb ok = true ->
  exists msg, tick_push ok p sz rc st = say msg st.
Proof.
  unfold tick_push. intros H.
  destruct ((p =? NULL)%Z || (MAX_TICK_STACK <=? tick_count st)%nat);
    [eauto|].
  cbn [orb] in H. rewrite H. eauto.
Qed.

Lemma tick_push_accepted ok p sz rc st :
  (p =? NULL)%Z || (MAX_TICK_STACK <=? tick_count st)%nat || negb ok = false ->
  tick_push ok p sz rc st =
  mkState (insert_tick (tick_stack st) (mkTick p sz rc (pushed_score st p sz rc)))
          (S (tick_count st)) (freed st) (output st).
Proof.
  unfold tick_push. intros H. apply orb_false_iff in H. destruct H as [-> ->].
  reflexivity.
Qed.

Lemma say_ok msg st : stack_ok st -> stack_ok (say msg st).
Proof. intros []. constructor; auto. Qed.

Lemma tick_push_ok ok p sz rc st : stack_ok st -> stack_ok (tick_push ok p sz rc st).
Proof.
  intros Hok.
  destruct ((p =? NULL)%Z || (MAX_TICK_STACK <=? tick_count st)%nat || negb ok)
    eqn:E.
  - destruct (tick_push_refused _ _ sz rc _ E) as [msg ->]. now apply say_ok.
  - rewrite (tick_push_accepted _ _ _ _ _ E).
    apply orb_false_iff in E. destruct E as [E _].
    apply orb_false_iff in E. destruct E as [Ep Ec].
    apply Z.eqb_neq in Ep. apply Nat.leb_gt in Ec.
    destruct Hok as [Hc Hr Hp Hs Hn].
    constructor; cbn [tick_stack tick_count].
    + rewrite insert_tick_length. lia.
    + lia.
    + rewrite Forall_forall in *. intros e He.
      apply (Permutation_in _ (insert_tick_perm _ _)) in He.
      destruct He as [<-|He]; auto.
    + apply insert_tick_sorted; auto. apply pushed_score_number.
    + rewrite Forall_forall in *. intros x Hx. apply in_map_iff in Hx.
      destruct Hx as (e & <- & He).
      apply (Permutation_in _ (insert_tick_perm _ _)) in He.
      destruct He as [<-|He]; [apply pushed_score_number|].
      apply Hn, in_map, He.
Qed.

Lemma tick_cascade_ok st : stack_ok (tick_cascade st).
Proof.
  constructor; cbn; auto. - unfold MAX_TICK_STACK. lia. - constructor.
Qed.

Lemma free_all_tickstack_defers st :
  free_all_tickstack st =
  say "FREE_ALL: Low memory pressure, deferring cascade" st.
Proof.
  unfold free_all_tickstack. now rewrite FreeAllClaims.pressure_never_above.
Qed.

Lemma reachable_stack_ok st : reachable st -> stack_ok st.
Proof.
  induction 1.
  - constructor; cbn; auto. + unfold MAX_TICK_STACK. lia. + constructor.
  - now apply tick_push_ok.
  - apply tick_cascade_ok.
  - rewrite free_all_tickstack_defers. now apply say_ok.
  - now apply say_ok.
Qed.

(** The cascade writes nothing: its warning sits behind a test that the
    test in front of it excludes. *)
Lemma cascade_from_output cur : forall st,
  output (cascade_from cur st) = output st.
Proof.
  induction cur as [|t cur IH]; intros st; cbn [cascade_from]; auto.
  rewrite IH. unfold is_valid_ptr.
  destruct (ptr t =? NULL)%Z; reflexivity.
Qed.

Lemma filter_nonnull l :
  Forall (fun p => p <> NULL) l ->
  filter (fun p => negb (p =? NULL)%Z) l = l.
Proof.
  induction 1 as [|p l Hp _ IH]; cbn; auto.
  apply Z.eqb_neq in Hp. rewrite Hp. cbn. now rewrite IH.
Qed.

Lemma count_occ_filter_nonnull l p :
  p <> NULL ->
  count_occ Z.eq_dec (filter (fun p => negb (p =? NULL)%Z) l) p =
  count_occ Z.eq_dec l p.
Proof.
  intros Hp. induction l as [|q l IH]; cbn [filter]; auto.
  destruct (q =? NULL)%Z eqn:E; cbn [negb count_occ].
  - apply Z.eqb_eq in E. destruct (Z.eq_dec q p); [congruence|auto].
  - destruct (Z.eq_dec q p); auto.
Qed.

Lemma tick_cascade_freed st :
  reachable st -> freed (tick_cascade st) = freed st ++ pending st.
Proof.
  intros H. destruct (FreeAllClaims.tick_cascade_releases st) as (_ & _ & ->).
  f_equal. apply filter_nonnull. unfold pending.
  destruct (reachable_stack_ok _ H) as [_ _ Hp _ _].
  rewrite Forall_forall in *. intros q Hq. apply in_map_iff in Hq.
  destruct Hq as (e & <- & He). auto.
Qed.

End FreeStackFacts.

Module FreeStackProperties.

Import Double FreeAll FreeAllApi DoubleFacts FreeStackFacts.
Open Scope float_scope.

Lemma submit_many_reachable n sz rc st :
  reachable st -> reachable (submit_many n sz rc st).
Proof. intros H. induction n; cbn [submit_many]; auto using reach_push. Qed.

(** X1. In every state of the free stack that calls of [tick_push],
    [tick_cascade] and [free_all_tickstack] lead to, [tick_count] is the
    number of entries of the stack, it is at most 1024, and no entry holds
    a null address. *)
Theorem free_stack_count_is_exact st :
  reachable st ->
  tick_count st = length (tick_stack st) /\
  (tick_count st <= MAX_TICK_STACK)%nat /\
  Forall (fun t => ptr t <> NULL) (tick_stack st).
Proof.
  intros H. destruct (reachable_stack_ok _ H). auto.
Qed.

(** X2. In every such state the scores of the entries, read from the top
    of the stack down, never increase, and none of them is a NaN: the
    cascade meets the entries by priority. *)
Theorem free_stack_is_sorted st :
  reachable st ->
  HiggsKing.non_increasing (map fuzzy_score (tick_stack st)) /\
  Forall number (map fuzzy_score (tick_stack st)).
Proof.
  intros H. destruct (reachable_stack_ok _ H). split; auto.
  now apply RegistryFacts.descending_non_increasing.
Qed.

(** X3. A call of [tick_push] never frees anything. When the address is
    null, the stack holds 1024 entries or [malloc] fails, it writes one
    line and leaves the stack and the count as they are: the address is
    not recorded. Otherwise it writes nothing, adds one to the count and
    links one new entry into the stack, the entries before and behind it
    keeping their order. *)
Theorem tick_push_outcome ok p sz rc st :
  let st' := tick_push ok p sz rc st in
  freed st' = freed st /\
  if (p =? NULL)%Z || (MAX_TICK_STACK <=? tick_count st)%nat || negb ok
  then tick_stack st' = tick_stack st /\ tick_count st' = tick_count st /\
       exists msg, output st' = output st ++ [msg]
  else output st' = output st /\ tick_count st' = S (tick_count st) /\
       exists front back,
         tick_stack st = front ++ back /\
         tick_stack st' =
         front ++ mkTick p sz rc (penalize (fuzzy_score_ptr st p sz rc)) :: back.
Proof.
  cbv zeta.
  destruct ((p =? NULL)%Z || (MAX_TICK_STACK <=? tick_count st)%nat || negb ok)
    eqn:E.
  - destruct (tick_push_refused _ _ sz rc _ E) as [msg ->]. cbn. eauto.
  - rewrite (tick_push_accepted _ _ _ _ _ E). cbn.
    repeat split.
    destruct (insert_tick_split (tick_stack st)
                (mkTick p sz rc (pushed_score st p sz rc)))
      as (front & back & E1 & E2 & _).
    exists front, back. split; auto.
Qed.

(** X4. On a state reached as above, [tick_cascade] hands the address of
    every entry to [free], from the top of the stack down, empties the
    stack and writes nothing: the warning for a double free is never
    given, and an address that was submitted [n] times is freed [n]
    times. *)
Theorem cascade_frees_every_entry st :
  reachable st ->
  let st' := tick_cascade st in
  tick_stack st' = [] /\ tick_count st' = 0%nat /\
  freed st' = freed st ++ pending st /\
  output st' = output st /\
  forall p, times_freed p st' =
            (times_freed p st + count_occ Z.eq_dec (pending st) p)%nat.
Proof.
  intros H. cbv zeta.
  pose proof (tick_cascade_freed st H) as F.
  repeat split; auto.
  - unfold tick_cascade. cbn [output]. apply cascade_from_output.
  - intros p. unfold times_freed. rewrite F. apply count_occ_app.
Qed.

(** X5. While the count is within the capacity of the stack,
    [monitor_memory_pressure] is 0.9 from 922 entries on and 0.5 below. *)
Theorem pressure_rises_at_922_entries st :
  (tick_count st <= MAX_TICK_STACK)%nat ->
  monitor_memory_pressure st =
  if (922 <=? tick_count st)%nat then 0.9 else 0.5.
Proof.
  intros H.
  assert (B : forallb (fun n =>
                Bool.eqb (of_count n >? of_count MAX_TICK_STACK
                                        * MEMORY_PRESSURE_THRESHOLD)
                         (922 <=? n)%nat) (seq 0 1025) = true)
    by (vm_compute; reflexivity).
  rewrite forallb_forall in B. specialize (B (tick_count st)).
  unfold monitor_memory_pressure.
  rewrite (eqb_prop _ _ (B ltac:(apply in_seq; unfold MAX_TICK_STACK in H; lia))).
  reflexivity.
Qed.

End FreeStackProperties.

(* ================================================================== *)
(** ** The scores on the free stack *)

Module FreeScoreProperties.

Import Double FreeAll FreeAllApi DoubleFacts FreeStackFacts.
Open Scope float_scope.

Lemma pushed_score_at st p sz rc :
  penalize (fuzzy_score_ptr st p sz rc) =
  score_at (monitor_memory_pressure st) (ref_factor_of rc) sz.
Proof. reflexivity. Qed.

Lemma large_size mp rf sz :
  (1024 < sz)%Z -> score_at mp rf sz = score_at mp rf 1025.
Proof.
  intros H. unfold score_at.
  replace (sz >? 1024)%Z with true by (symmetry; apply Z.gtb_lt; lia).
  reflexivity.
Qed.

(** A test that holds of the sizes 0 to 1025 holds of every size. *)
Lemma all_sizes (P : Z -> float -> bool) mp rf :
  forallb (fun k => P (Z.of_nat k) (score_at mp rf (Z.of_nat k))) (seq 0 1026)
    = true ->
  (forall sz s, (1025 <= sz)%Z -> P sz s = P 1025%Z s) ->
  forall sz, (0 <= sz)%Z -> P sz (score_at mp rf sz) = true.
Proof.
  intros B L sz H. rewrite forallb_forall in B.
  destruct (Z_le_gt_dec sz 1025) as [Hs|Hl].
  - specialize (B (Z.to_nat sz)). rewrite Z2Nat.id in B by lia.
    apply B, in_seq. lia.
  - rewrite large_size, L by lia. apply (B 1025%nat), in_seq. lia.
Qed.

Ltac levels st rc :=
  rewrite ?pushed_score_at; unfold ref_factor_of;
  let E := fresh "Hpressure" in
  let R := fresh "Hrc" in
  destruct (FreeAllClaims.pressure_levels st) as [E | E]; rewrite ?E;
  destruct (rc >? 1)%Z eqn:R.

Lemma half_is_not_high : 0.5 <> 0.9.
Proof.
  intros H. apply (f_equal (fun x => x <? 0.6)) in H. vm_compute in H.
  discriminate.
Qed.

Lemma eqb_07 s : (s =? 0.7) = true <-> s = 0.7.
Proof.
  split.
  - apply (eqb_finite s 0.7 false 6305039478318694 (-53)). reflexivity.
  - intros ->. reflexivity.
Qed.

Lemma range_at mp rf (top : bool) :
  forallb (fun k =>
    let s := score_at mp rf (Z.of_nat k) in
    (0 <=? s) && (s <=? 0.7)
    && Bool.eqb (s =? 0.7) (top && (717 <=? Z.of_nat k)%Z)
    && ((s =? 0.7) || (s <=? 0.56))) (seq 0 1026) = true ->
  forall sz, (0 <= sz)%Z ->
    let s := score_at mp rf sz in
    (0 <=? s) = true /\ (s <=? 0.7) = true /\
    (s = 0.7 <-> top = true /\ (717 <= sz)%Z) /\
    (s <> 0.7 -> (s <=? 0.56) = true).
Proof.
  intros B sz Hsz. cbv zeta.
  pose proof (all_sizes (fun z s =>
    (0 <=? s) && (s <=? 0.7) && Bool.eqb (s =? 0.7) (top && (717 <=? z)%Z)
    && ((s =? 0.7) || (s <=? 0.56))) mp rf B) as A.
  cbv beta in A.
  assert (L : forall z (s : float), (1025 <= z)%Z ->
    (0 <=? s) && (s <=? 0.7) && Bool.eqb (s =? 0.7) (top && (717 <=? z)%Z)
    && ((s =? 0.7) || (s <=? 0.56)) =
    (0 <=? s) && (s <=? 0.7) && Bool.eqb (s =? 0.7) (top && (717 <=? 1025)%Z)
    && ((s =? 0.7) || (s <=? 0.56))).
  { intros z s Hz.
    replace (717 <=? z)%Z with (717 <=? 1025)%Z; [reflexivity|].
    destruct (Z.leb_spec 717 z), (Z.leb_spec 717 1025); lia. }
  specialize (A L sz Hsz). clear L B.
  rewrite !andb_true_iff in A. destruct A as [[[H0 H1] H2] H3].
  apply eqb_prop in H2.
  split; [exact H0|]. split; [exact H1|]. split; [split|].
  - intros E. apply eqb_07 in E. rewrite E in H2. symmetry in H2.
    apply andb_true_iff in H2. destruct H2 as [T Hz].
    split; [exact T|now apply Z.leb_le].
  - intros [T Hz]. apply eqb_07. rewrite H2, T. now apply Z.leb_le.
  - intros Hn. apply orb_true_iff in H3. destruct H3 as [H3|H3]; [|exact H3].
    apply eqb_07 in H3. contradiction.
Qed.

(** X6. The score stored with an entry lies between 0 and 0.7. It is 0.7
    exactly for a block of at least 717 bytes with a reference estimate
    above 1 that is pushed under high pressure; every other entry has a
    score of at most 0.56. *)
Theorem stored_scores_range st p sz rc :
  (0 <= sz)%Z ->
  let s := penalize (fuzzy_score_ptr st p sz rc) in
  (0 <=? s) = true /\ (s <=? 0.7) = true /\
  (s = 0.7 <->
   (1 < rc)%Z /\ (717 <= sz)%Z /\ monitor_memory_pressure st = 0.9) /\
  (s <> 0.7 -> (s <=? 0.56) = true).
Proof.
  intros Hsz. cbv zeta. levels st rc.
  - destruct (range_at 0.9 0.7 true) with (sz := sz) as (A & B & C & D);
      [vm_compute; reflexivity|exact Hsz|].
    apply Z.gtb_lt in Hrc.
    split; [exact A|]. split; [exact B|]. split; [|exact D].
    rewrite C. intuition.
  - destruct (range_at 0.9 0.3 false) with (sz := sz) as (A & B & C & D);
      [vm_compute; reflexivity|exact Hsz|].
    assert (Hr : ~ (1 < rc)%Z)
      by (intros Hr; apply Z.gtb_lt in Hr; congruence).
    split; [exact A|]. split; [exact B|]. split; [|exact D].
    rewrite C. intuition discriminate.
  - destruct (range_at 0.5 0.7 false) with (sz := sz) as (A & B & C & D);
      [vm_compute; reflexivity|exact Hsz|].
    pose proof half_is_not_high.
    split; [exact A|]. split; [exact B|]. split; [|exact D].
    rewrite C. intuition discriminate.
  - destruct (range_at 0.5 0.3 false) with (sz := sz) as (A & B & C & D);
      [vm_compute; reflexivity|exact Hsz|].
    pose proof half_is_not_high.
    split; [exact A|]. split; [exact B|]. split; [|exact D].
    rewrite C. intuition discriminate.
Qed.

Lemma level_off_at mp :
  forallb (fun k =>
    let s := score_at mp 0.3 (Z.of_nat k) in
    (s <=? 0.3 * 0.8) && (negb (308 <=? Z.of_nat k)%Z || (s =? 0.3 * 0.8)))
    (seq 0 1026) = true ->
  forall sz, (0 <= sz)%Z ->
    let s := score_at mp 0.3 sz in
    (s <=? 0.3 * 0.8) = true /\ ((308 <= sz)%Z -> s = 0.3 * 0.8).
Proof.
  intros B sz Hsz. cbv zeta.
  pose proof (all_sizes (fun z s =>
    (s <=? 0.3 * 0.8) && (negb (308 <=? z)%Z || (s =? 0.3 * 0.8)))
    mp 0.3 B) as A.
  cbv beta in A.
  assert (L : forall z (s : float), (1025 <= z)%Z ->
    (s <=? 0.3 * 0.8) && (negb (308 <=? z)%Z || (s =? 0.3 * 0.8)) =
    (s <=? 0.3 * 0.8) && (negb (308 <=? 1025)%Z || (s =? 0.3 * 0.8))).
  { intros z s Hz.
    replace (308 <=? z)%Z with (308 <=? 1025)%Z; [reflexivity|].
    destruct (Z.leb_spec 308 z), (Z.leb_spec 308 1025); lia. }
  specialize (A L sz Hsz). clear L B.
  rewrite andb_true_iff in A. destruct A as [H0 H1].
  split; [exact H0|]. intros Hz. apply orb_true_iff in H1.
  destruct H1 as [H1|H1].
  - apply negb_true_iff, Z.leb_gt in H1. lia.
  - eapply eqb_finite; [|exact H1]. vm_compute. reflexivity.
Qed.

(** X7. An entry submitted with a reference estimate of at most 1, as
    [free_1d], [free_list], [shoot_over_free] and the rows of [free_2d]
    and [free_3d] are, gets a score of at most [0.3 * 0.8], and exactly
    that score from 308 bytes on: above that size the priority no longer
    tells the blocks apart. *)
Theorem single_reference_scores_level_off st p sz rc :
  (0 <= sz)%Z -> (rc <= 1)%Z ->
  let s := penalize (fuzzy_score_ptr st p sz rc) in
  (s <=? 0.3 * 0.8) = true /\ ((308 <= sz)%Z -> s = 0.3 * 0.8).
Proof.
  intros Hsz Hr. cbv zeta.
  levels st rc; try (apply Z.gtb_lt in Hrc; lia).
  - apply level_off_at; [vm_compute; reflexivity|exact Hsz].
  - apply level_off_at; [vm_compute; reflexivity|exact Hsz].
Qed.

Lemma chain_leb (g : nat -> float) n :
  (forall k, (k <= n)%nat -> (g k <=? g k) = true) ->
  (forall k, (k < n)%nat -> (g k <=? g (S k)) = true) ->
  forall b a, (a <= b <= n)%nat -> (g a <=? g b) = true.
Proof.
  intros R S. induction b as [|b IH]; intros a H.
  - replace a with 0%nat by lia. apply R. lia.
  - destruct (Nat.eq_dec a (Datatypes.S b)) as [->|Hn]; [apply R; lia|].
    eapply leb_trans; [apply IH; lia|apply S; lia].
Qed.

Lemma score_at_monotone mp rf :
  forallb (fun k =>
    (score_at mp rf (Z.of_nat k) <=? score_at mp rf (Z.of_nat k))
    && (score_at mp rf (Z.of_nat k) <=? score_at mp rf (Z.of_nat (S k))))
    (seq 0 1026) = true ->
  forall sz1 sz2, (0 <= sz1 <= sz2)%Z ->
    (score_at mp rf sz1 <=? score_at mp rf sz2) = true.
Proof.
  intros B. rewrite forallb_forall in B.
  assert (C : forall a b, (a <= b <= 1025)%nat ->
    (score_at mp rf (Z.of_nat a) <=? score_at mp rf (Z.of_nat b)) = true).
  { intros a b H.
    apply (chain_leb (fun k => score_at mp rf (Z.of_nat k)) 1025); auto.
    - intros k Hk. specialize (B k ltac:(apply in_seq; lia)).
      now apply andb_true_iff in B.
    - intros k Hk. specialize (B k ltac:(apply in_seq; lia)).
      now apply andb_true_iff in B. }
  intros sz1 sz2 H.
  set (c := fun z => Z.to_nat (Z.min z 1025)).
  assert (E : forall z, (0 <= z)%Z ->
    score_at mp rf z = score_at mp rf (Z.of_nat (c z))).
  { intros z Hz. unfold c. rewrite Z2Nat.id by lia.
    destruct (Z_le_gt_dec z 1025).
    - now rewrite Z.min_l by lia.
    - rewrite Z.min_r by lia. apply large_size. lia. }
  rewrite (E sz1), (E sz2) by lia. apply C. unfold c. lia.
Qed.

(** X8. For a given reference estimate and state of the stack, a larger
    block never gets a lower score than a smaller one. *)
Theorem larger_blocks_rank_no_lower st p q sz1 sz2 rc :
  (0 <= sz1 <= sz2)%Z ->
  (penalize (fuzzy_score_ptr st p sz1 rc)
   <=? penalize (fuzzy_score_ptr st q sz2 rc)) = true.
Proof.
  intros H.
  levels st rc; (apply score_at_monotone; [vm_compute; reflexivity|exact H]).
Qed.

End FreeScoreProperties.

(* ================================================================== *)
(** ** The entry points of free_all.h *)

Module FreeApiFacts.

Import Double FreeAll FreeAllApi DoubleFacts FreeStackFacts.
Open Scope Z_scope.

Lemma fold_inv {A} (P : world -> Prop) (body : A -> world -> world) l :
  (forall i w, P w -> P (body i w)) ->
  forall w, P w -> P (fold_left (fun w i => body i w) l w).
Proof.
  intros Hb. induction l as [|i l IH]; intros w Hw; cbn [fold_left]; auto.
Qed.

Section Layout.

Variable sizeof_pointer : Z.
Variable sizeof_FreeNode : Z.
Variable load : pointer -> nat -> pointer.
Variable render_pointer : pointer -> string.

Abbreviation serve := (serve sizeof_pointer sizeof_FreeNode load render_pointer).
Abbreviation serve_all :=
  (serve_all sizeof_pointer sizeof_FreeNode load render_pointer).
Abbreviation submissions := (submissions load).
Abbreviation printed := (printed render_pointer).

(** What holds of a process before a call of an entry point holds after
    it, when calls of [tick_push] and lines of output keep it. *)
Lemma serve_inv (P : world -> Prop) :
  (forall p sz rc w, P w -> P (push p sz rc w)) ->
  (forall msg w, P w -> P (on_state (say msg) w)) ->
  forall r w, P w -> P (serve w r).
Proof.
  intros Hpush Hsay r w Hw.
  assert (Hcell : forall (g : nat -> pointer) sz rc i w,
            P w -> P (if g i =? NULL then w else push (g i) sz rc w)).
  { intros g sz rc i w0 H0. destruct (g i =? NULL); auto. }
  destruct r as [arr sz|arr rows row_size|arr rows cols col_size|chain
                |p sz id|]; cbn [serve].
  - unfold free_1d. destruct (arr =? NULL); auto.
  - unfold free_2d. destruct (arr =? NULL); auto.
    apply Hpush. unfold for_each. apply fold_inv; [|exact Hw].
    intros i w0 H0. destruct (load arr i =? NULL); auto.
  - unfold free_3d. destruct (arr =? NULL); auto.
    apply Hpush. unfold for_each. apply fold_inv; [|exact Hw].
    intros i w0 H0. destruct (load arr i =? NULL); auto.
    apply Hpush. apply fold_inv; [|exact H0].
    intros j w1 H1. destruct (load (load arr i) j =? NULL); auto.
  - revert w Hw. induction chain as [|[cur payload] chain IH]; intros w Hw;
      cbn [free_list]; auto.
    destruct (cur =? NULL); auto. apply IH, Hpush.
    destruct (payload =? NULL); auto.
  - unfold shoot_over_free. destruct (p =? NULL); auto.
  - replace (on_state free_all_tickstack w)
      with (on_state (say "FREE_ALL: Low memory pressure, deferring cascade") w).
    + auto.
    + unfold on_state. now rewrite free_all_tickstack_defers.
Qed.

Lemma serve_all_inv (P : world -> Prop) :
  (forall p sz rc w, P w -> P (push p sz rc w)) ->
  (forall msg w, P w -> P (on_state (say msg) w)) ->
  forall rs w, P w -> P (serve_all rs w).
Proof.
  intros Hpush Hsay rs. unfold FreeAllApi.serve_all.
  induction rs as [|r rs IH]; intros w Hw; cbn [fold_left]; auto.
  apply IH, serve_inv; auto.
Qed.

(** One call of [tick_push] as a step of the process. *)
Lemma push_cases p sz rc w :
  exists ok, snd (push p sz rc w) = tick_push ok p sz rc (snd w).
Proof.
  destruct w as [h st]. unfold push.
  destruct ((p =? NULL) || (MAX_TICK_STACK <=? tick_count st)%nat);
    [exists true; reflexivity|].
  destruct h as [|ok h]; [exists true|exists ok]; reflexivity.
Qed.


Lemma all_succeed_tail ok h : all_succeed (ok :: h) -> ok = true /\ all_succeed h.
Proof. unfold all_succeed. cbn. intros H. now apply andb_true_iff in H. Qed.

Lemma queued_refl w : all_succeed (fst w) -> queued w w [] [].
Proof.
  intros H. constructor; cbn; auto. now rewrite app_nil_r.
Qed.

Lemma queued_trans w w' w'' a b l m :
  queued w w' a l -> queued w' w'' b m -> queued w w'' (a ++ b) (l ++ m).
Proof.
  intros [H1 C1 P1 F1 O1] [H2 C2 P2 F2 O2]. constructor; auto.
  - rewrite C2, C1, length_app. lia.
  - rewrite rev_app_distr, <- app_assoc.
    etransitivity; [exact P2|]. now apply Permutation_app_head.
  - congruence.
  - rewrite O2, O1. now rewrite app_assoc.
Qed.

Lemma push_queued p sz rc w :
  p <> NULL -> all_succeed (fst w) ->
  (tick_count (snd w) < MAX_TICK_STACK)%nat ->
  queued w (push p sz rc w) [p] [].
Proof.
  destruct w as [h st]. cbn [fst snd]. intros Hp Hh Hc.
  apply Z.eqb_neq in Hp. apply Nat.leb_gt in Hc.
  assert (E : (p =? NULL) || (MAX_TICK_STACK <=? tick_count st)%nat
              || negb true = false) by now rewrite Hp, Hc.
  assert (Q : forall h', all_succeed h' ->
            queued (h, st) (h', tick_push true p sz rc st) [p] []).
  { intros h' Hh'. rewrite (tick_push_accepted _ _ _ _ _ E).
    constructor; cbn [fst snd tick_count freed output length rev app];
      auto; try lia.
    - unfold pending. cbn [tick_stack].
      change (p :: map ptr (tick_stack st))
        with (map ptr (mkTick p sz rc (pushed_score st p sz rc) :: tick_stack st)).
      apply Permutation_map, insert_tick_perm.
    - now rewrite app_nil_r. }
  unfold push. rewrite Hp, Hc. cbn [orb].
  destruct h as [|ok h]; [now apply Q|].
  apply all_succeed_tail in Hh. destruct Hh as [-> Hh]. now apply Q.
Qed.

Lemma say_queued msg w :
  all_succeed (fst w) -> queued w (on_state (say msg) w) [] [msg].
Proof. intros H. constructor; cbn; auto. Qed.

Lemma fold_queued (subs : nat -> list pointer)
  (body : nat -> world -> world) l :
  (forall i w, all_succeed (fst w) ->
     (tick_count (snd w) + length (subs i) <= MAX_TICK_STACK)%nat ->
     queued w (body i w) (subs i) []) ->
  forall w, all_succeed (fst w) ->
    (tick_count (snd w) + length (flat_map subs l) <= MAX_TICK_STACK)%nat ->
    queued w (fold_left (fun w i => body i w) l w) (flat_map subs l) [].
Proof.
  intros Hb. induction l as [|i l IH]; intros w Hh Hc;
    cbn [fold_left flat_map] in *.
  - now apply queued_refl.
  - rewrite length_app in Hc.
    assert (Q : queued w (body i w) (subs i) []) by (apply Hb; auto; lia).
    change (@nil string) with (@nil string ++ []).
    eapply queued_trans; [exact Q|].
    apply IH; [apply Q|]. rewrite (queued_count _ _ _ _ Q). lia.
Qed.

Lemma cell_queued (g : nat -> pointer) sz rc i w :
  all_succeed (fst w) ->
  (tick_count (snd w) + length (if (g i =? NULL)%Z then [] else [g i])
   <= MAX_TICK_STACK)%nat ->
  queued w (if g i =? NULL then w else push (g i) sz rc w)
         (if g i =? NULL then [] else [g i]) [].
Proof.
  intros Hh Hc. destruct (g i =? NULL) eqn:E.
  - now apply queued_refl.
  - apply push_queued; auto. + now apply Z.eqb_neq. + cbn in Hc. lia.
Qed.

Lemma rows_of_flat_map arr l :
  filter nonnull (map (load arr) l) =
  flat_map (fun i => if load arr i =? NULL then [] else [load arr i]) l.
Proof.
  induction l as [|i l IH]; cbn [map filter flat_map]; auto.
  unfold nonnull at 1. destruct (load arr i =? NULL); cbn [negb app];
    now rewrite IH.
Qed.

Lemma rows_queued arr rows sz rc w :
  all_succeed (fst w) ->
  (tick_count (snd w) + length (rows_of load arr rows) <= MAX_TICK_STACK)%nat ->
  queued w
    (for_each rows (fun i w =>
       if load arr i =? NULL then w else push (load arr i) sz rc w) w)
    (rows_of load arr rows) [].
Proof.
  unfold rows_of, for_each. rewrite rows_of_flat_map. intros Hh Hc.
  apply (fold_queued
           (fun i => if load arr i =? NULL then [] else [load arr i])
           (fun i w => if load arr i =? NULL then w
                       else push (load arr i) sz rc w)); auto.
  intros i w0. apply (cell_queued (load arr)).
Qed.

Lemma then_push_queued w w' a p sz rc :
  p <> NULL ->
  (tick_count (snd w) + length (a ++ [p]) <= MAX_TICK_STACK)%nat ->
  queued w w' a [] -> queued w (push p sz rc w') (a ++ [p]) [].
Proof.
  intros Hp Hc Q. rewrite length_app in Hc. cbn [length] in Hc.
  change (@nil string) with (@nil string ++ []).
  eapply queued_trans; [exact Q|].
  apply push_queued; auto; [apply Q|].
  rewrite (queued_count _ _ _ _ Q). lia.
Qed.

Lemma serve_queued r w :
  all_succeed (fst w) ->
  (tick_count (snd w) + length (submissions r) <= MAX_TICK_STACK)%nat ->
  queued w (serve w r) (submissions r) (printed r).
Proof.
  intros Hh Hc.
  destruct r as [arr sz|arr rows row_size|arr rows cols col_size|chain
                |p sz id|]; cbn [serve FreeAllApi.submissions FreeAllApi.printed] in *.
  - unfold free_1d. destruct (arr =? NULL) eqn:E; [now apply queued_refl|].
    apply push_queued; auto. + now apply Z.eqb_neq. + cbn in Hc. lia.
  - unfold free_2d. destruct (arr =? NULL) eqn:E; [now apply queued_refl|].
    apply Z.eqb_neq in E. apply then_push_queued; auto.
    apply rows_queued; auto. rewrite length_app in Hc. lia.
  - unfold free_3d. destruct (arr =? NULL) eqn:E; [now apply queued_refl|].
    apply Z.eqb_neq in E. apply then_push_queued; auto.
    unfold for_each.
    apply (fold_queued
             (fun i => if load arr i =? NULL then []
                       else rows_of load (load arr i) cols ++ [load arr i])
             (fun i w =>
                if load arr i =? NULL then w
                else push (load arr i) (size_t (Z.of_nat cols * sizeof_pointer))
                       (int (Z.of_nat cols))
                       (fold_left (fun w j =>
                          if load (load arr i) j =? NULL then w
                          else push (load (load arr i) j) col_size 1 w)
                          (seq 0 cols) w))); auto.
    + intros i w0 H0 C0. destruct (load arr i =? NULL) eqn:Ei;
        [now apply queued_refl|].
      apply Z.eqb_neq in Ei. apply then_push_queued; auto.
      apply (rows_queued (load arr i) cols col_size 1); auto.
      rewrite length_app in C0. lia.
    + rewrite length_app in Hc. lia.
  - revert w Hh Hc. induction chain as [|[cur payload] chain IH]; intros w Hh Hc;
      cbn [free_list visited flat_map] in *; [now apply queued_refl|].
    destruct (cur =? NULL) eqn:E; [now apply queued_refl|].
    apply Z.eqb_neq in E. cbn [flat_map] in *. rewrite length_app in Hc.
    change (@nil string) with (@nil string ++ []).
    assert (Q : queued w
              (push cur sizeof_FreeNode 1
                 (if payload =? NULL then w else push payload sizeof_pointer 1 w))
              (node_submissions (cur, payload)) []).
    { unfold node_submissions in *. cbn [fst snd] in *.
      destruct (payload =? NULL) eqn:Ep.
      - apply push_queued; auto. cbn in Hc. lia.
      - apply Z.eqb_neq in Ep.
        apply (then_push_queued w _ [payload]); auto.
        + cbn in *. lia.
        + apply push_queued; auto. cbn in Hc. lia. }
    eapply queued_trans; [exact Q|].
    apply IH; [apply Q|]. rewrite (queued_count _ _ _ _ Q). lia.
  - unfold shoot_over_free. destruct (p =? NULL) eqn:E;
      [now apply queued_refl|].
    apply Z.eqb_neq in E.
    change [p] with ([p] ++ []).
    match goal with |- queued _ _ _ [?m] => change [m] with ([] ++ [m]) end.
    assert (Q : queued w (push p sz 1 w) [p] []).
    { apply push_queued; auto. cbn in Hc. lia. }
    eapply queued_trans; [exact Q|]. apply say_queued, Q.
  - replace (on_state free_all_tickstack w)
      with (on_state (say "FREE_ALL: Low memory pressure, deferring cascade") w).
    + now apply say_queued.
    + unfold on_state. now rewrite free_all_tickstack_defers.
Qed.

Lemma serve_all_queued rs : forall w,
  all_succeed (fst w) ->
  (tick_count (snd w) + length (flat_map submissions rs) <= MAX_TICK_STACK)%nat ->
  queued w (serve_all rs w) (flat_map submissions rs) (flat_map printed rs).
Proof.
  unfold FreeAllApi.serve_all.
  induction rs as [|r rs IH]; intros w Hh Hc; cbn [fold_left flat_map] in *.
  - now apply queued_refl.
  - rewrite length_app in Hc.
    assert (Q : queued w (serve w r) (submissions r) (printed r))
      by (apply serve_queued; auto; lia).
    eapply queued_trans; [exact Q|].
    apply IH; [apply Q|]. rewrite (queued_count _ _ _ _ Q). lia.
Qed.

End Layout.

End FreeApiFacts.

Module FreeApiProperties.

Import Double FreeAll FreeAllApi DoubleFacts FreeStackFacts FreeApiFacts.
Open Scope Z_scope.

Section Layout.

Variable sizeof_pointer : Z.
Variable sizeof_FreeNode : Z.
Variable load : pointer -> nat -> pointer.
Variable render_pointer : pointer -> string.

Abbreviation serve_all :=
  (serve_all sizeof_pointer sizeof_FreeNode load render_pointer).
Abbreviation submissions := (submissions load).
Abbreviation printed := (printed render_pointer).

(** X9. No sequence of calls of [free_1d], [free_2d], [free_3d],
    [free_list], [shoot_over_free] and [free_all_tickstack] hands an
    address to [free], whatever the arguments, the state of the stack and
    the answers of [malloc]: the count never goes down and every entry
    that was pending before the calls is pending after them. *)
Theorem entry_points_never_free rs w :
  let w' := serve_all rs w in
  freed (snd w') = freed (snd w) /\
  (tick_count (snd w) <= tick_count (snd w'))%nat /\
  exists added,
    Permutation (tick_stack (snd w')) (added ++ tick_stack (snd w)).
Proof.
  cbv zeta.
  apply (serve_all_inv sizeof_pointer sizeof_FreeNode load render_pointer
           (fun w' =>
              freed (snd w') = freed (snd w) /\
              (tick_count (snd w) <= tick_count (snd w'))%nat /\
              exists added,
                Permutation (tick_stack (snd w')) (added ++ tick_stack (snd w)))).
  - intros p sz rc w' (F & C & added & A).
    destruct (push_cases p sz rc w') as [ok ->].
    destruct ((p =? NULL) || (MAX_TICK_STACK <=? tick_count (snd w'))%nat
              || negb ok) eqn:E.
    + destruct (tick_push_refused _ _ sz rc _ E) as [msg ->]. cbn. eauto.
    + rewrite (tick_push_accepted _ _ _ _ _ E). cbn [freed tick_count tick_stack].
      split; [exact F|]. split; [lia|].
      exists (mkTick p sz rc (pushed_score (snd w') p sz rc) :: added).
      etransitivity; [apply insert_tick_perm|]. cbn [app]. now constructor.
  - intros msg w' H. exact H.
  - split; [reflexivity|]. split; [lia|]. now exists [].
Qed.

(** X10. When every [malloc] succeeds and the stack has room for them, a
    sequence of calls queues exactly the addresses it walks, each call its
    own: [free_2d] the rows that are not null and then the array,
    [free_3d] for each row that is not null its cells and then the row,
    and then the array, [free_list] for each node its payload, if it has
    one, and then the node. Nothing is freed, no error is reported, and
    the only lines written are those of [shoot_over_free] and
    [free_all_tickstack]. *)
Theorem entry_points_queue_their_blocks rs h st :
  all_succeed h ->
  (tick_count st + length (flat_map submissions rs) <= MAX_TICK_STACK)%nat ->
  let st' := snd (serve_all rs (h, st)) in
  tick_count st' = (tick_count st + length (flat_map submissions rs))%nat /\
  Permutation (pending st') (rev (flat_map submissions rs) ++ pending st) /\
  freed st' = freed st /\
  output st' = (output st ++ flat_map printed rs)%list.
Proof.
  intros Hh Hc. cbv zeta.
  destruct (serve_all_queued sizeof_pointer sizeof_FreeNode load render_pointer
              rs (h, st) Hh Hc) as [_ C P F O].
  auto.
Qed.


(** X21. When every [malloc] succeeds and the stack, empty at first, has
    room for them, a call of [tick_cascade] after a sequence of calls of
    the entry points hands to [free] the addresses those calls walked,
    each as often as it was submitted, and leaves the stack empty. *)
Theorem cascade_frees_what_was_submitted rs h fr out :
  all_succeed h ->
  (length (flat_map submissions rs) <= MAX_TICK_STACK)%nat ->
  let st' := tick_cascade (snd (serve_all rs (h, mkState [] 0 fr out))) in
  tick_stack st' = [] /\ tick_count st' = 0%nat /\
  exists order,
    freed st' = (fr ++ order)%list /\
    Permutation order (flat_map submissions rs).
Proof.
  intros Hh Hc. cbv zeta.
  destruct (serve_all_queued sizeof_pointer sizeof_FreeNode load render_pointer
              rs (h, mkState [] 0 fr out) Hh Hc) as [_ _ P F _].
  cbn [snd freed pending tick_stack map] in P, F.
  rewrite app_nil_r in P.
  assert (R : reachable (snd (serve_all rs (h, mkState [] 0 fr out)))).
  { apply (serve_all_inv sizeof_pointer sizeof_FreeNode load render_pointer
             (fun w => reachable (snd w))).
    - intros p sz rc w Hw. destruct (push_cases p sz rc w) as [ok ->].
      now apply reach_push.
    - intros msg w Hw. cbn. now apply reach_say.
    - apply reach_start. }
  split; [reflexivity|]. split; [reflexivity|].
  exists (pending (snd (serve_all rs (h, mkState [] 0 fr out)))).
  rewrite (tick_cascade_freed _ R), F. split; [reflexivity|].
  etransitivity; [exact P|]. symmetry. apply Permutation_rev.
Qed.

End Layout.

Import MoreExamples.

Lemma twice_submitted_reachable : reachable twice_submitted.
Proof. apply reach_push, reach_push, (reach_start [] []). Qed.

End FreeApiProperties.

(* ================================================================== *)
(** ** The registry: shape of the points, coupling, missing records *)

Module RegistryShapeFacts.

Import Double TickStack11d HiggsKing HiggsKingApi DoubleFacts ArrayFacts
       StepFacts RegistryFacts.
Open Scope float_scope.

Lemma map_store {B} (g : HiggsFieldPoint -> B) i p pts :
  g p = g (slot pts i) -> map g (store i p pts) = map g pts.
Proof.
  unfold slot. revert i; induction pts as [|q pts IH]; intros [|i] H;
    simpl in *; auto; f_equal; auto.
Qed.

(** The stored points are the slots below the count. *)
Lemma firstn_nth {A} (d : A) l : forall n,
  (n <= length l)%nat -> firstn n l = map (fun i => nth i l d) (seq 0 n).
Proof.
  induction l as [|a l IH]; intros [|n] H; cbn [firstn length] in *;
    try reflexivity; try lia.
  cbn [seq map nth]. f_equal. rewrite <- seq_shift, map_map. apply IH. lia.
Qed.

Lemma stored_slots f :
  (point_count f <= length (points f))%nat ->
  stored f = map (slot (points f)) (seq 0 (point_count f)).
Proof. intros H. unfold stored, slot. now apply firstn_nth. Qed.

Section WithTickStack.

Context {ops : TickStackOps}.

Lemma interact_point_keeps i f out f' out' :
  interact_point i (f, out) = Some (f', out') ->
  map frame_of (points f') = map frame_of (points f).
Proof.
  unfold interact_point.
  destruct (fuzzy_score (slot (points f) i) <? FUZZY_CONFIDENCE_THRESHOLD).
  { now intros [= <- <-]. }
  destruct (delta_topology (tick_stack f)) as [|a rest]; [discriminate|].
  destruct (_ || _).
  { now intros [= <- <-]. }
  intros [= <- <-]. unfold assign, set_points, set_tick_stack.
  cbn [points point_count coupling_factor tick_stack].
  rewrite !map_store; reflexivity.
Qed.

Lemma interaction_loop_keeps n : forall i f out f' out',
  interaction_loop n i (f, out) = Some (f', out') ->
  map frame_of (points f') = map frame_of (points f).
Proof.
  induction n as [|n IH]; cbn [interaction_loop]; intros i f out f' out'.
  - now intros [= <- <-].
  - destruct (interact_point i (f, out)) as [[g o]|] eqn:E; [|discriminate].
    intros H. apply IH in H. apply interact_point_keeps in E. congruence.
Qed.

Lemma higgs_interaction_keeps f f' out :
  higgs_interaction f = Some (f', out) ->
  map frame_of (stored f') = map frame_of (stored f).
Proof.
  intros H. pose proof (higgs_interaction_frame _ _ _ H) as (_ & _ & C).
  unfold stored. rewrite <- !firstn_map, C. f_equal.
  revert H. unfold higgs_interaction.
  destruct (point_count f <? 2)%nat; [now intros [= <- <-]|].
  intros H. apply interaction_loop_keeps in H. exact H.
Qed.

Lemma higgs_interaction_coupling f f' out :
  higgs_interaction f = Some (f', out) ->
  coupling_factor f' = coupling_factor f \/
  coupling_factor f' = HIGGS_COUPLING_BASE * monitor_field_stability f.
Proof.
  unfold higgs_interaction.
  destruct (point_count f <? 2)%nat; [intros [= <- <-]; now left|].
  intros H. apply interaction_loop_frame in H. right. apply H.
Qed.

Lemma new_point_shape f coords m id : well_shaped (new_point f coords m id).
Proof.
  unfold well_shaped, new_point. cbn [field is_interacting insert_id].
  rewrite length_firstn, RegistryClaims.strncpy_length.
  repeat split; lia.
Qed.

Lemma reachable_shape allowed f :
  reachable_by allowed f -> Forall well_shaped (stored f).
Proof.
  induction 1 as [mem Hmem|f c Hf IH Hc|f f' out Hf IH Hs].
  - constructor.
  - pose proof (reachable_ok _ _ Hf) as [Hlen _ _ _].
    destruct (insert_cases f c Hlen)
      as [E _ _ _ _|coords m id k _ _ _ _ E _ _ _ _]; rewrite E; auto.
    rewrite <- (firstn_skipn k (stored f)) in IH.
    apply Forall_app in IH. destruct IH as [I1 I2].
    apply Forall_app. split; auto. constructor; auto.
    apply new_point_shape.
  - apply higgs_interaction_keeps in Hs.
    assert (G : forall l, Forall well_shaped l <->
              Forall (fun t => (length (fst (fst (fst t))) <= HIGGS_FIELD_DIM)%nat
                               /\ snd (fst t) = 1%Z
                               /\ (String.length (snd t) <= 31)%nat)
                     (map frame_of l)).
    { intros l. rewrite Forall_map. reflexivity. }
    apply G. rewrite Hs. now apply G.
Qed.

Lemma reachable_coupling allowed f :
  reachable_by allowed f ->
  coupling_factor f = HIGGS_COUPLING_BASE \/ coupling_factor f = 0.0625.
Proof.
  induction 1 as [mem Hmem|f c Hf IH Hc|f f' out Hf IH Hs].
  - now left.
  - pose proof (reachable_ok _ _ Hf) as [Hlen _ _ _].
    destruct (insert_cases f c Hlen)
      as [_ _ _ _ E|coords m id k _ _ _ _ _ _ _ _ E]; now rewrite E.
  - destruct (higgs_interaction_coupling _ _ _ Hs) as [->| ->]; auto.
    destruct (stability_values f) as [-> | ->]; [left|right]; reflexivity.
Qed.

(** The loop of [higgs_interaction] on a topology without records. *)
Lemma interaction_loop_no_record n : forall i f out,
  delta_topology (tick_stack f) = [] ->
  interaction_loop n i (f, out) =
  if forallb (fun j => fuzzy_score (slot (points f) j)
                       <? FUZZY_CONFIDENCE_THRESHOLD) (seq i n)
  then Some (f, out) else None.
Proof.
  induction n as [|n IH]; intros i f out H; cbn [interaction_loop seq forallb].
  - reflexivity.
  - unfold interact_point.
    destruct (fuzzy_score (slot (points f) i) <? FUZZY_CONFIDENCE_THRESHOLD).
    + cbn [andb]. now apply IH.
    + now rewrite H.
Qed.

End WithTickStack.

Lemma forallb_map_seq {A} (t : A -> bool) (g : nat -> A) l :
  forallb (fun j => t (g j)) l = forallb t (map g l).
Proof. induction l as [|j l IH]; cbn; auto. now rewrite IH. Qed.

(** A NaN mass leaves the stability as the only factor of the score. *)
Lemma isnan_nan x : isnan x = true -> Prim2SF x = S754_nan.
Proof.
  intros H. destruct (is_nan_sf (Prim2SF x)) eqn:E.
  - destruct (Prim2SF x); try discriminate. reflexivity.
  - apply isnan_number in E. congruence.
Qed.

Lemma ltb_nan_r x y : Prim2SF y = S754_nan -> (x <? y) = false.
Proof.
  intros H. rewrite FloatAxioms.ltb_spec, H. unfold SFltb.
  now destruct (Prim2SF x) as [| | |[] ? ?].
Qed.

Lemma fuzzy_score_point_nan_mass p f :
  isnan (mass p) = true ->
  fuzzy_score_point p f = dampen (monitor_field_stability f).
Proof.
  intros H. apply isnan_nan in H. unfold fuzzy_score_point. cbv zeta.
  assert (N : Prim2SF (mass p / 2.0) = S754_nan).
  { rewrite FloatAxioms.div_spec, H. reflexivity. }
  rewrite (ltb_nan_r _ _ N), (PriorityFacts.nan_ltb _ _ N). reflexivity.
Qed.

End RegistryShapeFacts.

Module RegistryProperties.

Import Double TickStack11d HiggsKing HiggsKingApi DoubleFacts ArrayFacts
       InsertFacts StepFacts RegistryFacts PriorityFacts RegistryShapeFacts.
Open Scope float_scope.

Section WithTickStack.

Context {ops : TickStackOps}.

(** X12. In a registry built by [init_higgs_field], [add_higgs_point] and
    [higgs_interaction], every stored point has at most 11 coordinates,
    its flag [is_interacting] set to 1 and a tag of at most 31
    characters, whatever tags the calls were given. *)
Theorem stored_points_keep_their_shape f :
  reachable f ->
  Forall (fun p => (length (field p) <= HIGGS_FIELD_DIM)%nat /\
                   is_interacting p = 1%Z /\
                   (String.length (insert_id p) <= 31)%nat) (stored f).
Proof. apply reachable_shape. Qed.

(** X13. In such a registry the coupling factor is the base 0.125 or its
    half 0.0625. *)
Theorem coupling_has_two_values f :
  reachable f ->
  coupling_factor f = HIGGS_COUPLING_BASE \/ coupling_factor f = 0.0625.
Proof. apply reachable_coupling. Qed.

(** X14. [higgs_interaction] reads record 0 of a topology that has no
    record exactly when the registry holds at least two points, the
    recomputed topology is empty and some stored point has a priority
    that is not below 0.7. In every other case the call returns. *)
Theorem interaction_reads_missing_record_iff `{!TickStackLaws ops} f :
  (point_count f <= length (points f))%nat ->
  (higgs_interaction f = None <->
   (2 <= point_count f)%nat /\
   delta_topology (compute_multivar_delta_topology (tick_stack f)) = [] /\
   exists p, In p (stored f) /\
             (fuzzy_score p <? FUZZY_CONFIDENCE_THRESHOLD) = false).
Proof.
  intros Hc.
  assert (S : forall g : HiggsField,
            points g = points f -> point_count g = point_count f ->
            forallb (fun j => fuzzy_score (slot (points g) j)
                              <? FUZZY_CONFIDENCE_THRESHOLD)
                    (seq 0 (point_count g)) = false <->
            exists p, In p (stored f) /\
                      (fuzzy_score p <? FUZZY_CONFIDENCE_THRESHOLD) = false).
  { intros g Hp Hn. rewrite Hp, Hn, stored_slots by exact Hc.
    rewrite (forallb_map_seq
               (fun p => fuzzy_score p <? FUZZY_CONFIDENCE_THRESHOLD)
               (slot (points f))).
    split.
    - intros H. destruct (existsb (fun p => negb (fuzzy_score p
                            <? FUZZY_CONFIDENCE_THRESHOLD))
                            (map (slot (points f)) (seq 0 (point_count f))))
        eqn:E.
      + apply existsb_exists in E. destruct E as (p & Hin & Hp').
        exists p. split; auto. now apply negb_true_iff.
      + exfalso. rewrite <- not_true_iff_false in H. apply H.
        apply forallb_forall. intros p Hin.
        rewrite <- not_true_iff_false in E.
        destruct (fuzzy_score p <? FUZZY_CONFIDENCE_THRESHOLD) eqn:T; auto.
        exfalso. apply E, existsb_exists. exists p. now rewrite T.
    - intros (p & Hin & Hp'). apply not_true_iff_false. intros H.
      rewrite forallb_forall in H. specialize (H p Hin). congruence. }
  unfold higgs_interaction.
  destruct (Nat.ltb_spec (point_count f) 2) as [Hlt|Hge].
  { split; [discriminate|]. intros (H & _). lia. }
  set (g := set_tick_stack _ _).
  destruct (delta_topology (tick_stack g)) as [|a rest] eqn:T.
  - rewrite interaction_loop_no_record by exact T.
    change (delta_topology (compute_multivar_delta_topology (tick_stack f)))
      with (delta_topology (tick_stack g)).
    rewrite T.
    destruct (forallb _ _) eqn:F.
    + split; [discriminate|]. intros (_ & _ & E).
      apply (S g eq_refl eq_refl) in E. congruence.
    + split; auto. intros _. repeat split; auto.
      now apply (S g eq_refl eq_refl).
  - destruct (higgs_interaction_spec a f x_keeps_topology) as (f' & E & _).
    + lia.
    + change (delta_topology (compute_multivar_delta_topology (tick_stack f)))
        with (delta_topology (tick_stack g)). now rewrite T.
    + unfold higgs_interaction in E.
      destruct (Nat.ltb_spec (point_count f) 2) as [Hlt|_]; [lia|].
      fold g in E. rewrite E. split; [discriminate|].
      intros (_ & H & _).
      change (delta_topology (compute_multivar_delta_topology (tick_stack f)))
        with (delta_topology (tick_stack g)) in H. congruence.
Qed.

(** X15. [add_higgs_point] tests the magnitude of the position but not
    the mass: a call with a NaN mass is taken in like any other, without a
    diagnostic. The priority of its point is the stability level alone,
    that of the registry as [fuzzy_score_point] is given it, the stored
    points with the new point counted behind them: 1.0 when that registry
    is stable and [0.5 * 0.8] when it is not. *)
Theorem nan_mass_is_taken_in f coords m id :
  has_room f -> finite_magnitude coords -> isnan m = true ->
  let r := add_higgs_point f (Some coords) m (Some id) in
  let g := scoring_view f coords m in
  snd r = [] /\ point_count (fst r) = S (point_count f) /\
  point_count g = S (point_count f) /\
  map energy (stored g) =
    map energy (stored f) ++ [vector_magnitude coords * HIGGS_ENERGY_FACTOR] /\
  exists p k,
    stored (fst r) = firstn k (stored f) ++ p :: skipn k (stored f) /\
    mass p = m /\
    (monitor_field_stability g = 1.0 -> fuzzy_score p = 1.0) /\
    (monitor_field_stability g = 0.5 -> fuzzy_score p = 0.5 * 0.8) /\
    (monitor_field_stability g = 1.0 \/ monitor_field_stability g = 0.5).
Proof.
  intros Hroom Hmag Hnan. cbv zeta.
  rewrite add_accepted_eq by assumption. cbn [fst snd point_count].
  split; [reflexivity|]. split; [reflexivity|]. split; [reflexivity|].
  pose proof (scoring_slot f coords m Hroom) as [He Hm]. cbv zeta in He, Hm.
  split.
  { destruct Hroom as [Hlen Hlt].
    assert (Hs : stored (scoring_view f coords m) =
                 stored f ++ [slot (points (scoring_view f coords m))
                                   (point_count f)]).
    { unfold stored at 1.
      replace (point_count (scoring_view f coords m)) with (S (point_count f))
        by reflexivity.
      assert (Hn : nth_error (points (scoring_view f coords m)) (point_count f)
                   = Some (slot (points (scoring_view f coords m))
                                (point_count f))).
      { unfold slot. apply nth_error_nth'.
        unfold scoring_view, assign, set_points, set_count.
        cbn [points point_count]. rewrite !store_length. lia. }
      rewrite (firstn_snoc _ _ _ Hn). f_equal.
      unfold scoring_view, assign, set_points, set_count, stored.
      cbn [points point_count]. now rewrite !firstn_store. }
    rewrite Hs, map_app. cbn [map]. now rewrite He. }
  pose proof (insert_cases f (mkCall (Some coords) m (Some id)) (proj1 Hroom))
    as [_ C _ _ _|coords' m' id' k [= <- <- <-] _ _ _ E _ _ _ _].
  - exfalso. unfold insert in C. cbn [call_coords call_mass call_id] in C.
    rewrite add_accepted_eq in C by assumption. cbn in C. lia.
  - exists (new_point f coords m id), k. unfold insert in E.
    cbn [call_coords call_mass call_id] in E.
    rewrite add_accepted_eq in E by assumption. cbn [fst] in E.
    split; [exact E|]. split; [reflexivity|].
    cbn [new_point fuzzy_score].
    rewrite fuzzy_score_point_nan_mass by (now rewrite Hm).
    split; [intros ->; reflexivity|].
    split; [intros ->; reflexivity|].
    apply stability_values.
Qed.

End WithTickStack.

End RegistryProperties.

(* ================================================================== *)
(** ** [shoot_over_higgs] *)

Module ShootOverFacts.

Import Double FreeAllApi FreeStackFacts FreeApiFacts HiggsKing HiggsKingApi.
Open Scope Z_scope.

Lemma fold_skip {A} (body : A -> world -> world) l w :
  (forall i, In i l -> body i w = w) ->
  fold_left (fun w i => body i w) l w = w.
Proof.
  induction l as [|i l IH]; intros H; cbn [fold_left]; auto.
  rewrite H by now left. apply IH. intros j Hj. apply H. now right.
Qed.

Lemma fold_queued_lines (subs : nat -> list FreeAll.pointer)
  (lines : nat -> list string) (body : nat -> world -> world) l :
  (forall i w, all_succeed (fst w) ->
     (FreeAll.tick_count (snd w) + length (subs i)
      <= FreeAll.MAX_TICK_STACK)%nat ->
     queued w (body i w) (subs i) (lines i)) ->
  forall w, all_succeed (fst w) ->
    (FreeAll.tick_count (snd w) + length (flat_map subs l)
     <= FreeAll.MAX_TICK_STACK)%nat ->
    queued w (fold_left (fun w i => body i w) l w)
           (flat_map subs l) (flat_map lines l).
Proof.
  intros Hb. induction l as [|i l IH]; intros w Hh Hc;
    cbn [fold_left flat_map] in *.
  - now apply queued_refl.
  - rewrite length_app in Hc.
    assert (Q : queued w (body i w) (subs i) (lines i))
      by (apply Hb; auto; lia).
    eapply queued_trans; [exact Q|].
    apply IH; [apply Q|]. rewrite (queued_count _ _ _ _ Q). lia.
Qed.

Lemma flat_map_filter {A B} (t : A -> bool) (g : A -> list B) l :
  flat_map (fun i => if t i then g i else []) l = flat_map g (filter t l).
Proof.
  induction l as [|i l IH]; cbn [flat_map filter]; auto.
  destruct (t i); cbn [flat_map app]; now rewrite IH.
Qed.

Lemma flat_map_single {A B} (g : A -> B) l :
  flat_map (fun i => [g i]) l = map g l.
Proof. induction l as [|i l IH]; cbn; congruence. Qed.

Lemma shoot_over_free_queued render_pointer p sz id w :
  p <> FreeAll.NULL -> all_succeed (fst w) ->
  (FreeAll.tick_count (snd w) < FreeAll.MAX_TICK_STACK)%nat ->
  queued w (shoot_over_free render_pointer p sz id w) [p]
         ["/* FREE_ALL: Injected free for " ++ id ++ " at "
          ++ render_pointer p ++ " */"]%string.
Proof.
  intros Hp Hh Hc. apply Z.eqb_neq in Hp.
  pose proof (serve_queued 0 0 (fun _ _ => 0) render_pointer
                (ShootOverFree p sz id) w Hh) as Q.
  cbn [serve submissions printed] in Q. rewrite Hp in Q.
  apply Q. cbn. lia.
Qed.

End ShootOverFacts.

Module ShootOverProperties.

Import Double FreeAllApi FreeStackFacts FreeApiFacts HiggsKing HiggsKingApi
       ArrayFacts InsertFacts RegistryFacts RegistryShapeFacts ShootOverFacts.
Open Scope Z_scope.

Section Layout.

Context {ops : TickStack11d.TickStackOps}.

Variable sizeof_HiggsFieldPoint : Z.
Variable render_pointer : FreeAll.pointer -> string.
Variable render_double : float -> string.

Abbreviation shoot_over_higgs :=
  (shoot_over_higgs sizeof_HiggsFieldPoint render_pointer render_double).
Abbreviation point_address := (point_address sizeof_HiggsFieldPoint).
Abbreviation result_line := (result_line render_double).

(** X16. A tag is cut to 31 characters when a point is stored and
    compared in full when it is looked up: in a registry built by
    [init_higgs_field], [add_higgs_point] and [higgs_interaction], a call
    of [shoot_over_higgs] with a tag of more than 31 characters selects no
    point, writes nothing and queues nothing, also when that very tag was
    given to [add_higgs_point]. *)
Theorem long_tag_is_never_found base f id w :
  reachable f -> base <> FreeAll.NULL -> (31 < String.length id)%nat ->
  shoot_over_higgs base f (Some id) w = w.
Proof.
  intros Hf Hb Hl. unfold HiggsKingApi.shoot_over_higgs.
  apply Z.eqb_neq in Hb. rewrite Hb. unfold for_each.
  apply fold_skip. intros i Hi. unfold shoot_point.
  pose proof (reachable_ok _ _ Hf) as [Hlen Hcnt _ _].
  pose proof (reachable_shape _ _ Hf) as Hs.
  rewrite stored_slots in Hs by lia. rewrite Forall_forall in Hs.
  destruct (Hs (slot (points f) i) (in_map _ _ _ Hi)) as (_ & _ & Ht).
  unfold matches.
  destruct (String.eqb_spec (insert_id (slot (points f) i)) id) as [E|E];
    [|reflexivity].
  rewrite E in Ht. lia.
Qed.

(** X17. With a non-null tag, a registry at a non-null address, every
    [malloc] succeeding and room in the free stack, [shoot_over_higgs]
    writes for each stored point whose tag is the given one, in the order
    of the slots, its result line and the line of [shoot_over_free], and
    queues the address of that point's slot: an address inside the
    registry itself. It frees nothing. *)
Theorem shoot_over_higgs_queues_slots base f id h st :
  0 < base -> 0 <= sizeof_HiggsFieldPoint ->
  all_succeed h ->
  (FreeAll.tick_count st + length (selected f id)
   <= FreeAll.MAX_TICK_STACK)%nat ->
  let st' := snd (shoot_over_higgs base f (Some id) (h, st)) in
  FreeAll.tick_count st' =
    (FreeAll.tick_count st + length (selected f id))%nat /\
  Permutation (pending st')
    (rev (map (point_address base) (selected f id)) ++ pending st) /\
  FreeAll.freed st' = FreeAll.freed st /\
  FreeAll.output st' =
    (FreeAll.output st ++
     flat_map (fun i =>
       [result_line id (slot (points f) i);
        "/* FREE_ALL: Injected free for " ++ id ++ " at "
        ++ render_pointer (point_address base i) ++ " */"]%string)
       (selected f id))%list.
Proof.
  intros Hb Hs Hh Hc. cbv zeta. unfold HiggsKingApi.shoot_over_higgs.
  replace (base =? FreeAll.NULL) with false
    by (symmetry; apply Z.eqb_neq; unfold FreeAll.NULL; lia).
  unfold for_each, selected in *.
  set (t := fun i => matches id (slot (points f) i)) in *.
  set (lines := fun i =>
       [result_line id (slot (points f) i);
        "/* FREE_ALL: Injected free for " ++ id ++ " at "
        ++ render_pointer (point_address base i) ++ " */"]%string).
  set (l := seq 0 (point_count f)) in *.
  assert (Es : flat_map (fun i => if t i then [point_address base i] else []) l
               = map (point_address base) (filter t l))
    by (rewrite flat_map_filter; apply flat_map_single).
  assert (El : flat_map (fun i => if t i then lines i else []) l
               = flat_map lines (filter t l)) by apply flat_map_filter.
  destruct (fold_queued_lines
              (fun i => if t i then [point_address base i] else [])
              (fun i => if t i then lines i else [])
              (shoot_point sizeof_HiggsFieldPoint render_pointer render_double
                 base f id) l) with (w := (h, st))
    as [_ C P F O].
  - intros i w Hw Hr. unfold shoot_point. fold (t i).
    destruct (t i); [|now apply queued_refl].
    change [point_address base i] with ([] ++ [point_address base i]).
    unfold lines.
    match goal with
    | |- queued _ _ _ [?a; ?b] => change [a; b] with ([a] ++ [b])
    end.
    eapply queued_trans; [apply say_queued, Hw|].
    apply shoot_over_free_queued; [|apply Hw|cbn in *; lia].
    unfold HiggsKingApi.point_address, FreeAll.NULL. nia.
  - exact Hh.
  - rewrite Es, length_map. exact Hc.
  - rewrite Es in *. rewrite El in O. rewrite length_map in C. auto.
Qed.

(** X18. A call of [add_higgs_point] that is taken in with a tag of at
    most 31 characters can be looked up by that tag: [shoot_over_higgs]
    selects the slot that holds its point. *)
Theorem inserted_tag_is_found f coords m id :
  has_room f -> finite_magnitude coords -> (String.length id <= 31)%nat ->
  let f' := fst (add_higgs_point f (Some coords) m (Some id)) in
  exists i, In i (selected f' id) /\
            field (slot (points f') i) = firstn HIGGS_FIELD_DIM coords /\
            mass (slot (points f') i) = m.
Proof.
  intros Hroom Hmag Hl. cbv zeta.
  destruct (add_accepted_stored f coords m id Hroom Hmag) as (k & [Hk _ _] & E).
  assert (Hlen : length (firstn k (stored f)) = k)
    by (rewrite length_firstn; lia).
  assert (Hslot : slot (points (fst (add_higgs_point f (Some coords) m (Some id)))) k
                  = new_point f coords m id).
  { rewrite E.
    pose proof (slot_middle (firstn k (stored f)) (new_point f coords m id)
                  (skipn k (stored f) ++ skipn (S (point_count f)) (points f)))
      as S.
    rewrite Hlen in S. exact S. }
  exists k. rewrite Hslot. split; [|split; reflexivity].
  apply filter_In. split.
  - apply in_seq. rewrite add_accepted_eq by assumption. cbn [fst point_count].
    unfold stored in Hk. rewrite length_firstn in Hk. lia.
  - rewrite Hslot. unfold matches, new_point. cbn [insert_id is_interacting].
    rewrite RegistryClaims.strncpy_short by exact Hl.
    now rewrite String.eqb_refl.
Qed.

End Layout.

End ShootOverProperties.

(* ================================================================== *)
(** ** Order among equal scores, and lookups after an interaction *)

Module TieProperties.

Import Double FreeAll FreeAllApi DoubleFacts FreeStackFacts FreeApiFacts
       FreeScoreProperties.
Open Scope Z_scope.

Lemma large_single_score st p sz :
  308 <= sz -> pushed_score st p sz 1 = (0.3 * 0.8)%float.
Proof.
  intros H. unfold pushed_score. rewrite pushed_score_at.
  destruct (FreeAllClaims.pressure_levels st) as [-> | ->];
    (apply level_off_at; [vm_compute; reflexivity|lia|exact H]).
Qed.

(** A new entry whose score equals those of all the entries goes behind
    the first of them. *)
Lemma insert_tick_tie c t hd rest :
  (c <? c)%float = false ->
  fuzzy_score t = c -> Forall (fun e => fuzzy_score e = c) (hd :: rest) ->
  insert_tick (hd :: rest) t = hd :: t :: rest.
Proof.
  intros Hc Ht Hs. apply Forall_cons_iff in Hs. destruct Hs as [Hh Hr].
  cbn [insert_tick]. unfold gtb. rewrite Hh, Ht, Hc.
  destruct rest as [|nxt rest]; cbn [link_after]; [reflexivity|].
  apply Forall_cons_iff in Hr. destruct Hr as [Hn _].
  unfold gtb. now rewrite Hn, Ht, Hc.
Qed.

Lemma free_1d_large_blocks blocks h fr out :
  all_succeed h -> (length blocks <= MAX_TICK_STACK)%nat ->
  Forall (fun b => fst b <> NULL /\ 308 <= snd b) blocks ->
  let w' := fold_left (fun w b => free_1d (fst b) (snd b) w) blocks
              (h, mkState [] 0 fr out) in
  all_succeed (fst w') /\ tick_count (snd w') = length blocks /\
  Forall (fun e => fuzzy_score e = (0.3 * 0.8)%float) (tick_stack (snd w')) /\
  pending (snd w') = first_then_newest (map fst blocks).
Proof.
  cbv zeta. induction blocks as [|[p sz] blocks IH] using rev_ind;
    intros Hh Hl Hb.
  - cbn. auto.
  - rewrite length_app in Hl. cbn [length] in Hl.
    apply Forall_app in Hb. destruct Hb as [Hb Hp].
    inversion Hp as [|? ? [Hp1 Hp2] _]; subst. cbn [fst snd] in Hp1, Hp2.
    destruct IH as (I1 & I2 & I3 & I4); auto; [lia|].
    rewrite fold_left_app. cbn [fold_left fst snd].
    set (w := fold_left _ blocks _) in *.
    destruct w as [h' st']. cbn [fst snd] in *.
    unfold free_1d. apply Z.eqb_neq in Hp1. rewrite Hp1.
    assert (Hroom : (MAX_TICK_STACK <=? tick_count st')%nat = false)
      by (apply Nat.leb_gt; lia).
    assert (E : (p =? NULL) || (MAX_TICK_STACK <=? tick_count st')%nat
                || negb true = false) by now rewrite Hp1, Hroom.
    assert (Q : forall h'', all_succeed h'' ->
      let w' := (h'', tick_push true p sz 1 st') in
      all_succeed (fst w') /\
      tick_count (snd w') = length (blocks ++ [(p, sz)]) /\
      Forall (fun e => fuzzy_score e = (0.3 * 0.8)%float)
             (tick_stack (snd w')) /\
      pending (snd w') = first_then_newest (map fst (blocks ++ [(p, sz)]))).
    { intros h'' Hh''. cbv zeta. rewrite (tick_push_accepted _ _ _ _ _ E).
      cbn [fst snd tick_count tick_stack]. rewrite length_app. cbn [length].
      split; [exact Hh''|]. split; [lia|].
      rewrite map_app. cbn [map fst]. unfold pending in *. cbn [tick_stack].
      destruct (tick_stack st') as [|hd rest] eqn:S.
      - cbn [insert_tick map]. destruct (map fst blocks) as [|q qs];
          [|discriminate]. cbn. split; [|reflexivity].
        constructor; auto. cbn [fuzzy_score]. now apply large_single_score.
      - rewrite (insert_tick_tie (0.3 * 0.8)%float); auto;
          [|cbn [fuzzy_score]; now apply large_single_score].
        cbn [map ptr]. split.
        + inversion I3; subst. constructor; auto. constructor; auto.
          cbn [fuzzy_score]. now apply large_single_score.
        + destruct (map fst blocks) as [|q qs]; [discriminate|].
          cbn [first_then_newest map app] in *. injection I4 as -> ->.
          now rewrite rev_app_distr. }
    unfold push. rewrite Hp1, Hroom. cbn [orb].
    destruct h' as [|ok h']; [now apply Q|].
    apply all_succeed_tail in I1. destruct I1 as [-> I1]. now apply Q.
Qed.

(** X19. Blocks of at least 308 bytes that [free_1d] puts on an empty
    stack all get the same score, and a new entry is linked in directly
    behind the top entry when the scores are equal: the stack then holds
    the first block on top and the others behind it, the newest first. *)
Theorem large_blocks_queue_behind_the_first blocks h fr out :
  all_succeed h -> (length blocks <= MAX_TICK_STACK)%nat ->
  Forall (fun b => fst b <> NULL /\ 308 <= snd b) blocks ->
  pending (snd (fold_left (fun w b => free_1d (fst b) (snd b) w) blocks
                  (h, mkState [] 0 fr out))) =
  match map fst blocks with
  | [] => []
  | p :: ps => p :: rev ps
  end.
Proof.
  intros Hh Hl Hb.
  now destruct (free_1d_large_blocks blocks h fr out Hh Hl Hb) as (_ & _ & _ & E).
Qed.

End TieProperties.

Module LookupProperties.

Import Double TickStack11d HiggsKing HiggsKingApi RegistryShapeFacts StepFacts.

Section WithTickStack.

Context {ops : TickStackOps}.

(** X20. An interaction changes energies and masses only: after it
    [shoot_over_higgs] selects, for every tag, the slots it selected
    before. *)
Theorem interaction_keeps_selection f f' out id :
  higgs_interaction f = Some (f', out) ->
  selected f' id = selected f id.
Proof.
  intros H. unfold selected.
  pose proof (higgs_interaction_frame _ _ _ H) as (_ & _ & ->).
  assert (K : map frame_of (points f') = map frame_of (points f)).
  { revert H. unfold higgs_interaction.
    destruct (point_count f <? 2)%nat; [now intros [= <- <-]|].
    intros H. now apply interaction_loop_keeps in H. }
  apply filter_ext. intros i. unfold matches, slot.
  assert (E : frame_of (nth i (points f') garbage)
              = frame_of (nth i (points f) garbage)).
  { rewrite <- !(map_nth frame_of). now rewrite K. }
  unfold frame_of in E. now injection E as _ _ -> ->.
Qed.

End WithTickStack.

End LookupProperties.

(* ================================================================== *)
(** ** A dampened score is below the threshold *)

Module DampenFacts.

Import Double DoubleClasses DoubleFacts RoundingFacts SignFacts.
Open Scope Z_scope.

(** Rounding a positive value below 2^k gives at most 2^k. *)
Lemma binary_round_aux_le_pow2 k M E :
  -1000 <= k <= 0 -> 0 < M -> E <= k - 53 -> M < 2 ^ (k - E) ->
  SFleb (binary_round_aux prec emax false M E loc_Exact) (pow2_sf k) = true.
Proof.
  intros Hk HM HE Hlt.
  destruct (Zdigits2_bounds M HM) as [[Hlo Hhi] Hd1].
  assert (HdE : Zdigits2 M + E <= k).
  { pose proof (Zdigits2_le M (k - E) HM ltac:(lia) Hlt). lia. }
  unfold binary_round_aux.
  destruct (shr_fexp_spec M E loc_Exact ltac:(lia)) as [S1m S1e].
  destruct (shr_fexp prec emax M E loc_Exact) as [r1 e1]. cbn [fst snd] in *.
  set (m1 := shr_m r1) in *.
  set (m2 := round_nearest_even m1 (loc_of_shr_record r1)).
  pose proof (round_nearest_even_bounds m1 (loc_of_shr_record r1)) as Hm2.
  fold m2 in Hm2.
  assert (P53 : 2 ^ 53 = 9007199254740992) by reflexivity.
  assert (P52 : 2 ^ 52 = 4503599627370496) by reflexivity.
  assert (H1 : 0 <= m1 < 2 ^ 53 /\ e1 <= k - 53).
  { unfold fexp, emin, prec, emax in S1m, S1e.
    change IntDef.Z.max with Z.max in *.
    destruct (Z.ltb_spec 0 (Z.max (Zdigits2 M + E - 53) (3 - 1024 - 53) - E))
      as [Hn|Hn]; subst e1; rewrite S1m.
    - set (n := Z.max (Zdigits2 M + E - 53) (3 - 1024 - 53) - E) in *.
      assert (0 < 2 ^ n) by (apply Z.pow_pos_nonneg; lia).
      split; [split|lia].
      + apply Z.div_pos; lia.
      + apply Z.div_lt_upper_bound; auto. rewrite <- Z.pow_add_r by lia.
        assert (2 ^ Zdigits2 M <= 2 ^ (n + 53)) by (apply Z.pow_le_mono_r; lia).
        lia.
    - assert (2 ^ Zdigits2 M <= 2 ^ 53) by (apply Z.pow_le_mono_r; lia).
      lia. }
  destruct H1 as [Hm1 He1].
  assert (Hm2' : 0 <= m2 <= 2 ^ 53) by lia.
  destruct (shr_fexp_spec m2 e1 loc_Exact ltac:(lia)) as [S2m S2e].
  destruct (shr_fexp prec emax m2 e1 loc_Exact) as [r2 e2]. cbn [fst snd] in *.
  set (n2 := fexp prec emax (Zdigits2 m2 + e1) - e1) in *.
  assert (Hd2 : Zdigits2 m2 <= 54).
  { destruct (Z.eq_dec m2 0) as [->|]; [cbn; lia|].
    apply Zdigits2_le; lia. }
  assert (He2 : e2 <= k - 52 /\ (e2 = k - 52 -> shr_m r2 <= 2 ^ 52)
                /\ 0 <= shr_m r2).
  { unfold n2, fexp, emin, prec, emax in *.
    change IntDef.Z.max with Z.max in *.
    destruct (Z.ltb_spec 0 (Z.max (Zdigits2 m2 + e1 - 53) (3 - 1024 - 53) - e1))
      as [Hn|Hn]; subst e2; rewrite S2m.
    - set (n := Z.max (Zdigits2 m2 + e1 - 53) (3 - 1024 - 53) - e1) in *.
      assert (0 < 2 ^ n) by (apply Z.pow_pos_nonneg; lia).
      split; [lia|]. split; [intros _|apply Z.div_pos; lia].
      apply Z.div_le_upper_bound; auto.
      assert (2 ^ 1 <= 2 ^ n) by (apply Z.pow_le_mono_r; lia).
      change (2 ^ 1) with 2 in *. nia.
    - split; [lia|]. split; lia. }
  destruct He2 as (He2 & Hone & Hnn).
  destruct (shr_m r2) as [|m3|m3]; [reflexivity| |lia].
  unfold prec, emax. destruct (Z.leb_spec e2 (1024 - 53)) as [_|]; [|lia].
  unfold SFleb, pow2_sf. cbn [SFcompare].
  destruct (Z.compare_spec e2 (k - 52)) as [Heq|_|]; [|reflexivity|lia].
  rewrite Pcompare_cont_Eq.
  specialize (Hone Heq).
  destruct (Pos.compare_spec m3 4503599627370496); auto; lia.
Qed.

Lemma SFleb_half_ltb_07 r :
  SFleb r (pow2_sf (-1)) = true -> SFltb r sf_07 = true.
Proof.
  unfold SFleb, SFltb, pow2_sf, sf_07.
  destruct r as [[]|[]| |[] m e]; cbn [SFcompare]; try discriminate;
    try reflexivity.
  change (-1 - 52) with (-53).
  destruct (Z.compare_spec e (-53)); try discriminate; try reflexivity.
  rewrite (Pcompare_cont_Eq m 4503599627370496),
          (Pcompare_cont_Eq m 6305039478318694).
  destruct (Pos.compare_spec m 4503599627370496) as [A|A|A];
    intros H'; try discriminate H'; clear H';
    destruct (Pos.compare_spec m 6305039478318694) as [B|B|B];
    try reflexivity; exfalso;
    try apply Pos2Z.pos_lt_pos in A; try apply Pos2Z.pos_lt_pos in B;
    try (apply (f_equal Z.pos) in A); try (apply (f_equal Z.pos) in B);
    lia.
Qed.

(** The product of a mantissa of 53 bits that is at most that of 0.7 with
    the mantissa of 0.8, when it needs 106 bits. *)
Lemma binary_round_aux_07_08 M :
  2 ^ 105 <= M -> M <= 6305039478318694 * 7205759403792794 ->
  SFltb (binary_round_aux prec emax false M (-106) loc_Exact) sf_07 = true.
Proof.
  intros Hlo Hhi.
  assert (P105 : 2 ^ 105 = 40564819207303340847894502572032) by reflexivity.
  assert (P106 : 2 ^ 106 = 81129638414606681695789005144064) by reflexivity.
  assert (P53 : 2 ^ 53 = 9007199254740992) by reflexivity.
  assert (P52 : 2 ^ 52 = 4503599627370496) by reflexivity.
  assert (HM : 0 < M) by lia.
  destruct (Zdigits2_bounds M HM) as [[Dlo Dhi] Hd1].
  assert (Hd : Zdigits2 M = 106).
  { destruct (Z_lt_le_dec (Zdigits2 M) 106) as [H|H].
    - assert (2 ^ Zdigits2 M <= 2 ^ 105) by (apply Z.pow_le_mono_r; lia). lia.
    - destruct (Z_lt_le_dec 106 (Zdigits2 M)) as [H'|H']; [|lia].
      assert (2 ^ 106 <= 2 ^ (Zdigits2 M - 1)) by (apply Z.pow_le_mono_r; lia).
      lia. }
  unfold binary_round_aux.
  destruct (shr_fexp_spec M (-106) loc_Exact ltac:(lia)) as [S1m S1e].
  destruct (shr_fexp prec emax M (-106) loc_Exact) as [r1 e1].
  cbn [fst snd] in *.
  rewrite Hd in S1m, S1e. cbn in S1m, S1e. subst e1.
  set (m1 := shr_m r1) in *.
  set (m2 := round_nearest_even m1 (loc_of_shr_record r1)).
  pose proof (round_nearest_even_bounds m1 (loc_of_shr_record r1)) as Hm2.
  fold m2 in Hm2.
  assert (Hm1 : 2 ^ 52 <= m1 <= 5044031582654955).
  { rewrite S1m. split.
    - apply Z.div_le_lower_bound; lia.
    - apply Z.lt_succ_r, Z.div_lt_upper_bound; lia. }
  assert (Hm2' : 2 ^ 52 <= m2 < 6305039478318694) by lia.
  assert (Hd2 : Zdigits2 m2 = 53).
  { destruct (Zdigits2_bounds m2 ltac:(lia)) as [[Elo Ehi] _].
    destruct (Z_lt_le_dec (Zdigits2 m2) 53) as [H|H].
    - assert (2 ^ Zdigits2 m2 <= 2 ^ 52) by (apply Z.pow_le_mono_r; lia). lia.
    - destruct (Z_lt_le_dec 53 (Zdigits2 m2)) as [H'|H']; [|lia].
      assert (2 ^ 53 <= 2 ^ (Zdigits2 m2 - 1)) by (apply Z.pow_le_mono_r; lia).
      lia. }
  destruct (shr_fexp_spec m2 (-53) loc_Exact ltac:(lia)) as [S2m S2e].
  destruct (shr_fexp prec emax m2 (-53) loc_Exact) as [r2 e2].
  cbn [fst snd] in *.
  rewrite Hd2 in S2m, S2e. cbn in S2m, S2e. subst e2.
  rewrite S2m.
  destruct m2 as [|m3|m3]; try lia.
  unfold prec, emax.
  destruct (Z.leb_spec (-53) (1024 - 53)) as [_|]; [|lia].
  unfold SFltb, sf_07. cbn [SFcompare].
  rewrite Z.compare_refl, Pcompare_cont_Eq.
  destruct (Pos.compare_spec m3 6305039478318694) as [B|B|B];
    try reflexivity; exfalso;
    try apply Pos2Z.pos_lt_pos in B; try (apply (f_equal Z.pos) in B); lia.
Qed.

Lemma SFmul_08_below X :
  valid_binary X = true -> is_nan_sf X = false -> SFltb sf_07 X = false ->
  SFltb (SF64mul X sf_08) sf_07 = true.
Proof.
  intros Hv Hn Hgt. unfold sf_08.
  destruct X as [s|[]| |[] m e]; try discriminate;
    try (destruct s; reflexivity); try reflexivity.
  - (* a negative number *)
    cbn [SF64mul SFmul xorb].
    pose proof (binary_round_aux_signed prec emax true
                  (Z.pos (m * 7205759403792794)) (e + -53) loc_Exact
                  ltac:(lia)) as H.
    destruct (binary_round_aux _ _ _ _ _ _) as [s|s| |s m' e'];
      cbn in H; try contradiction; subst; reflexivity.
  - (* a positive number, at most 0.7 *)
    cbn [SF64mul SFmul xorb].
    unfold SFltb, sf_07 in Hgt. cbn [SFcompare] in Hgt.
    cbn [valid_binary] in Hv. unfold bounded, canonical_mantissa in Hv.
    apply andb_prop in Hv. destruct Hv as [Hc _]. apply Z.eqb_eq in Hc.
    unfold fexp, emin, prec, emax in Hc.
    change IntDef.Z.max with Z.max in Hc.
    pose proof (digits2_pos_bounds m) as [_ Hm].
    assert (Hd : 2 ^ Z.pos (digits2_pos m) <= 2 ^ 53)
      by (apply Z.pow_le_mono_r; lia).
    assert (P53 : 2 ^ 53 = 9007199254740992) by reflexivity.
    assert (P105 : 2 ^ 105 = 40564819207303340847894502572032) by reflexivity.
    assert (Hcase : e <= -54 \/ e = -53 /\ Z.pos m <= 6305039478318694).
    { destruct (Z.compare_spec (-53) e) as [He|He|He]; try discriminate;
        [|lia].
      right. split; [lia|]. rewrite Pcompare_cont_Eq in Hgt.
      destruct (Pos.compare_spec 6305039478318694 m) as [B|B|B];
        try discriminate Hgt;
        try apply Pos2Z.pos_lt_pos in B; try (apply (f_equal Z.pos) in B);
        lia. }
    rewrite Pos2Z.inj_mul.
    assert (Small : forall E, E <= -107 \/ Z.pos m * 7205759403792794 < 2 ^ 105 ->
              E = e + -53 ->
              SFltb (binary_round_aux prec emax false
                       (Z.pos m * 7205759403792794) E loc_Exact) sf_07 = true).
    { intros E HE ->. apply SFleb_half_ltb_07.
      apply binary_round_aux_le_pow2; try lia.
      destruct HE as [HE|HE].
      - replace (-1 - (e + -53)) with ((- e - 54) + 53 + 53) by lia.
        rewrite !Z.pow_add_r by lia.
        pose proof (Z.pow_pos_nonneg 2 (- e - 54) ltac:(lia) ltac:(lia)).
        assert (Z.pos m * 7205759403792794 < 2 ^ 53 * 2 ^ 53) by nia.
        nia.
      - destruct Hcase as [Hc'|[-> _]].
        + assert (2 ^ 105 <= 2 ^ (-1 - (e + -53)))
            by (apply Z.pow_le_mono_r; lia).
          lia.
        + cbn. lia. }
    destruct Hcase as [He|[-> Hm07]].
    + apply (Small (e + -53)); [left; lia|reflexivity].
    + destruct (Z_lt_le_dec (Z.pos m * 7205759403792794) (2 ^ 105)) as [Hs|Hb].
      * apply (Small (-53 + -53)); [now right|reflexivity].
      * apply binary_round_aux_07_08; [exact Hb|nia].
Qed.

Lemma mul_08_below x :
  number x -> (x >? 0.7)%float = false -> (x * 0.8 <? 0.7)%float = true.
Proof.
  unfold number, gtb. intros Hn Hgt.
  rewrite FloatAxioms.ltb_spec in Hgt.
  rewrite FloatAxioms.ltb_spec, FloatAxioms.mul_spec.
  apply SFmul_08_below; auto. apply Prim2SF_valid.
Qed.


(** The last line of [fuzzy_score_point] leaves a score above the
    threshold as it is and takes every other score below it. *)
Lemma dampen_splits s :
  number s ->
  (HiggsKing.dampen s <? HiggsKing.FUZZY_CONFIDENCE_THRESHOLD)%float
  = negb (s >? HiggsKing.FUZZY_CONFIDENCE_THRESHOLD)%float.
Proof.
  intros Hs. unfold HiggsKing.dampen, HiggsKing.FUZZY_CONFIDENCE_THRESHOLD.
  destruct (s >? 0.7)%float eqn:E; cbn [negb].
  - unfold gtb in E. now apply ltb_asym.
  - now apply mul_08_below.
Qed.

Lemma raw_score_number p f : number (HiggsKingApi.raw_score p f).
Proof.
  unfold HiggsKingApi.raw_score. cbv zeta.
  destruct (_ <? HiggsKing.monitor_field_stability f)%float eqn:E.
  - eapply ltb_number_l; eauto.
  - apply RegistryFacts.stability_number.
Qed.

End DampenFacts.

Module StabilityProperties.

Import Double DoubleClasses TickStack11d HiggsKing HiggsKingApi DoubleFacts
       InsertFacts RegistryFacts PriorityFacts StabilityFacts DampenFacts.
Open Scope float_scope.


(** X22. A registry that stores a point whose energy is NaN or infinite
    is never stable: [monitor_field_stability] returns 0.5. *)
Theorem non_finite_energy_means_unstable f p :
  In p (stored f) -> isnan (energy p) || isinf (energy p) = true ->
  monitor_field_stability f = 0.5.
Proof. apply not_finite_energy_unstable. Qed.

(** X23. The result of [fuzzy_score_point] is never NaN and never the
    threshold 0.7 itself: it is above 0.7 when the score before the last
    line was, and below 0.7 in every other case. So the test by which
    [higgs_interaction] skips a point, [fuzzy_score < 0.7], holds exactly
    of the points whose score was multiplied by 0.8. *)
Theorem dampened_scores_are_below_threshold p f :
  fuzzy_score_point p f = dampen (raw_score p f) /\
  (fuzzy_score_point p f <? FUZZY_CONFIDENCE_THRESHOLD)
  = negb (raw_score p f >? FUZZY_CONFIDENCE_THRESHOLD) /\
  (fuzzy_score_point p f >? FUZZY_CONFIDENCE_THRESHOLD)
  = (raw_score p f >? FUZZY_CONFIDENCE_THRESHOLD).
Proof.
  split; [reflexivity|].
  change (fuzzy_score_point p f) with (dampen (raw_score p f)).
  split; [apply dampen_splits, raw_score_number|].
  pose proof (dampen_splits _ (raw_score_number p f)) as H.
  destruct (raw_score p f >? FUZZY_CONFIDENCE_THRESHOLD) eqn:E.
  - unfold dampen. now rewrite E.
  - cbn [negb] in H. unfold gtb in *. now apply ltb_asym.
Qed.

Section WithTickStack.

Context {ops : TickStackOps}.


End WithTickStack.

End StabilityProperties.

Module StabilityWitnesses.

Import Double HiggsKing HiggsKingApi MoreExamples.
Open Scope float_scope.

#[local] Existing Instance SpecTickStack.reference.

(** X22, on the registry whose energies have overflowed. *)
Lemma non_finite_energy_means_unstable_witness :
  monitor_field_stability Examples.far_pair_thrice = 0.5.
Proof.
  apply (StabilityProperties.non_finite_energy_means_unstable
           Examples.far_pair_thrice overflowed_point).
  - vm_compute. left. reflexivity.
  - vm_compute. reflexivity.
Defined.


End StabilityWitnesses.

Module QuietStepProperties.

Import Double TickStack11d HiggsKing HiggsKingApi RegistryShapeFacts.
Open Scope float_scope.

Section WithTickStack.

Context {ops : TickStackOps}.

Lemma interaction_loop_skips n : forall i f out,
  (forall j, (i <= j < i + n)%nat ->
     (fuzzy_score (slot (points f) j) <? FUZZY_CONFIDENCE_THRESHOLD) = true) ->
  interaction_loop n i (f, out) = Some (f, out).
Proof.
  induction n as [|n IH]; intros i f out H; cbn [interaction_loop].
  - reflexivity.
  - unfold interact_point. rewrite (H i) by lia. apply IH.
    intros j Hj. apply H. lia.
Qed.

(** X25. When the registry holds at least two points and every stored
    priority is below 0.7, [higgs_interaction] sets the coupling factor,
    recomputes the topology and does nothing else: no point changes,
    nothing is reported and no record of the topology is read, whether it
    has one or not. *)
Theorem interaction_without_candidates f :
  (2 <= point_count f <= length (points f))%nat ->
  Forall (fun p => (fuzzy_score p <? FUZZY_CONFIDENCE_THRESHOLD) = true)
         (stored f) ->
  higgs_interaction f =
  Some (set_tick_stack (compute_multivar_delta_topology (tick_stack f))
          (set_coupling (HIGGS_COUPLING_BASE * monitor_field_stability f) f),
        []).
Proof.
  intros Hc Hs. unfold higgs_interaction.
  destruct (Nat.ltb_spec (point_count f) 2) as [Hlt|_]; [lia|].
  apply interaction_loop_skips. cbn [points set_tick_stack set_coupling].
  intros j Hj. rewrite stored_slots in Hs by lia.
  rewrite Forall_forall in Hs. apply Hs, in_map, in_seq.
  cbn [point_count set_tick_stack set_coupling] in Hj. lia.
Qed.

End WithTickStack.

End QuietStepProperties.

Module QuietStepWitnesses.

Import Double TickStack11d HiggsKing HiggsKingApi MoreExamples.
Open Scope float_scope.

#[local] Existing Instance SpecTickStack.reference.

(** X25, on two points of mass 1.0. *)
Lemma interaction_without_candidates_witness :
  higgs_interaction quiet =
  Some (set_tick_stack (compute_multivar_delta_topology (tick_stack quiet))
          (set_coupling (HIGGS_COUPLING_BASE * monitor_field_stability quiet)
             quiet), []).
Proof.
  apply (QuietStepProperties.interaction_without_candidates quiet).
  - vm_compute. lia.
  - vm_compute. repeat constructor.
Defined.

End QuietStepWitnesses.

(* ================================================================== *)
(** ** The statements above on sample data *)

Module MoreWitnesses.

Import Double FreeAll FreeAllApi MoreExamples.
Open Scope Z_scope.

#[local] Existing Instance SpecTickStack.reference.

Lemma demo_reachable : HiggsKing.reachable Examples.demo.
Proof.
  unfold Examples.demo, HiggsKing.insert_all. cbn [fold_left].
  repeat (apply HiggsKing.reach_add; [|exact I]).
  apply RegistryClaims.fresh_reachable.
Qed.

Lemma tagged_reachable : HiggsKing.reachable tagged.
Proof. apply HiggsKing.reach_add; [apply demo_reachable|exact I]. Qed.

(** X1, on a block submitted twice. *)
Lemma free_stack_count_is_exact_witness :
  tick_count twice_submitted = length (tick_stack twice_submitted).
Proof.
  exact (proj1 (FreeStackProperties.free_stack_count_is_exact twice_submitted
                  FreeApiProperties.twice_submitted_reachable)).
Defined.

(** X2, on the same stack. *)
Lemma free_stack_is_sorted_witness :
  Forall number (map fuzzy_score (tick_stack twice_submitted)).
Proof.
  exact (proj2 (FreeStackProperties.free_stack_is_sorted twice_submitted
                  FreeApiProperties.twice_submitted_reachable)).
Defined.

(** X4: the block submitted twice is freed twice. *)
Lemma cascade_frees_every_entry_witness :
  times_freed 7 (tick_cascade twice_submitted) = 2%nat.
Proof.
  exact (proj2 (proj2 (proj2 (proj2
    (FreeStackProperties.cascade_frees_every_entry twice_submitted
       FreeApiProperties.twice_submitted_reachable)))) 7).
Defined.

(** X5, on a stack of two entries. *)
Lemma pressure_rises_at_922_entries_witness :
  (tick_count twice_submitted <= MAX_TICK_STACK)%nat /\
  monitor_memory_pressure twice_submitted = 0.5%float.
Proof.
  assert (H : (tick_count twice_submitted <= MAX_TICK_STACK)%nat)
    by (vm_compute; lia).
  split; [exact H|].
  exact (FreeStackProperties.pressure_rises_at_922_entries twice_submitted H).
Defined.

(** X6, on a block of 64 bytes. *)
Lemma stored_scores_range_witness :
  (penalize (fuzzy_score_ptr empty 7%Z 64%Z 1%Z) <=? 0.7)%float = true.
Proof.
  exact (proj1 (proj2 (FreeScoreProperties.stored_scores_range empty 7 64 1
                         ltac:(lia)))).
Defined.

(** X7, on a block of 4096 bytes. *)
Lemma single_reference_scores_level_off_witness :
  penalize (fuzzy_score_ptr empty 7 4096 1) = (0.3 * 0.8)%float.
Proof.
  exact (proj2 (FreeScoreProperties.single_reference_scores_level_off
                  empty 7 4096 1 ltac:(lia) ltac:(lia)) ltac:(lia)).
Defined.

(** X8, on blocks of 64 and of 4096 bytes. *)
Lemma larger_blocks_rank_no_lower_witness :
  (penalize (fuzzy_score_ptr empty 7%Z 64%Z 1%Z)
   <=? penalize (fuzzy_score_ptr empty 8%Z 4096%Z 1%Z))%float = true.
Proof.
  exact (FreeScoreProperties.larger_blocks_rank_no_lower empty 7 8 64 4096 1
           ltac:(lia)).
Defined.

(** X10: the five calls queue seven addresses. *)
Lemma entry_points_queue_their_blocks_witness :
  tick_count (snd (serve_requests ([], empty))) = 7%nat /\
  Permutation (pending (snd (serve_requests ([], empty))))
              [5; 2200; 2000; 2100; 1000; 1300; 1100].
Proof.
  assert (H : (tick_count empty
               + length (flat_map (submissions load) requests)
               <= MAX_TICK_STACK)%nat) by (vm_compute; lia).
  destruct (FreeApiProperties.entry_points_queue_their_blocks 8 16 load
              render_pointer requests [] empty eq_refl H) as (C & P & _).
  split; [exact C|exact P].
Defined.


(** X21: the five calls and a cascade. *)
Lemma cascade_frees_what_was_submitted_witness :
  exists order,
    freed (tick_cascade (snd (serve_requests ([], empty)))) = order /\
    Permutation order [1100; 1300; 1000; 2100; 2000; 2200; 5].
Proof.
  destruct (FreeApiProperties.cascade_frees_what_was_submitted 8 16 load
              render_pointer requests [] [] [] eq_refl
              ltac:(vm_compute; lia)) as (_ & _ & order & F & P).
  exists order. split; [exact F|exact P].
Defined.

(** X12, on the registry of the demo. *)
Lemma stored_points_keep_their_shape_witness :
  Forall (fun p => (length (HiggsKing.field p) <= HiggsKing.HIGGS_FIELD_DIM)%nat /\
                   HiggsKing.is_interacting p = 1 /\
                   (String.length (HiggsKing.insert_id p) <= 31)%nat)
         (HiggsKing.stored tagged).
Proof.
  exact (RegistryProperties.stored_points_keep_their_shape tagged
           tagged_reachable).
Defined.

(** X13, on the registry of the demo. *)
Lemma coupling_has_two_values_witness :
  HiggsKing.coupling_factor Examples.demo = HiggsKing.HIGGS_COUPLING_BASE \/
  HiggsKing.coupling_factor Examples.demo = 0.0625%float.
Proof.
  exact (RegistryProperties.coupling_has_two_values Examples.demo
           demo_reachable).
Defined.

(** X14, on the registry of the demo. *)
Lemma interaction_reads_missing_record_iff_witness :
  HiggsKing.higgs_interaction Examples.demo = None <->
  (2 <= HiggsKing.point_count Examples.demo)%nat /\
  TickStack11d.delta_topology
    (TickStack11d.compute_multivar_delta_topology
       (HiggsKing.tick_stack Examples.demo)) = [] /\
  exists p, In p (HiggsKing.stored Examples.demo) /\
            (HiggsKing.fuzzy_score p <? HiggsKing.FUZZY_CONFIDENCE_THRESHOLD)%float
            = false.
Proof.
  apply (RegistryProperties.interaction_reads_missing_record_iff
           (TickStackLaws0 := RegistryClaims.reference_laws) Examples.demo).
  vm_compute. lia.
Defined.

(** X15: a point of NaN mass in a fresh registry, which is stable, and
    one in a registry that is not. *)
Lemma nan_mass_is_taken_in_witness :
  (exists p k,
     HiggsKing.stored
       (fst (HiggsKing.add_higgs_point Examples.fresh (Some Examples.coords1)
               nan (Some "x"%string))) =
     firstn k (HiggsKing.stored Examples.fresh) ++
     p :: skipn k (HiggsKing.stored Examples.fresh) /\
     HiggsKing.fuzzy_score p = 1.0%float) /\
  (exists p k,
     HiggsKing.stored
       (fst (HiggsKing.add_higgs_point Examples.disturbed
               (Some Examples.coords1) nan (Some "x"%string))) =
     firstn k (HiggsKing.stored Examples.disturbed) ++
     p :: skipn k (HiggsKing.stored Examples.disturbed) /\
     HiggsKing.fuzzy_score p = (0.5 * 0.8)%float).
Proof.
  assert (M : HiggsKing.finite_magnitude Examples.coords1)
    by (vm_compute; reflexivity).
  split.
  - assert (R : HiggsKing.has_room Examples.fresh) by (split; vm_compute; lia).
    destruct (RegistryProperties.nan_mass_is_taken_in Examples.fresh
                Examples.coords1 nan "x"%string R M eq_refl)
      as (_ & _ & _ & _ & p & k & E & _ & S & _).
    exists p, k. split; [exact E|]. apply S. vm_compute. reflexivity.
  - assert (R : HiggsKing.has_room Examples.disturbed)
      by (split; vm_compute; lia).
    destruct (RegistryProperties.nan_mass_is_taken_in Examples.disturbed
                Examples.coords1 nan "x"%string R M eq_refl)
      as (_ & _ & _ & _ & p & k & E & _ & _ & U & _).
    exists p, k. split; [exact E|]. apply U. vm_compute. reflexivity.
Defined.

(** X16: the tag of 40 characters that the third point was given. *)
Lemma long_tag_is_never_found_witness :
  shoot tagged Examples.long_tag ([], empty) = ([], empty).
Proof.
  apply (ShootOverProperties.long_tag_is_never_found 152 render_pointer
           render_double 4096 tagged Examples.long_tag ([], empty)
           tagged_reachable).
  - discriminate.
  - vm_compute. lia.
Defined.

(** X17: the lookup of the demo. *)
Lemma shoot_over_higgs_queues_slots_witness :
  tick_count (snd (shoot Examples.demo "point1" ([], empty))) = 1%nat.
Proof.
  assert (H : (tick_count empty
               + length (HiggsKingApi.selected Examples.demo "point1")
               <= MAX_TICK_STACK)%nat) by (vm_compute; lia).
  exact (proj1 (ShootOverProperties.shoot_over_higgs_queues_slots 152
                  render_pointer render_double 4096 Examples.demo "point1"
                  [] empty ltac:(lia) ltac:(lia) eq_refl H)).
Defined.

(** X18: a third point under a short tag. *)
Lemma inserted_tag_is_found_witness :
  exists i,
    In i (HiggsKingApi.selected
            (fst (HiggsKing.add_higgs_point Examples.demo
                    (Some Examples.coords1) 1.0 (Some "point3"%string)))
            "point3").
Proof.
  assert (R : HiggsKing.has_room Examples.demo) by (split; vm_compute; lia).
  assert (M : HiggsKing.finite_magnitude Examples.coords1)
    by (vm_compute; reflexivity).
  destruct (ShootOverProperties.inserted_tag_is_found Examples.demo
              Examples.coords1 1.0 "point3"%string R M ltac:(vm_compute; lia))
    as (i & Hi & _).
  exists i. exact Hi.
Defined.

(** X19, on three blocks. *)
Lemma large_blocks_queue_behind_the_first_witness :
  pending (snd (fold_left (fun w b => free_1d (fst b) (snd b) w) large_blocks
                  ([], empty))) = [10; 30; 20].
Proof.
  apply (TieProperties.large_blocks_queue_behind_the_first large_blocks [] [] []).
  - reflexivity.
  - vm_compute. lia.
  - repeat constructor; try discriminate; cbn; lia.
Defined.

(** X20, on the interaction of the demo. *)
Lemma interaction_keeps_selection_witness :
  HiggsKingApi.selected demo_after_step "point1" =
  HiggsKingApi.selected Examples.demo "point1".
Proof.
  assert (E : HiggsKing.higgs_interaction Examples.demo
              = Some (demo_after_step, [])) by (vm_compute; reflexivity).
  exact (LookupProperties.interaction_keeps_selection Examples.demo
           demo_after_step [] "point1" E).
Defined.

End MoreWitnesses.
